(** * Verilog patch template library: a shallow embedding of the repair passes

    The development follows the Python sources of
    [Verilog_Patch_Template_Library/patch_templates]: one module per patcher
    class, each method translated to a function of the same name.

    Text model.  A Python [str] is a [list ascii]; the characters are the
    code points below 256, and the character classes ([str.isspace], the
    [re] classes \s, \w, \d and [str.lower]) are the ones Python uses on that
    range.  A line list is a [list (list ascii)].  Instance attributes
    (the counters of a patcher) are record fields that every method takes
    and returns.  The [print] calls of the sources write progress messages
    only and are left out.

    Loops.  A [for] loop, and a [while] loop that adds one to its index on
    every path, is a recursion over the lines.  A [while] loop whose index
    can jump takes fuel, the number of lines, and returns [None] should
    the fuel run out; the section on totality shows that it never does. *)

From Stdlib Require Import Ascii String DecimalString DecimalNat.
From stdpp Require Import gmap list.

Local Open Scope nat_scope.
Local Open Scope list_scope.

Abbreviation str := (list ascii).

(** A Python string literal. *)
Definition Str (s : string) : str := list_ascii_of_string s.

(* ===================================================================== *)
(** * Characters *)
(* ===================================================================== *)

Module Char.

Definition code (c : ascii) : nat := nat_of_ascii c.

Definition between (lo hi : nat) (c : ascii) : bool :=
  (lo <=? code c) && (code c <=? hi).

(** [str.isspace] on one character, which is also the class \s of [re]. *)
Definition is_space (c : ascii) : bool :=
  between 9 13 c || between 28 32 c || (code c =? 133) || (code c =? 160).

(** The class \d of [re]. *)
Definition is_digit (c : ascii) : bool := between 48 57 c.

(** The class \w of [re]: alphanumeric characters and the underscore. *)
Definition is_word (c : ascii) : bool :=
  between 48 57 c || between 65 90 c || (code c =? 95) || between 97 122 c
  || (code c =? 170) || between 178 179 c || (code c =? 181)
  || between 185 186 c || between 188 190 c || between 192 214 c
  || between 216 246 c || between 248 255 c.

(** [str.lower] on one character. *)
Definition lower (c : ascii) : ascii :=
  if between 65 90 c || between 192 214 c || between 216 222 c
  then ascii_of_nat (code c + 32) else c.

Definition eqb (a b : ascii) : bool := Ascii.eqb a b.

Definition newline : ascii := ascii_of_nat 10.
Definition tab : ascii := ascii_of_nat 9.

End Char.

(* ===================================================================== *)
(** * The string methods the patchers call *)
(* ===================================================================== *)

Module Py.

Fixpoint drop_while (p : ascii -> bool) (s : str) : str :=
  match s with
  | [] => []
  | c :: t => if p c then drop_while p t else s
  end.

Fixpoint take_while (p : ascii -> bool) (s : str) : str :=
  match s with
  | [] => []
  | c :: t => if p c then c :: take_while p t else []
  end.

(** [s.lstrip()], [s.rstrip()], [s.strip()]. *)
Definition lstrip (s : str) : str := drop_while Char.is_space s.
Definition rstrip (s : str) : str := rev (drop_while Char.is_space (rev s)).
Definition strip (s : str) : str := rstrip (lstrip s).

Fixpoint str_eqb (a b : str) : bool :=
  match a, b with
  | [], [] => true
  | x :: a', y :: b' => Char.eqb x y && str_eqb a' b'
  | _, _ => false
  end.

(** [s.startswith(p)]. *)
Fixpoint startswith (s p : str) : bool :=
  match p, s with
  | [], _ => true
  | x :: p', y :: s' => Char.eqb x y && startswith s' p'
  | _ :: _, [] => false
  end.

(** [s.endswith(p)]. *)
Definition endswith (s p : str) : bool := startswith (rev s) (rev p).

(** [s.startswith((p1, ..., pn))] and [s.endswith((p1, ..., pn))]. *)
Definition startswith_any (s : str) (ps : list str) : bool :=
  existsb (startswith s) ps.
Definition endswith_any (s : str) (ps : list str) : bool :=
  existsb (endswith s) ps.

(** [sub in s]. *)
Fixpoint contains (sub s : str) : bool :=
  startswith s sub ||
  match s with
  | [] => false
  | _ :: t => contains sub t
  end.

(** [s.count(c)] for a one-character [c]. *)
Fixpoint count (c : ascii) (s : str) : nat :=
  match s with
  | [] => 0
  | x :: t => (if Char.eqb x c then 1 else 0) + count c t
  end.

(** [s.lower()]. *)
Definition lower (s : str) : str := map Char.lower s.

(** [sep.join(parts)]. *)
Fixpoint join (sep : str) (parts : list str) : str :=
  match parts with
  | [] => []
  | [p] => p
  | p :: rest => p ++ sep ++ join sep rest
  end.

(** [s.replace(old, new)] for a non-empty [old]: the occurrences are taken
    from left to right and do not overlap.  [skip] counts the characters of
    an occurrence that are still to be passed over. *)
Fixpoint replace_from (old new : str) (skip : nat) (s : str) : str :=
  match s with
  | [] => []
  | c :: t =>
      match skip with
      | S k => replace_from old new k t
      | 0 =>
          if startswith s old
          then new ++ replace_from old new (length old - 1) t
          else c :: replace_from old new 0 t
      end
  end.

Definition replace (s old new : str) : str := replace_from old new 0 s.

(** [str(n)] inside an f-string and [int(s)] on a run of decimal digits. *)
Definition str_of_nat (n : nat) : str :=
  Str (NilZero.string_of_uint (Nat.to_uint n)).

Definition int_of_str (s : str) : nat :=
  match NilZero.uint_of_string (string_of_list_ascii s) with
  | Some u => Nat.of_uint u
  | None => 0
  end.

(** [l[a:b]] on a list, for [0 <= a]. *)
Definition slice {A} (l : list A) (a b : nat) : list A := take (b - a) (drop a l).

(** [l[-n:]]. *)
Definition last_n {A} (n : nat) (l : list A) : list A := drop (length l - n) l.

(** [range(a, b)]. *)
Definition range (a b : nat) : list nat := seq a (b - a).

(** [l[i]] at a call site that has checked [i < len(l)]. *)
Definition getitem (l : list str) (i : nat) : str := nth i l [].

(** [not s] for a string: the empty string is false. *)
Definition is_empty (s : str) : bool :=
  match s with [] => true | _ => false end.

(** The end-of-line character, and a literal followed by it. *)
Definition nl : str := [Char.newline].
Definition Line (s : string) : str := Str s ++ nl.

End Py.

(* ===================================================================== *)
(** * Regular expressions, with the matching order of Python's [re] *)
(* ===================================================================== *)

Module Re.

(** One-character classes. *)
Inductive cset :=
| CChar (c : ascii)      (* a literal character *)
| CSpace                 (* \s *)
| CWord                  (* \w *)
| CDigit                 (* \d *)
| CDot                   (* . : any character but a newline *)
| COneOf (l : str)       (* [...] *)
| CNoneOf (l : str).     (* [^...] *)

Definition mem (cs : cset) (c : ascii) : bool :=
  match cs with
  | CChar x => Char.eqb c x
  | CSpace => Char.is_space c
  | CWord => Char.is_word c
  | CDigit => Char.is_digit c
  | CDot => negb (Char.eqb c Char.newline)
  | COneOf l => existsb (Char.eqb c) l
  | CNoneOf l => negb (existsb (Char.eqb c) l)
  end.

(** The patterns of the sources quantify one-character classes only, so
    the repetitions take a class. *)
Inductive regex :=
| Eps
| One (cs : cset)
| Star (cs : cset)              (* cs*  : greedy *)
| StarLazy (cs : cset)          (* cs*? : lazy *)
| Bol                           (* ^ *)
| Eol                           (* $ *)
| WordB                         (* \b *)
| Cat (r1 r2 : regex)
| Alt (r1 r2 : regex)           (* r1|r2 *)
| Group (n : nat) (r : regex).  (* the n-th capturing group *)

Definition Plus (cs : cset) : regex := Cat (One cs) (Star cs).         (* cs+ *)
Definition PlusLazy (cs : cset) : regex := Cat (One cs) (StarLazy cs). (* cs+? *)
Definition Opt (cs : cset) : regex := Alt (One cs) Eps.                (* cs? *)

Fixpoint Seq (rs : list regex) : regex :=
  match rs with
  | [] => Eps
  | [r] => r
  | r :: rest => Cat r (Seq rest)
  end.

(** A literal word. *)
Definition Lit (s : string) : regex := Seq (map (fun c => One (CChar c)) (Str s)).

(** The matcher's position in the subject: index, character before the
    position, text from the position on, and the groups closed so far. *)
Record mstate := MState {
  pos : nat;
  prev : option ascii;
  rest : str;
  groups : list (nat * (nat * nat))
}.

Definition is_word_opt (o : option ascii) : bool :=
  match o with Some c => Char.is_word c | None => false end.

Definition at_eol (s : str) : bool :=
  match s with
  | [] => true
  | [c] => Char.eqb c Char.newline
  | _ => false
  end.

Definition at_boundary (st : mstate) : bool :=
  xorb (is_word_opt (prev st)) (is_word_opt (head (rest st))).

(** cs* then the continuation: the longest run first, then shorter ones. *)
Fixpoint star_greedy (cs : cset) (k : mstate -> option mstate)
    (p : nat) (pv : option ascii) (s : str) (g : list (nat * (nat * nat)))
    : option mstate :=
  match s with
  | c :: t =>
      if mem cs c then
        match star_greedy cs k (S p) (Some c) t g with
        | Some r => Some r
        | None => k (MState p pv s g)
        end
      else k (MState p pv s g)
  | [] => k (MState p pv s g)
  end.

(** cs*? then the continuation: the shortest run first. *)
Fixpoint star_lazy (cs : cset) (k : mstate -> option mstate)
    (p : nat) (pv : option ascii) (s : str) (g : list (nat * (nat * nat)))
    : option mstate :=
  match k (MState p pv s g) with
  | Some r => Some r
  | None =>
      match s with
      | c :: t => if mem cs c then star_lazy cs k (S p) (Some c) t g else None
      | [] => None
      end
  end.

(** Backtracking matcher in continuation-passing style: [rmatch r k st]
    is the first way, in the order [re] tries them, to match [r] at [st]
    such that the continuation [k] accepts what follows. *)
Fixpoint rmatch (r : regex) (k : mstate -> option mstate) (st : mstate)
    : option mstate :=
  match r with
  | Eps => k st
  | One cs =>
      match rest st with
      | c :: t =>
          if mem cs c then k (MState (S (pos st)) (Some c) t (groups st)) else None
      | [] => None
      end
  | Star cs => star_greedy cs k (pos st) (prev st) (rest st) (groups st)
  | StarLazy cs => star_lazy cs k (pos st) (prev st) (rest st) (groups st)
  | Bol => if pos st =? 0 then k st else None
  | Eol => if at_eol (rest st) then k st else None
  | WordB => if at_boundary st then k st else None
  | Cat r1 r2 => rmatch r1 (rmatch r2 k) st
  | Alt r1 r2 =>
      match rmatch r1 k st with
      | Some res => Some res
      | None => rmatch r2 k st
      end
  | Group n r1 =>
      rmatch r1
        (fun st' =>
           k (MState (pos st') (prev st') (rest st')
                ((n, (pos st, pos st')) :: groups st')))
        st
  end.

(** One attempt at position [p]; with [must_advance] an empty match at [p]
    is refused and the matcher backtracks. *)
Definition attempt (r : regex) (must_advance : bool)
    (p : nat) (pv : option ascii) (s : str) : option mstate :=
  rmatch r
    (fun st => if must_advance && (pos st =? p) then None else Some st)
    (MState p pv s []).

(** A match object: span and groups. *)
Record match_obj := MatchObj {
  m_start : nat;
  m_end : nat;
  m_groups : list (nat * (nat * nat))
}.

(** [re.match(r, s)]. *)
Definition match_ (r : regex) (s : str) : option match_obj :=
  match attempt r false 0 None s with
  | Some st => Some (MatchObj 0 (pos st) (groups st))
  | None => None
  end.

Fixpoint search_from (r : regex) (p : nat) (pv : option ascii) (s : str)
    : option match_obj :=
  match attempt r false p pv s with
  | Some st => Some (MatchObj p (pos st) (groups st))
  | None =>
      match s with
      | [] => None
      | c :: t => search_from r (S p) (Some c) t
      end
  end.

(** [re.search(r, s)]: the leftmost position that has a match. *)
Definition search (r : regex) (s : str) : option match_obj := search_from r 0 None s.

Definition is_match (o : option match_obj) : bool :=
  match o with Some _ => true | None => false end.

(** [re.match(r, s)] and [re.search(r, s)] used as conditions. *)
Definition matches (r : regex) (s : str) : bool := is_match (match_ r s).
Definition found (r : regex) (s : str) : bool := is_match (search r s).

(** [m.group(n)], for a group that took part in the match. *)
Fixpoint group_span (gs : list (nat * (nat * nat))) (n : nat) : option (nat * nat) :=
  match gs with
  | [] => None
  | (i, ab) :: rest => if i =? n then Some ab else group_span rest n
  end.

Definition group (s : str) (m : match_obj) (n : nat) : str :=
  match group_span (m_groups m) n with
  | Some (a, b) => Py.slice s a b
  | None => []
  end.

(** [re.sub(r, repl, s)] for a replacement without group references.
    [skip] counts the characters of the current match still to pass.
    After an empty match the same position is tried once more for a
    non-empty match, as [re] does. *)
Fixpoint sub_from (r : regex) (repl : str)
    (p : nat) (pv : option ascii) (skip : nat) (s : str) : str :=
  match skip with
  | S k =>
      match s with
      | [] => []
      | c :: t => sub_from r repl (S p) (Some c) k t
      end
  | 0 =>
      match attempt r false p pv s with
      | None =>
          match s with
          | [] => []
          | c :: t => c :: sub_from r repl (S p) (Some c) 0 t
          end
      | Some st =>
          match pos st - p with
          | S k =>
              repl ++ match s with
                      | [] => []
                      | c :: t => sub_from r repl (S p) (Some c) k t
                      end
          | 0 =>
              repl ++
              match attempt r true p pv s with
              | Some st2 =>
                  repl ++ match s with
                          | [] => []
                          | c :: t =>
                              sub_from r repl (S p) (Some c) (pos st2 - p - 1) t
                          end
              | None =>
                  match s with
                  | [] => []
                  | c :: t => c :: sub_from r repl (S p) (Some c) 0 t
                  end
              end
          end
      end
  end.

Definition sub (r : regex) (repl : str) (s : str) : str := sub_from r repl 0 None 0 s.

End Re.

Import Py.

(* ===================================================================== *)
(** * assign_statement_patcher.py *)
(* ===================================================================== *)

Module AssignStatementPatcher.

Import Re.

(** The instance attributes. *)
Record t := Self { fixed_count : nat; merged_count : nat }.

Definition new : t := Self 0 0.

Definition _is_assign_start (line_clean : str) : bool :=
  startswith line_clean (Str "assign ") && contains (Str "=") line_clean.

Definition new_statement_keywords : list str :=
  [Str "assign "; Str "always"; Str "wire "; Str "reg "; Str "input ";
   Str "output "; Str "module "; Str "endmodule"; Str "begin"; Str "end";
   Str "if "; Str "case "].

Definition _is_new_statement_start (line_clean : str) : bool :=
  startswith_any line_clean new_statement_keywords.

(** The pattern "^\s*X\s*" for an operator X. *)
Definition lead_op (c : string) : regex :=
  Seq [Bol; Star CSpace; Lit c; Star CSpace].

Definition continuation_patterns : list regex :=
  [lead_op "|"; lead_op "&"; lead_op "^"; lead_op "+"; lead_op "-";
   lead_op "?"; lead_op ":"; lead_op "=="; lead_op "!="].

Definition _is_continuation_line (line_clean : str) : bool :=
  existsb (fun p => matches p line_clean) continuation_patterns.

(** The [while] loop of [_collect_complete_assign] over the lines after
    [start_idx]; every path adds one to [i] or leaves the loop. *)
Fixpoint collect_loop (rest : list str) (assign_parts : list str)
    (lines_consumed : nat) : list str * nat :=
  match rest with
  | [] => (assign_parts, lines_consumed)
  | l :: rest' =>
      let next_line := strip l in
      if is_empty next_line || startswith next_line (Str "//") then
        collect_loop rest' assign_parts (lines_consumed + 1)
      else if _is_new_statement_start next_line
              && negb (_is_continuation_line next_line) then
        (assign_parts, lines_consumed)
      else
        let assign_parts' := assign_parts ++ [next_line] in
        if endswith next_line (Str ";") then (assign_parts', lines_consumed + 1)
        else collect_loop rest' assign_parts' (lines_consumed + 1)
  end.

Definition _collect_complete_assign (rtl_lines : list str) (start_idx : nat)
    : str * nat :=
  let first_line := strip (getitem rtl_lines start_idx) in
  let needs_continuation :=
    negb (endswith first_line (Str ";"))
    || endswith_any first_line
         [Str "|"; Str "&"; Str "^"; Str "+"; Str "-"; Str "?"; Str ":"; Str "="] in
  let '(assign_parts, lines_consumed) :=
    if needs_continuation
    then collect_loop (drop (start_idx + 1) rtl_lines) [first_line] 1
    else ([first_line], 1) in
  (join (Str " ") assign_parts, lines_consumed).

(** Group 1 is "assign\s+[^=]+=\s*[^;]+?", then "\s+", and group 2 is
    "assign\s+.*". *)
Definition multiple_assign_pattern : regex :=
  Seq [Group 1 (Seq [Lit "assign"; Plus CSpace; Plus (CNoneOf (Str "="));
                     Lit "="; Star CSpace; PlusLazy (CNoneOf (Str ";"))]);
       Plus CSpace;
       Group 2 (Seq [Lit "assign"; Plus CSpace; Star CDot])].

Definition _split_multiple_assigns (line : str) : list str :=
  let current := strip line in
  match search multiple_assign_pattern current with
  | Some m =>
      let first_assign := strip (group current m 1) in
      let rest := strip (group current m 2) in
      let first_assign :=
        if negb (endswith first_assign (Str ";"))
        then first_assign ++ Str ";" else first_assign in
      [first_assign; rest]
  | None => [line]
  end.

(** The pattern "\?\s*else\s+if\s*\([^)]+\)\s*[^;:]+;\s*:". *)
Definition complex_ternary_pattern : regex :=
  Seq [Lit "?"; Star CSpace; Lit "else"; Plus CSpace; Lit "if"; Star CSpace;
       Lit "("; Plus (CNoneOf (Str ")")); Lit ")"; Star CSpace;
       Plus (CNoneOf (Str ";:")); Lit ";"; Star CSpace; Lit ":"].

Definition _fix_complex_ternary (line : str) : str :=
  if found complex_ternary_pattern line
  then sub complex_ternary_pattern (Str " ? 1'b0 :") line
  else line.

Definition _fix_ternary_operator (line : str) : str :=
  let question_count := count "?" line in
  let colon_count := count ":" line in
  if colon_count <? question_count
  then Nat.iter (question_count - colon_count) (fun l => l ++ Str " : 1'b0") line
  else line.

(** The pattern "\s*X\s*" for a one-character X. *)
Definition around (c : string) : regex := Seq [Star CSpace; Lit c; Star CSpace].

Definition _fix_assign_statement (assign_line : str) : str :=
  if is_empty (strip assign_line) then assign_line else
  let fixed_line := assign_line in
  let fixed_line := _fix_complex_ternary fixed_line in
  (* '< =' -> '<=' *)
  let fixed_line := sub (Seq [Lit "<"; Star CSpace; Lit "="]) (Str "<=") fixed_line in
  let fixed_line := _fix_ternary_operator fixed_line in
  let fixed_line :=
    if negb (endswith (strip fixed_line) (Str ";"))
    then rstrip fixed_line ++ Str ";" else fixed_line in
  (* normalize whitespace *)
  let fixed_line := sub (Plus CSpace) (Str " ") fixed_line in
  let fixed_line := sub (around "=") (Str " = ") fixed_line in
  let fixed_line := sub (around "?") (Str " ? ") fixed_line in
  let fixed_line := sub (around ":") (Str " : ") fixed_line in
  (* ' =  =' -> '==' *)
  let fixed_line := sub (Seq [Lit "="; Plus CSpace; Lit "="]) (Str "==") fixed_line in
  fixed_line.

Definition ternary_patterns : list regex :=
  [lead_op "?"; lead_op ":"; lead_op "|"; lead_op "&"; lead_op "^"].

Definition _is_orphan_ternary_part (line_clean : str) : bool :=
  existsb (fun p => matches p line_clean) ternary_patterns.

Definition _can_merge_with_previous (prev_line curr_line : str) : bool :=
  let prev_clean := strip prev_line in
  let curr_clean := strip curr_line in
  if endswith_any prev_clean [Str "?"; Str "&"; Str "|"; Str "^"; Str "+"; Str "-"]
     || startswith_any curr_clean
          [Str "?"; Str ":"; Str "&"; Str "|"; Str "^"; Str "+"; Str "-"]
  then true
  else if startswith prev_clean (Str "assign ") && negb (endswith prev_clean (Str ";"))
  then true
  else false.

Definition _merge_ternary_lines (prev_line curr_line : str) : str :=
  rstrip prev_line ++ Str " " ++ strip curr_line.

(** The pattern "X\s*$" for an operator X. *)
Definition trailing (c : string) : regex := Seq [Lit c; Star CSpace; Eol].

Definition incomplete_patterns : list regex :=
  [trailing "="; trailing "<="; trailing "?"; trailing ":"].

Definition _is_incomplete_assignment (line_clean : str) : bool :=
  existsb (fun p => found p line_clean) incomplete_patterns.

Definition _fix_incomplete_assignment (line : str) : str :=
  let line_clean := strip line in
  if endswith line_clean (Str "=") then rstrip line ++ Str " 1'b0;"
  else if endswith line_clean (Str "<=") then rstrip line ++ Str " 1'b0;"
  else if endswith line_clean (Str "?") then rstrip line ++ Str " 1'b1 : 1'b0;"
  else if endswith line_clean (Str ":") then rstrip line ++ Str " 1'b0;"
  else line.

(** The [for assign_stmt in multiple_assigns] loop. *)
Fixpoint append_fixed (stmts : list str) (fixed_lines : list str) : list str :=
  match stmts with
  | [] => fixed_lines
  | assign_stmt :: rest =>
      let fixed_assign := _fix_assign_statement assign_stmt in
      append_fixed rest
        (if negb (is_empty (strip fixed_assign))
         then fixed_lines ++ [fixed_assign] else fixed_lines)
  end.

(** The [while i < len(rtl_lines)] loop of [fix_assign_statements].  The
    index moves by [lines_consumed] on an assign line, so the loop takes
    fuel; [None] when the fuel runs out. *)
Fixpoint fix_loop (fuel : nat) (rtl_lines : list str) (i : nat)
    (self : t) (fixed_lines : list str) : option (list str * t) :=
  match rtl_lines !! i with
  | None => Some (fixed_lines, self)
  | Some line =>
      match fuel with
      | 0 => None
      | S fuel' =>
          let line_clean := strip line in
          if _is_assign_start line_clean then
            let '(complete_assign, lines_consumed) :=
              _collect_complete_assign rtl_lines i in
            let self :=
              if 1 <? lines_consumed
              then Self (fixed_count self) (merged_count self + 1) else self in
            let multiple_assigns := _split_multiple_assigns complete_assign in
            if 1 <? length multiple_assigns then
              let self := Self (fixed_count self + 1) (merged_count self) in
              fix_loop fuel' rtl_lines (i + lines_consumed) self
                (append_fixed multiple_assigns fixed_lines)
            else
              let fixed_assign := _fix_assign_statement complete_assign in
              let self :=
                if negb (str_eqb fixed_assign complete_assign)
                then Self (fixed_count self + 1) (merged_count self) else self in
              fix_loop fuel' rtl_lines (i + lines_consumed) self
                (if negb (is_empty (strip fixed_assign))
                 then fixed_lines ++ [fixed_assign] else fixed_lines)
          else if _is_orphan_ternary_part line_clean then
            match last fixed_lines with
            | Some prev_line =>
                if _can_merge_with_previous prev_line line then
                  let merged_line := _merge_ternary_lines prev_line line in
                  fix_loop fuel' rtl_lines (i + 1)
                    (Self (fixed_count self + 1) (merged_count self))
                    (removelast fixed_lines ++ [merged_line])
                else fix_loop fuel' rtl_lines (i + 1) self (fixed_lines ++ [line])
            | None => fix_loop fuel' rtl_lines (i + 1) self (fixed_lines ++ [line])
            end
          else if _is_incomplete_assignment line_clean then
            let fixed_line := _fix_incomplete_assignment line in
            fix_loop fuel' rtl_lines (i + 1)
              (if negb (str_eqb fixed_line line)
               then Self (fixed_count self + 1) (merged_count self) else self)
              (fixed_lines ++ [fixed_line])
          else fix_loop fuel' rtl_lines (i + 1) self (fixed_lines ++ [line])
      end
  end.

(** [fix_assign_statements]: both counters are set to zero first. *)
Definition fix_assign_statements (self : t) (rtl_lines : list str)
    : option (list str * t) :=
  let self := Self 0 0 in
  fix_loop (length rtl_lines) rtl_lines 0 self [].

Definition get_summary (self : t) : str :=
  if (0 <? fixed_count self) || (0 <? merged_count self) then
    Str "Assign patch: fixed " ++ str_of_nat (fixed_count self)
    ++ Str " issues, merged " ++ str_of_nat (merged_count self)
    ++ Str " multi-line assigns"
  else Str "Assign patch: no changes needed".

End AssignStatementPatcher.

(* ===================================================================== *)
(** * case_statement_patcher.py *)
(* ===================================================================== *)

Module CaseStatementPatcher.

Import Re.

(** An entry of [self.case_stack]. *)
Record case_info := CaseInfo {
  line_num : nat;
  indent : str;
  found_endcase : bool
}.

(** The instance attributes.  [case_stack] is kept with its top (the end
    of the Python list) at the head. *)
Record t := Self {
  case_stack : list case_info;
  fixed_count : nat;
  removed_count : nat
}.

Definition new : t := Self [] 0 0.

(** A [{"start": ..., "end": ...}] dictionary. *)
Record case_struct := CaseStruct { start : nat; end_ : nat }.

Definition _get_indent (line : str) : str :=
  take_while (fun ch => Char.eqb ch " " || Char.eqb ch Char.tab) line.

(** The pattern "\bcase\s*\(". *)
Definition case_open_pattern : regex :=
  Seq [WordB; Lit "case"; Star CSpace; Lit "("].

(** [check_line == "endcase" or check_line.startswith("endcase")]. *)
Definition is_endcase_line (line_clean : str) : bool :=
  str_eqb line_clean (Str "endcase") || startswith line_clean (Str "endcase").

(** The inner [while j < len(rtl_lines)] loop of
    [_identify_case_structures], over the lines from index [j] on. *)
Fixpoint find_endcase (rest : list str) (j : nat) : option nat :=
  match rest with
  | [] => None
  | l :: rest' =>
      if is_endcase_line (strip l) then Some j else find_endcase rest' (j + 1)
  end.

(** The outer loop of [_identify_case_structures]; the index jumps past a
    region that was found, so the loop takes fuel. *)
Fixpoint identify_loop (fuel : nat) (rtl_lines : list str) (i : nat)
    (case_structures : list case_struct) : option (list case_struct) :=
  match rtl_lines !! i with
  | None => Some case_structures
  | Some l =>
      match fuel with
      | 0 => None
      | S fuel' =>
          let line := strip l in
          if found case_open_pattern line then
            match find_endcase (drop (i + 1) rtl_lines) (i + 1) with
            | Some case_end =>
                identify_loop fuel' rtl_lines (case_end + 1)
                  (case_structures ++ [CaseStruct i case_end])
            | None => identify_loop fuel' rtl_lines (i + 1) case_structures
            end
          else identify_loop fuel' rtl_lines (i + 1) case_structures
      end
  end.

Definition _identify_case_structures (rtl_lines : list str)
    : option (list case_struct) :=
  identify_loop (length rtl_lines) rtl_lines 0 [].

(** The pattern "\s*\{[^}]+\}\s*:\s*$". *)
Definition brace_label_pattern : regex :=
  Seq [Star CSpace; Lit "{"; Plus (CNoneOf (Str "}")); Lit "}"; Star CSpace;
       Lit ":"; Star CSpace; Eol].

(** The [for i in range(start_idx + 1, end_idx)] loop of
    [_is_empty_case_structure]. *)
Fixpoint empty_loop (rtl_lines : list str) (idxs : list nat) : bool :=
  match idxs with
  | [] => true
  | i :: rest =>
      match rtl_lines !! i with
      | None => empty_loop rtl_lines rest
      | Some l =>
          let line := strip l in
          if is_empty line || startswith line (Str "//") then
            empty_loop rtl_lines rest
          else if startswith line (Str "default:")
                  || matches brace_label_pattern line then
            empty_loop rtl_lines rest
          else if contains (Str "=") line
                  || existsb (fun keyword => contains keyword line)
                       [Str "begin"; Str "if"; Str "for"; Str "while"] then
            false
          else empty_loop rtl_lines rest
      end
  end.

Definition _is_empty_case_structure (rtl_lines : list str) (cs : case_struct)
    : bool :=
  empty_loop rtl_lines (range (start cs + 1) (end_ cs)).

(** [ranges.sort(key=lambda x: x[0], reverse=True)]: a stable sort on the
    start index, largest first. *)
Fixpoint insert_desc (x : nat * nat) (l : list (nat * nat)) : list (nat * nat) :=
  match l with
  | [] => [x]
  | y :: l' => if y.1 <? x.1 then x :: l else y :: insert_desc x l'
  end.

Definition sort_desc (l : list (nat * nat)) : list (nat * nat) :=
  foldl (fun acc x => insert_desc x acc) [] l.

(** [del filtered[start_idx : end_idx + 1]] for each range in turn. *)
Fixpoint delete_ranges (ranges : list (nat * nat)) (filtered : list str)
    : list str :=
  match ranges with
  | [] => filtered
  | (start_idx, end_idx) :: rest =>
      delete_ranges rest (take start_idx filtered ++ drop (end_idx + 1) filtered)
  end.

Definition _remove_empty_case_blocks (self : t) (rtl_lines : list str)
    : option (list str * t) :=
  match _identify_case_structures rtl_lines with
  | None => None
  | Some case_structures =>
      let empty :=
        filter (fun cs => _is_empty_case_structure rtl_lines cs = true)
          case_structures in
      let empty_case_ranges := map (fun cs => (start cs, end_ cs)) empty in
      let self :=
        Self (case_stack self) (fixed_count self)
          (removed_count self + length empty_case_ranges) in
      match empty_case_ranges with
      | [] => Some (rtl_lines, self)
      | _ => Some (delete_ranges (sort_desc empty_case_ranges) rtl_lines, self)
      end
  end.

Definition check_keywords : list str :=
  [Str "always"; Str "assign"; Str "wire "; Str "reg "; Str "input ";
   Str "output "; Str "module "; Str "endmodule"; Str "begin"; Str "end";
   Str "if "; Str "else"].

Definition _should_check_for_missing_endcase (line_clean : str) : bool :=
  startswith_any line_clean check_keywords.

(** The [while self.case_stack] loop of [_check_missing_endcases]: the
    indents of the popped entries, and the stack that is left. *)
Fixpoint check_loop (line_indent : str) (stack : list case_info)
    : list str * list case_info :=
  match stack with
  | [] => ([], [])
  | case_info :: below =>
      if negb (found_endcase case_info) then
        if length line_indent <=? length (indent case_info) then
          let '(more, remaining) := check_loop line_indent below in
          (indent case_info :: more, remaining)
        else ([], stack)
      else ([], stack)
  end.

Definition _check_missing_endcases (self : t) (line : str) : list str * t :=
  let line_indent := _get_indent line in
  let '(missing_endcases, remaining) := check_loop line_indent (case_stack self) in
  (missing_endcases, Self remaining (fixed_count self) (removed_count self)).

(** The main [while i < len(rtl_lines)] loop of [_fix_missing_endcase];
    every iteration ends with [i += 1]. *)
Fixpoint endcase_loop (rest : list str) (i : nat) (self : t)
    (fixed_lines : list str) : list str * t :=
  match rest with
  | [] => (fixed_lines, self)
  | line :: rest' =>
      let line_clean := strip line in
      if found case_open_pattern line_clean then
        endcase_loop rest' (i + 1)
          (Self (CaseInfo i (_get_indent line) false :: case_stack self)
             (fixed_count self) (removed_count self))
          (fixed_lines ++ [line])
      else if is_endcase_line line_clean then
        endcase_loop rest' (i + 1)
          (Self (tail (case_stack self)) (fixed_count self) (removed_count self))
          (fixed_lines ++ [line])
      else if _should_check_for_missing_endcase line_clean
              && negb (bool_decide (case_stack self = [])) then
        let '(missing_endcases, self) := _check_missing_endcases self line in
        endcase_loop rest' (i + 1)
          (Self (case_stack self)
             (fixed_count self + length missing_endcases) (removed_count self))
          (fixed_lines
             ++ map (fun endcase_indent => endcase_indent ++ Str "endcase")
                  missing_endcases
             ++ [line])
      else endcase_loop rest' (i + 1) self (fixed_lines ++ [line])
  end.

(** The closing [while self.case_stack] loop of [_fix_missing_endcase]. *)
Fixpoint close_loop (stack : list case_info) (fixed_count : nat)
    (fixed_lines : list str) : list str * nat :=
  match stack with
  | [] => (fixed_lines, fixed_count)
  | case_info :: below =>
      if negb (found_endcase case_info) then
        close_loop below (fixed_count + 1)
          (fixed_lines ++ [indent case_info ++ Str "endcase"])
      else close_loop below fixed_count fixed_lines
  end.

Definition _fix_missing_endcase (self : t) (rtl_lines : list str) : list str * t :=
  let self := Self [] (fixed_count self) (removed_count self) in
  let '(fixed_lines, self) := endcase_loop rtl_lines 0 self [] in
  let '(fixed_lines, n) :=
    close_loop (case_stack self) (fixed_count self) fixed_lines in
  (fixed_lines, Self [] n (removed_count self)).

Definition fix_case_statements (self : t) (rtl_lines : list str)
    : option (list str * t) :=
  let self := Self (case_stack self) 0 0 in
  match _remove_empty_case_blocks self rtl_lines with
  | None => None
  | Some (cleaned, self) => Some (_fix_missing_endcase self cleaned)
  end.

Definition get_summary (self : t) : str :=
  let summary_parts :=
    (if 0 <? removed_count self
     then [Str "removed " ++ str_of_nat (removed_count self)
           ++ Str " empty case blocks"] else [])
    ++ (if 0 <? fixed_count self
        then [Str "inserted " ++ str_of_nat (fixed_count self)
              ++ Str " missing 'endcase'"] else []) in
  match summary_parts with
  | [] => Str "Case patch: no changes needed"
  | _ => Str "Case patch: " ++ join (Str ", ") summary_parts
  end.

End CaseStatementPatcher.

(* ===================================================================== *)
(** * if_else_patcher.py *)
(* ===================================================================== *)

Module IfElsePatcher.

Import Re.

(** The instance attributes. *)
Record t := Self { fixed_count : nat }.

Definition new : t := Self 0.

(** An entry of [active_ifs]. *)
Record if_ctx := IfCtx {
  line : nat;
  indent : nat;
  block_end : nat;
  has_else : bool
}.

(** A value of the [pairs] dictionary. *)
Record pair_info := PairInfo {
  has_matching_if : bool;
  if_line : option nat
}.

Definition _get_indent (line : str) : str :=
  take_while (fun char => Char.eqb char " " || Char.eqb char Char.tab) line.

(** The pattern "\bif\s*\(". *)
Definition if_pattern : regex := Seq [WordB; Lit "if"; Star CSpace; Lit "("].

(** The pattern "\belse\s+if\s*\(". *)
Definition else_if_pattern : regex :=
  Seq [WordB; Lit "else"; Plus CSpace; Lit "if"; Star CSpace; Lit "("].

(** The patterns "\belse\s*$" and "\belse\s+begin". *)
Definition else_patterns : list regex :=
  [Seq [WordB; Lit "else"; Star CSpace; Eol];
   Seq [WordB; Lit "else"; Plus CSpace; Lit "begin"]].

Definition _is_if_statement (line_clean : str) : bool :=
  found if_pattern line_clean && negb (startswith line_clean (Str "else")).

Definition _is_else_if_statement (line_clean : str) : bool :=
  found else_if_pattern line_clean.

Definition _is_else_statement (line_clean : str) : bool :=
  if contains (Str "else if") line_clean then false
  else existsb (fun pattern => found pattern line_clean) else_patterns.

Definition _convert_else_if_to_if (line : str) : str :=
  sub else_if_pattern (Str "if (") line.

Definition is_begin_line (check_line : str) : bool :=
  str_eqb check_line (Str "begin") || endswith check_line (Str "begin").

Definition is_end_line (check_line : str) : bool :=
  str_eqb check_line (Str "end") || startswith check_line (Str "end").

(** The first [for] loop of [_find_if_block_end]: [Some i] when a [begin]
    line was found at [i] ([has_begin], with [search_start = i]). *)
Fixpoint find_begin (rtl_lines : list str) (idxs : list nat) : option nat :=
  match idxs with
  | [] => None
  | i :: rest =>
      let check_line := strip (getitem rtl_lines i) in
      if is_begin_line check_line then Some i
      else if negb (is_empty check_line) && negb (startswith check_line (Str "//"))
      then None
      else find_begin rtl_lines rest
  end.

(** The depth-counting [for] loop: the index of the [end] that brings the
    depth back to zero. *)
Fixpoint match_end (rtl_lines : list str) (idxs : list nat) (depth : nat)
    : option nat :=
  match idxs with
  | [] => None
  | i :: rest =>
      let check_line := strip (getitem rtl_lines i) in
      if is_begin_line check_line then match_end rtl_lines rest (depth + 1)
      else if is_end_line check_line then
        if depth - 1 =? 0 then Some i else match_end rtl_lines rest (depth - 1)
      else match_end rtl_lines rest depth
  end.

(** The last [for] loop: the first line with a semicolon. *)
Fixpoint find_semicolon (rtl_lines : list str) (idxs : list nat) : option nat :=
  match idxs with
  | [] => None
  | i :: rest =>
      if contains (Str ";") (getitem rtl_lines i) then Some i
      else find_semicolon rtl_lines rest
  end.

Definition _find_if_block_end (rtl_lines : list str) (if_idx : nat) : nat :=
  let len := length rtl_lines in
  match find_begin rtl_lines (range (if_idx + 1) (Nat.min (if_idx + 5) len)) with
  | Some search_start =>
      match match_end rtl_lines (range (search_start + 1) len) 1 with
      | Some i => i
      | None => len - 1
      end
  | None =>
      match find_semicolon rtl_lines
              (range (if_idx + 1) (Nat.min (if_idx + 10) len)) with
      | Some i => i
      | None => Nat.min (if_idx + 3) (len - 1)
      end
  end.

Definition else_can_claim (if_ctx : if_ctx) (else_indent else_line : nat) : bool :=
  (indent if_ctx =? else_indent)
  && ((block_end if_ctx <? else_line) && (else_line <=? block_end if_ctx + 5))
  && negb (has_else if_ctx).

(** [_find_matching_if_for_else]: the source returns the context object
    itself, which the caller then marks; here it is the position in
    [active_ifs] of that object.  [for if_ctx in reversed(active_ifs)]
    takes the last context that qualifies; [k] is the position of the head
    of the list. *)
Fixpoint find_matching_from (active_ifs : list if_ctx) (k : nat)
    (else_indent else_line : nat) : option nat :=
  match active_ifs with
  | [] => None
  | if_ctx :: rest =>
      match find_matching_from rest (S k) else_indent else_line with
      | Some j => Some j
      | None => if else_can_claim if_ctx else_indent else_line then Some k else None
      end
  end.

Definition _find_matching_if_for_else (active_ifs : list if_ctx)
    (else_indent else_line : nat) : option nat :=
  find_matching_from active_ifs 0 else_indent else_line.

(** [matching_if["has_else"] = True] on the context at position [k]. *)
Definition mark_has_else (active_ifs : list if_ctx) (k : nat) : list if_ctx :=
  match active_ifs !! k with
  | Some c => <[k := IfCtx (line c) (indent c) (block_end c) true]> active_ifs
  | None => active_ifs
  end.

Definition line_of (active_ifs : list if_ctx) (k : nat) : option nat :=
  line <$> active_ifs !! k.

(** The [while i < len(rtl_lines)] loop of [_analyze_if_else_pairing];
    every path ends with [i += 1]. *)
Fixpoint analyze_loop (rtl_lines rest : list str) (i : nat)
    (pairs : gmap nat pair_info) (active_ifs : list if_ctx)
    : gmap nat pair_info :=
  match rest with
  | [] => pairs
  | l :: rest' =>
      let line_clean := strip l in
      let indent := length (_get_indent l) in
      if is_empty line_clean || startswith line_clean (Str "//") then
        analyze_loop rtl_lines rest' (i + 1) pairs active_ifs
      else if _is_if_statement line_clean then
        let block_end := _find_if_block_end rtl_lines i in
        analyze_loop rtl_lines rest' (i + 1) pairs
          (active_ifs ++ [IfCtx i indent block_end false])
      else if _is_else_if_statement line_clean then
        match _find_matching_if_for_else active_ifs indent i with
        | Some k =>
            let pairs := <[i := PairInfo true (line_of active_ifs k)]> pairs in
            let active_ifs := mark_has_else active_ifs k in
            let block_end := _find_if_block_end rtl_lines i in
            analyze_loop rtl_lines rest' (i + 1) pairs
              (active_ifs ++ [IfCtx i indent block_end false])
        | None =>
            analyze_loop rtl_lines rest' (i + 1)
              (<[i := PairInfo false None]> pairs) active_ifs
        end
      else if _is_else_statement line_clean then
        match _find_matching_if_for_else active_ifs indent i with
        | Some k =>
            analyze_loop rtl_lines rest' (i + 1)
              (<[i := PairInfo true (line_of active_ifs k)]> pairs)
              (mark_has_else active_ifs k)
        | None =>
            analyze_loop rtl_lines rest' (i + 1)
              (<[i := PairInfo false None]> pairs) active_ifs
        end
      else
        analyze_loop rtl_lines rest' (i + 1) pairs
          (filter (fun ctx => i ≤ block_end ctx) active_ifs)
  end.

Definition _analyze_if_else_pairing (rtl_lines : list str) : gmap nat pair_info :=
  analyze_loop rtl_lines rtl_lines 0 ∅ [].

(** [i in pairs and pairs[i]["has_matching_if"]]. *)
Definition is_paired (pairs : gmap nat pair_info) (i : nat) : bool :=
  match pairs !! i with
  | Some p => has_matching_if p
  | None => false
  end.

(** The [for i, line in enumerate(rtl_lines)] loop of
    [fix_if_else_statements]. *)
Fixpoint rewrite_loop (pairs : gmap nat pair_info) (rest : list str) (i : nat)
    (self : t) (fixed_lines : list str) : list str * t :=
  match rest with
  | [] => (fixed_lines, self)
  | l :: rest' =>
      let line_clean := strip l in
      if _is_else_statement line_clean || _is_else_if_statement line_clean then
        if is_paired pairs i then
          rewrite_loop pairs rest' (i + 1) self (fixed_lines ++ [l])
        else if _is_else_if_statement line_clean then
          let fixed_line := _convert_else_if_to_if l in
          rewrite_loop pairs rest' (i + 1) (Self (fixed_count self + 1))
            (fixed_lines ++ [fixed_line])
        else rewrite_loop pairs rest' (i + 1) self fixed_lines
      else rewrite_loop pairs rest' (i + 1) self (fixed_lines ++ [l])
  end.

Definition fix_if_else_statements (self : t) (rtl_lines : list str)
    : list str * t :=
  let self := Self 0 in
  let pairs := _analyze_if_else_pairing rtl_lines in
  rewrite_loop pairs rtl_lines 0 self [].

Definition get_summary (self : t) : str :=
  if 0 <? fixed_count self then
    Str "If-else patch: fixed " ++ str_of_nat (fixed_count self) ++ Str " statements"
  else Str "If-else patch: no changes needed".

End IfElsePatcher.

(* ===================================================================== *)
(** * always_block_patcher.py *)
(* ===================================================================== *)

Module AlwaysBlockPatcher.

Import Re.

(** The counters of an instance.  The orchestrator builds the patcher
    without a source file, and [fix_always_blocks] reads none of the
    source-file attributes. *)
Record t := Self {
  fixes_made : nat;
  incomplete_blocks_fixed : nat;
  orphan_begin_blocks_fixed : nat
}.

Definition new : t := Self 0 0 0.

Definition _get_indent (line : str) : str :=
  take (length line - length (lstrip line)) line.

(** The combinational sensitivity list, an at sign and a parenthesised
    star, spelled in three pieces. *)
Definition at_star : str := Str "@(" ++ Str "*" ++ Str ")".

(** The patterns "\balways\s*$", "\balways\s*\(\s*\)$", "\balways\s*@\s*$"
    and "\balways\s*@\s*\(\s*\)$". *)
Definition always_bare : regex := Seq [WordB; Lit "always"; Star CSpace; Eol].
Definition always_parens : regex :=
  Seq [WordB; Lit "always"; Star CSpace; Lit "("; Star CSpace; Lit ")"; Eol].
Definition always_at : regex :=
  Seq [WordB; Lit "always"; Star CSpace; Lit "@"; Star CSpace; Eol].
Definition always_at_parens : regex :=
  Seq [WordB; Lit "always"; Star CSpace; Lit "@"; Star CSpace;
       Lit "("; Star CSpace; Lit ")"; Eol].

Definition _is_incomplete_always_block (line_clean : str) : bool :=
  existsb (fun pattern => found pattern line_clean)
    [always_bare; always_parens; always_at; always_at_parens].

(** The pattern "input.*?" followed by group 1, "\w*clk\w*". *)
Definition input_clk_pattern : regex :=
  Seq [Lit "input"; StarLazy CDot;
       Group 1 (Seq [Star CWord; Lit "clk"; Star CWord])].

(** The first loop of [_detect_clock_signal], over [rtl_lines[:50]]. *)
Fixpoint clock_from_inputs (lines : list str) : option str :=
  match lines with
  | [] => None
  | l :: rest =>
      let line_clean := lower (strip l) in
      if contains (Str "input") line_clean
         && (contains (Str "clk") line_clean || contains (Str "clock") line_clean)
      then
        match search input_clk_pattern line_clean with
        | Some m => Some (group line_clean m 1)
        | None => clock_from_inputs rest
        end
      else clock_from_inputs rest
  end.

(** The loops over [common_clocks] and [rtl_lines[:100]]. *)
Fixpoint clock_from_edges (clocks : list str) (lines : list str) : option str :=
  match clocks with
  | [] => None
  | clock :: rest =>
      if existsb
           (fun l => contains (Str "posedge " ++ clock) l
                     || contains (Str "negedge " ++ clock) l)
           lines
      then Some clock
      else clock_from_edges rest lines
  end.

Definition _detect_clock_signal (rtl_lines : list str) : str :=
  match clock_from_inputs (take 50 rtl_lines) with
  | Some c => c
  | None =>
      match clock_from_edges [Str "clk"; Str "clock"; Str "aclk"; Str "pclk"]
              (take 100 rtl_lines) with
      | Some c => c
      | None => Str "clk"
      end
  end.

Definition _has_sequential_logic_nearby (rtl_lines : list str) (line_idx : nat)
    : bool :=
  let start := line_idx - 5 in
  let end_ := Nat.min (length rtl_lines) (line_idx + 5) in
  existsb
    (fun i =>
       contains (Str "<=") (getitem rtl_lines i)
       && negb (startswith (strip (getitem rtl_lines i)) (Str "//")))
    (range start end_).

Definition _fix_incomplete_always_block (line : str) (rtl_lines : list str)
    (line_idx : nat) : str :=
  let line_clean := strip line in
  let indent := _get_indent line in
  let clock_signal := _detect_clock_signal rtl_lines in
  let has_seq := _has_sequential_logic_nearby rtl_lines line_idx in
  let sequential :=
    indent ++ Str "always @(posedge " ++ clock_signal ++ Str ") begin" ++ nl in
  let combinational := indent ++ Str "always " ++ at_star ++ Str " begin" ++ nl in
  if found always_bare line_clean then
    if has_seq && negb (is_empty clock_signal) then sequential else combinational
  else if found always_parens line_clean then
    replace line (Str "always ()") (Str "always " ++ at_star)
  else if found always_at line_clean then
    if has_seq && negb (is_empty clock_signal) then sequential else combinational
  else if found always_at_parens line_clean then
    replace line (Str "always @()") (Str "always " ++ at_star)
  else if has_seq && negb (is_empty clock_signal) then sequential
  else line.

(** The [while i < len(rtl_lines)] loop of [fix_always_blocks]; every
    iteration ends with [i += 1]. *)
Fixpoint fix_loop (rtl_lines rest : list str) (i : nat) (self : t)
    (fixed_lines : list str) : list str * t :=
  match rest with
  | [] => (fixed_lines, self)
  | line :: rest' =>
      let line_clean := strip line in
      if _is_incomplete_always_block line_clean then
        let fixed_line := _fix_incomplete_always_block line rtl_lines i in
        fix_loop rtl_lines rest' (i + 1)
          (Self (fixes_made self) (incomplete_blocks_fixed self + 1)
             (orphan_begin_blocks_fixed self))
          (fixed_lines ++ [fixed_line])
      else fix_loop rtl_lines rest' (i + 1) self (fixed_lines ++ [line])
  end.

(** [fix_always_blocks]: the counters are not set to zero here. *)
Definition fix_always_blocks (self : t) (rtl_lines : list str) : list str * t :=
  fix_loop rtl_lines rtl_lines 0 self [].

Definition get_summary (self : t) : str :=
  if 0 <? incomplete_blocks_fixed self then
    Str "Always patch: fixed " ++ str_of_nat (incomplete_blocks_fixed self)
    ++ Str " incomplete always blocks"
  else Str "Always patch: no changes needed".

End AlwaysBlockPatcher.

(* ===================================================================== *)
(** * generate_block_patcher.py *)
(* ===================================================================== *)

Module GenerateBlockPatcher.

Import Re.

(** The instance attributes. *)
Record t := Self {
  fixes_made : nat;
  orphan_blocks_fixed : nat;
  missing_genvar_added : nat
}.

Definition new : t := Self 0 0 0.

(** The dictionary [_collect_single_block] returns. *)
Record block_info := BlockInfo {
  label : str;
  start_idx : nat;
  end_idx : nat;
  content_lines : list str
}.

(** The dictionary [_collect_orphan_blocks] returns. *)
Record blocks_info := BlocksInfo {
  blocks : list block_info;
  group_start_idx : nat;
  group_end_idx : nat;
  needs_genvar : bool
}.

Definition _get_indent (line : str) : str :=
  take (length line - length (lstrip line)) line.

(** The pattern "^\s*begin\s*:\s*\w+\s*$"; in [_collect_single_block] the
    label "\w+" is group 1. *)
Definition labeled_begin_pattern : regex :=
  Seq [Bol; Star CSpace; Lit "begin"; Star CSpace; Lit ":"; Star CSpace;
       Group 1 (Plus CWord); Star CSpace; Eol].

Definition _is_orphan_generate_block (line_clean : str) : bool :=
  matches labeled_begin_pattern line_clean.

(** The pattern "^\s*end\s*;?\s*$". *)
Definition bare_end_pattern : regex :=
  Seq [Bol; Star CSpace; Lit "end"; Star CSpace; Opt (CChar ";"); Star CSpace; Eol].

(** The [while] loop of [_collect_single_block] over the lines from
    [current_idx] on: the index at which the block stops. *)
Fixpoint block_scan (rest : list str) (current_idx : nat) : nat :=
  match rest with
  | [] => current_idx
  | l :: rest' =>
      let line_clean := strip l in
      if _is_orphan_generate_block line_clean then current_idx
      else if startswith_any line_clean
                [Str "endmodule"; Str "module "; Str "always"; Str "assign"]
              || matches bare_end_pattern line_clean
      then current_idx
      else block_scan rest' (current_idx + 1)
  end.

Definition _collect_single_block (rtl_lines : list str) (start_idx : nat)
    : option block_info :=
  match rtl_lines !! start_idx with
  | None => None
  | Some l =>
      let start_line := strip l in
      match match_ labeled_begin_pattern start_line with
      | None => None
      | Some label_match =>
          let label := group start_line label_match 1 in
          let current_idx :=
            block_scan (drop (start_idx + 1) rtl_lines) (start_idx + 1) in
          Some (BlockInfo label start_idx (current_idx - 1)
                  (slice rtl_lines start_idx current_idx))
      end
  end.

(** The pattern "\[[IiJjKk]\]|\[idx\]|\[index\]". *)
Definition index_use_pattern : regex :=
  Alt (Seq [Lit "["; One (COneOf (Str "IiJjKk")); Lit "]"])
      (Alt (Lit "[idx]") (Lit "[index]")).

Definition _block_needs_genvar (block_info : block_info) (rtl_lines : list str)
    : bool :=
  existsb
    (fun i =>
       match rtl_lines !! i with
       | Some line => found index_use_pattern line
       | None => false
       end)
    (range (start_idx block_info) (end_idx block_info + 1)).

(** The [while current_idx < len(rtl_lines)] loop of
    [_collect_orphan_blocks]; the index jumps past each block, so the loop
    takes fuel. *)
Fixpoint orphan_loop (fuel : nat) (rtl_lines : list str) (current_idx : nat)
    (blocks : list block_info) (genvar_needed : bool)
    : option (list block_info * nat * bool) :=
  match rtl_lines !! current_idx with
  | None => Some (blocks, current_idx, genvar_needed)
  | Some line =>
      match fuel with
      | 0 => None
      | S fuel' =>
          if _is_orphan_generate_block (strip line) then
            match _collect_single_block rtl_lines current_idx with
            | Some block_info =>
                orphan_loop fuel' rtl_lines (end_idx block_info + 1)
                  (blocks ++ [block_info])
                  (genvar_needed || _block_needs_genvar block_info rtl_lines)
            | None => Some (blocks, current_idx, genvar_needed)
            end
          else Some (blocks, current_idx, genvar_needed)
      end
  end.

Definition _collect_orphan_blocks (rtl_lines : list str) (start_idx : nat)
    : option blocks_info :=
  match orphan_loop (length rtl_lines) rtl_lines start_idx [] false with
  | None => None
  | Some (blocks, current_idx, genvar_needed) =>
      Some (BlocksInfo blocks start_idx
              (match blocks with [] => start_idx | _ => current_idx - 1 end)
              genvar_needed)
  end.

(** The pattern "parameter\s+(\w+)\s*=\s*(\d+)". *)
Definition parameter_pattern : regex :=
  Seq [Lit "parameter"; Plus CSpace; Group 1 (Plus CWord); Star CSpace;
       Lit "="; Star CSpace; Group 2 (Plus CDigit)].

(** The loop of [_infer_generate_loop_range] over [rtl_lines[:100]]. *)
Fixpoint range_from_parameters (lines : list str) : option str :=
  match lines with
  | [] => None
  | line :: rest =>
      let line_clean := strip line in
      match search parameter_pattern line_clean with
      | Some param_match =>
          let param_name := group line_clean param_match 1 in
          if existsb (fun keyword => contains keyword (lower param_name))
               [Str "width"; Str "size"; Str "num"; Str "count"]
          then Some param_name
          else range_from_parameters rest
      | None => range_from_parameters rest
      end
  end.

Definition _infer_generate_loop_range (blocks_info : blocks_info)
    (rtl_lines : list str) : str :=
  match range_from_parameters (take 100 rtl_lines) with
  | Some param_name => param_name
  | None => Str "8"
  end.

(** The lines of one block, each with two more spaces in front. *)
Definition indented_block (rtl_lines : list str) (block : block_info) : list str :=
  flat_map
    (fun i =>
       match rtl_lines !! i with
       | Some original_line => [Str "  " ++ original_line]
       | None => []
       end)
    (range (start_idx block) (end_idx block + 1)).

Definition _wrap_with_generate (self : t) (blocks_info : blocks_info)
    (rtl_lines : list str) : list str * t :=
  let base_indent := _get_indent (getitem rtl_lines (group_start_idx blocks_info)) in
  let genvar := needs_genvar blocks_info in
  let wrapped_lines :=
    (if genvar then [base_indent ++ Line "genvar I;"] else [])
    ++ [base_indent ++ Line "generate"]
    ++ (if genvar then
          [base_indent ++ Str "  for (I = 0; I < "
           ++ _infer_generate_loop_range blocks_info rtl_lines
           ++ Line "; I = I + 1) begin"]
        else [])
    ++ flat_map (indented_block rtl_lines) (blocks blocks_info)
    ++ (if genvar then [base_indent ++ Line "  end"] else [])
    ++ [base_indent ++ Line "endgenerate"] in
  (wrapped_lines,
   if genvar
   then Self (fixes_made self) (orphan_blocks_fixed self) (missing_genvar_added self + 1)
   else self).

(** The [while i < len(rtl_lines)] loop of [fix_generate_blocks]; the index
    jumps past a wrapped group, so the loop takes fuel. *)
Fixpoint fix_loop (fuel : nat) (rtl_lines : list str) (i : nat) (self : t)
    (fixed_lines : list str) : option (list str * t) :=
  match rtl_lines !! i with
  | None => Some (fixed_lines, self)
  | Some line =>
      match fuel with
      | 0 => None
      | S fuel' =>
          let line_clean := strip line in
          if _is_orphan_generate_block line_clean then
            match _collect_orphan_blocks rtl_lines i with
            | None => None
            | Some blocks_info =>
                match blocks blocks_info with
                | [] => fix_loop fuel' rtl_lines (i + 1) self (fixed_lines ++ [line])
                | _ =>
                    let '(wrapped_lines, self) :=
                      _wrap_with_generate self blocks_info rtl_lines in
                    fix_loop fuel' rtl_lines (group_end_idx blocks_info + 1)
                      (Self (fixes_made self)
                         (orphan_blocks_fixed self + length (blocks blocks_info))
                         (missing_genvar_added self))
                      (fixed_lines ++ wrapped_lines)
                end
            end
          else fix_loop fuel' rtl_lines (i + 1) self (fixed_lines ++ [line])
      end
  end.

(** [fix_generate_blocks]: the counters are not set to zero here. *)
Definition fix_generate_blocks (self : t) (rtl_lines : list str)
    : option (list str * t) :=
  fix_loop (length rtl_lines) rtl_lines 0 self [].

Definition get_summary (self : t) : str :=
  let summary_parts :=
    (if 0 <? orphan_blocks_fixed self
     then [Str "wrapped " ++ str_of_nat (orphan_blocks_fixed self)
           ++ Str " orphan blocks"] else [])
    ++ (if 0 <? missing_genvar_added self
        then [Str "added " ++ str_of_nat (missing_genvar_added self)
              ++ Str " genvar declarations"] else []) in
  match summary_parts with
  | [] => Str "Generate patch: no changes needed"
  | _ => Str "Generate patch: " ++ join (Str ", ") summary_parts
  end.

End GenerateBlockPatcher.

(* ===================================================================== *)
(** * syntax_error_patcher.py *)
(* ===================================================================== *)

Module SyntaxErrorPatcher.

Import Re.

(** The instance attributes: one patcher of each kind and the total. *)
Record t := Self {
  case_patcher : CaseStatementPatcher.t;
  if_else_patcher : IfElsePatcher.t;
  always_patcher : AlwaysBlockPatcher.t;
  assign_patcher : AssignStatementPatcher.t;
  generate_patcher : GenerateBlockPatcher.t;
  total_fixes : nat
}.

Definition new : t :=
  Self CaseStatementPatcher.new IfElsePatcher.new AlwaysBlockPatcher.new
    AssignStatementPatcher.new GenerateBlockPatcher.new 0.

Definition _get_indent (line : str) : str :=
  take (length line - length (lstrip line)) line.

(** The pattern "fixed\s*(\d+)". *)
Definition fixed_pattern : regex :=
  Seq [Lit "fixed"; Star CSpace; Group 1 (Plus CDigit)].

(** [_update_stats]: the new value of [self.total_fixes]. *)
Definition _update_stats (total_fixes : nat) (summary : str) : nat :=
  if negb (is_empty summary) && contains (Str "fixed") summary then
    match search fixed_pattern summary with
    | Some m => total_fixes + int_of_str (group summary m 1)
    | None => total_fixes
    end
  else total_fixes.

(** The pattern "^\s*[...]\s*$" for a set of operator characters. *)
Definition lone (ops : string) : regex :=
  Seq [Bol; Star CSpace; One (COneOf (Str ops)); Star CSpace; Eol].

Definition orphan_patterns : list regex :=
  [lone "&|^~"; lone "+-*/"; lone "<>=!"; lone "{}"; lone ":"; lone "?"].

Definition _is_obvious_orphan_operator (line_clean : str) : bool :=
  if is_empty line_clean then false
  else existsb (fun pattern => matches pattern line_clean) orphan_patterns.

Definition _needs_genvar_declaration (line_clean : str) (previous_lines : list str)
    : bool :=
  if contains (Str "genvar") line_clean && negb (contains (Str "generate") line_clean)
  then
    negb (existsb (fun prev_line => contains (Str "genvar") (strip prev_line))
            (last_n 20 previous_lines))
  else false.

Definition _create_genvar_declaration (line : str) : str :=
  _get_indent line ++ Line "genvar i;".

(** The [for i, line in enumerate(rtl_lines)] loop of
    [_conservative_cleanup]. *)
Fixpoint cleanup_loop (rest : list str) (cleaned_lines : list str) : list str :=
  match rest with
  | [] => cleaned_lines
  | line :: rest' =>
      let line_clean := strip line in
      if _is_obvious_orphan_operator line_clean then
        cleanup_loop rest' cleaned_lines
      else if _needs_genvar_declaration line_clean cleaned_lines then
        cleanup_loop rest'
          (cleaned_lines ++ [_create_genvar_declaration line] ++ [line])
      else cleanup_loop rest' (cleaned_lines ++ [line])
  end.

Definition _conservative_cleanup (rtl_lines : list str) : list str :=
  cleanup_loop rtl_lines [].

(** [fix_all_syntax_errors]: the six steps in their fixed order. *)
Definition fix_all_syntax_errors (self : t) (rtl_lines : list str)
    : option (list str * t) :=
  '(rtl_lines, assign_p) ←
     AssignStatementPatcher.fix_assign_statements (assign_patcher self) rtl_lines;
  let total := _update_stats (total_fixes self)
                 (AssignStatementPatcher.get_summary assign_p) in
  '(rtl_lines, case_p) ←
     CaseStatementPatcher.fix_case_statements (case_patcher self) rtl_lines;
  let total := _update_stats total (CaseStatementPatcher.get_summary case_p) in
  let '(rtl_lines, if_else_p) :=
    IfElsePatcher.fix_if_else_statements (if_else_patcher self) rtl_lines in
  let total := _update_stats total (IfElsePatcher.get_summary if_else_p) in
  let '(rtl_lines, always_p) :=
    AlwaysBlockPatcher.fix_always_blocks (always_patcher self) rtl_lines in
  let total := _update_stats total (AlwaysBlockPatcher.get_summary always_p) in
  '(rtl_lines, generate_p) ←
     GenerateBlockPatcher.fix_generate_blocks (generate_patcher self) rtl_lines;
  let total := _update_stats total (GenerateBlockPatcher.get_summary generate_p) in
  let rtl_lines := _conservative_cleanup rtl_lines in
  Some (rtl_lines, Self case_p if_else_p always_p assign_p generate_p total).

Definition get_total_summary (self : t) : str :=
  Str "Syntax patch: fixed " ++ str_of_nat (total_fixes self) ++ Str " issues".

End SyntaxErrorPatcher.

(* ===================================================================== *)
(** * Notions the properties are stated with *)
(* ===================================================================== *)

(** The words a pattern can match, anchors aside: [lang r w] when [w] is
    the text some match of [r] spans. *)
Module ReLang.

Import Re.

Inductive lang : regex -> str -> Prop :=
| L_Eps : lang Eps []
| L_One cs c : mem cs c = true -> lang (One cs) [c]
| L_Star cs w : Forall (fun c => mem cs c = true) w -> lang (Star cs) w
| L_StarLazy cs w : Forall (fun c => mem cs c = true) w -> lang (StarLazy cs) w
| L_Bol : lang Bol []
| L_Eol : lang Eol []
| L_WordB : lang WordB []
| L_Cat r1 r2 w1 w2 : lang r1 w1 -> lang r2 w2 -> lang (Cat r1 r2) (w1 ++ w2)
| L_AltL r1 r2 w : lang r1 w -> lang (Alt r1 r2) w
| L_AltR r1 r2 w : lang r2 w -> lang (Alt r1 r2) w
| L_Group n r w : lang r w -> lang (Group n r) w.

(** The matcher went from [st] to [st'] over the word [w]. *)
Definition steps (st : mstate) (w : str) (st' : mstate) : Prop :=
  rest st = w ++ rest st' /\ pos st' = pos st + length w.

End ReLang.

(** How the Case pass reads a line, and counts over a line list. *)
Module CaseLines.

Import CaseStatementPatcher.

(** A [case] opening: the first branch of the scan in
    [_fix_missing_endcase]. *)
Definition is_opening (line : str) : bool :=
  Re.found case_open_pattern (strip line).

(** An [endcase] closing: the second branch of that scan. *)
Definition is_closing (line : str) : bool :=
  negb (is_opening line) && is_endcase_line (strip line).

Fixpoint count_openings (lines : list str) : nat :=
  match lines with
  | [] => 0
  | l :: rest => (if is_opening l then 1 else 0) + count_openings rest
  end.

Fixpoint count_closings (lines : list str) : nat :=
  match lines with
  | [] => 0
  | l :: rest => (if is_closing l then 1 else 0) + count_closings rest
  end.

(** The number of openings still waiting for their closing after a scan
    of [lines] that starts with [depth] of them. *)
Fixpoint open_after (depth : nat) (lines : list str) : nat :=
  match lines with
  | [] => depth
  | l :: rest =>
      if is_opening l then open_after (S depth) rest
      else if is_closing l then open_after (pred depth) rest
      else open_after depth rest
  end.

(** The closings met while no opening was waiting. *)
Fixpoint stray_closings (depth : nat) (lines : list str) : nat :=
  match lines with
  | [] => 0
  | l :: rest =>
      if is_opening l then stray_closings (S depth) rest
      else if is_closing l then
        match depth with
        | 0 => S (stray_closings 0 rest)
        | S d => stray_closings d rest
        end
      else stray_closings depth rest
  end.

(** Spaces and tabs only. *)
Definition blank_indent (s : str) : Prop :=
  Forall (fun c => c = " "%char \/ c = Char.tab) s.

(** The [endcase] line the pass writes at an indentation. *)
Abbreviation synthesized :=
  (fun endcase_indent : str => endcase_indent ++ Str "endcase").

(** [with_endcases kept out]: [out] is [kept] with [endcase] lines, each
    at a blank indentation, put in between. *)
Inductive with_endcases : list str -> list str -> Prop :=
| we_nil : with_endcases [] []
| we_keep l kept out :
    with_endcases kept out -> with_endcases (l :: kept) (l :: out)
| we_insert ind kept out :
    blank_indent ind ->
    with_endcases kept out -> with_endcases kept (synthesized ind :: out).

(** Every entry of the stack still waits for its [endcase] and has a
    blank indentation. *)
Definition stack_ok (stack : list case_info) : Prop :=
  Forall (fun ci => found_endcase ci = false /\ blank_indent (indent ci)) stack.

End CaseLines.

(** What the If-Else pass does with one line, in the words of its
    docstring: keep, convert a dangling [else if], drop a dangling
    [else]. *)
Module IfElsePolicy.

Import IfElsePatcher.

Definition is_else_like (l : str) : bool :=
  _is_else_statement (strip l) || _is_else_if_statement (strip l).

Definition unpaired_else_if (pairs : gmap nat pair_info) (i : nat) (l : str) : bool :=
  is_else_like l && negb (is_paired pairs i) && _is_else_if_statement (strip l).

Definition unpaired_bare_else (pairs : gmap nat pair_info) (i : nat) (l : str) : bool :=
  is_else_like l && negb (is_paired pairs i) && negb (_is_else_if_statement (strip l)).

Definition emitted_for (pairs : gmap nat pair_info) (i : nat) (l : str) : list str :=
  if unpaired_else_if pairs i l then [_convert_else_if_to_if l]
  else if unpaired_bare_else pairs i l then []
  else [l].

End IfElsePolicy.

(** The steps of [_fix_assign_statement] that come after the balancing of
    the ternary operator: the terminator and the whitespace around the
    operators. *)
Module AssignSteps.

Import Re AssignStatementPatcher.

Definition after_balance (fixed_line : str) : str :=
  let fixed_line :=
    if negb (endswith (strip fixed_line) (Str ";"))
    then rstrip fixed_line ++ Str ";" else fixed_line in
  let fixed_line := sub (Plus CSpace) (Str " ") fixed_line in
  let fixed_line := sub (around "=") (Str " = ") fixed_line in
  let fixed_line := sub (around "?") (Str " ? ") fixed_line in
  let fixed_line := sub (around ":") (Str " : ") fixed_line in
  sub (Seq [Lit "="; Plus CSpace; Lit "="]) (Str "==") fixed_line.

End AssignSteps.

(** The single characters the final cleanup takes for stray operators. *)
Definition stray_operators : str := Str "&|^~+-*/<>=!{}:?".

Definition is_stray_operator (c : ascii) : bool :=
  existsb (Char.eqb c) stray_operators.

(** Conditions on an input under which a pass has nothing to do, and the
    tests the passes make on a line. *)
Module Quiet.

(** Every [else] and [else if] line of the input has its [if]. *)
Definition every_else_paired (rtl_lines : list str) : bool :=
  let pairs := IfElsePatcher._analyze_if_else_pairing rtl_lines in
  forallb (fun b : bool => b)
    (imap (fun i l => negb (IfElsePolicy.is_else_like l)
                      || IfElsePatcher.is_paired pairs i) rtl_lines).

Definition no_case_opening (rtl_lines : list str) : bool :=
  forallb (fun l => negb (CaseLines.is_opening l)) rtl_lines.

Definition no_genvar (rtl_lines : list str) : bool :=
  forallb (fun l => negb (contains (Str "genvar") (strip l))) rtl_lines.

Definition no_labeled_begin (rtl_lines : list str) : bool :=
  forallb (fun l => negb (GenerateBlockPatcher._is_orphan_generate_block (strip l)))
    rtl_lines.

(** The test of the cleanup loop on a line. *)
Definition is_orphan_line (l : str) : bool :=
  SyntaxErrorPatcher._is_obvious_orphan_operator (strip l).

(** The test of the Always loop on a line. *)
Definition is_incomplete_header (l : str) : bool :=
  AlwaysBlockPatcher._is_incomplete_always_block (strip l).

(** The three tests of the Assign loop on a line. *)
Definition is_assign_trigger (l : str) : bool :=
  AssignStatementPatcher._is_assign_start (strip l)
  || AssignStatementPatcher._is_orphan_ternary_part (strip l)
  || AssignStatementPatcher._is_incomplete_assignment (strip l).

Definition no_assign_trigger (rtl_lines : list str) : bool :=
  forallb (fun l => negb (is_assign_trigger l)) rtl_lines.

Definition no_incomplete_header (rtl_lines : list str) : bool :=
  forallb (fun l => negb (is_incomplete_header l)) rtl_lines.

Definition no_orphan_line (rtl_lines : list str) : bool :=
  forallb (fun l => negb (is_orphan_line l)) rtl_lines.

(** No step of the pipeline finds anything to repair. *)
Definition nothing_to_repair (rtl_lines : list str) : bool :=
  no_assign_trigger rtl_lines && no_case_opening rtl_lines
  && every_else_paired rtl_lines && no_incomplete_header rtl_lines
  && no_labeled_begin rtl_lines && no_orphan_line rtl_lines
  && no_genvar rtl_lines.

End Quiet.


(** What the summaries and the statistics are stated with. *)
Module Summaries.

(** The character before the position once the text [s] has been passed,
    [pv] being the one before [s]. *)
Definition last_char (pv : option ascii) (s : str) : option ascii :=
  fold_left (fun _ c => Some c) s pv.

(** The text has no letter f. *)
Definition no_f (s : str) : bool := forallb (fun c => negb (Char.eqb c "f")) s.

End Summaries.

(** [re.sub] seen as a rewriting of the text, and how a text ends. *)
Module Rewriting.

Import Re ReLang.

(** [re.sub] as a relation: the text is passed from left to right, a
    character is kept or a word of the pattern gives way to the
    replacement. *)
Inductive rewrites (r : regex) (repl : str) : str -> str -> Prop :=
| rw_nil : rewrites r repl [] []
| rw_keep c s out :
    rewrites r repl s out -> rewrites r repl (c :: s) (c :: out)
| rw_sub w s out :
    lang r w -> rewrites r repl s out -> rewrites r repl (w ++ s) (repl ++ out).

(** The last character of the text that is not whitespace is [c]. *)
Definition closed_by (c : ascii) (s : str) : Prop :=
  exists a b, s = a ++ c :: b /\ Forall (fun x => Char.is_space x = true) b.

End Rewriting.

(** What the pairing of the If-Else pass says about the lines. *)
Module Pairing.

Import IfElsePatcher IfElsePolicy.

(** What a context of [active_ifs] records about its line. *)
Definition ctx_of (rtl_lines : list str) (i : nat) (c : if_ctx) : Prop :=
  line c < i
  /\ exists l, rtl_lines !! line c = Some l
       /\ (_is_if_statement (strip l) || _is_else_if_statement (strip l)) = true
       /\ indent c = length (_get_indent l)
       /\ block_end c = _find_if_block_end rtl_lines (line c).

(** What a positive entry of [pairs] says about the line [i]. *)
Definition paired_with (rtl_lines : list str) (i : nat) (p : pair_info) : Prop :=
  exists j l_if l_else,
    if_line p = Some j /\ j < i
    /\ rtl_lines !! j = Some l_if /\ rtl_lines !! i = Some l_else
    /\ (_is_if_statement (strip l_if) || _is_else_if_statement (strip l_if)) = true
    /\ is_else_like l_else = true
    /\ length (_get_indent l_if) = length (_get_indent l_else)
    /\ _find_if_block_end rtl_lines j < i <= _find_if_block_end rtl_lines j + 5.

End Pairing.

(** The regions of the Case pass and the lines outside them. *)
Module CaseRegions.

Import CaseStatementPatcher.

(** A region runs from a [case] opening to the first [endcase] line after
    it. *)
Definition region_ok (rtl_lines : list str) (cs : case_struct) : Prop :=
  start cs < end_ cs < length rtl_lines
  /\ (exists l, rtl_lines !! start cs = Some l
                /\ Re.found case_open_pattern (strip l) = true)
  /\ (exists l, rtl_lines !! end_ cs = Some l /\ is_endcase_line (strip l) = true)
  /\ (forall j l, start cs < j < end_ cs -> rtl_lines !! j = Some l ->
                  is_endcase_line (strip l) = false).

(** The regions come in the order of the lines, each after the end of the
    one before, none before [lo]. *)
Fixpoint regions_from (lo : nat) (regions : list case_struct) : Prop :=
  match regions with
  | [] => True
  | cs :: rest => lo <= start cs /\ regions_from (end_ cs + 1) rest
  end.

(** The index [i] lies in one of the regions. *)
Definition in_regions (regions : list case_struct) (i : nat) : bool :=
  existsb (fun cs => (start cs <=? i) && (i <=? end_ cs)) regions.

(** The lines, from index [i] on, that lie in none of the regions. *)
Fixpoint keep_outside (regions : list case_struct) (i : nat) (lines : list str)
    : list str :=
  match lines with
  | [] => []
  | l :: rest =>
      if in_regions regions i then keep_outside regions (S i) rest
      else l :: keep_outside regions (S i) rest
  end.

End CaseRegions.

(** No line is an incomplete always header with empty parentheses, the
    two kinds [_fix_incomplete_always_block] repairs by a literal
    replacement. *)
Definition no_empty_parens_header (rtl_lines : list str) : bool :=
  forallb (fun l => negb (Re.found AlwaysBlockPatcher.always_parens (strip l))
                    && negb (Re.found AlwaysBlockPatcher.always_at_parens (strip l)))
    rtl_lines.

(** What the Generate pass does to the lines. *)
Module Wrapping.

(** The lines the Generate pass writes around a group of blocks, at an
    indentation [base]. *)
Definition scaffold (x : str) : Prop :=
  exists base,
    x = base ++ Line "genvar I;"
    \/ x = base ++ Line "generate"
    \/ (exists loop_range,
          x = base ++ Str "  for (I = 0; I < " ++ loop_range
              ++ Line "; I = I + 1) begin")
    \/ x = base ++ Line "  end"
    \/ x = base ++ Line "endgenerate".

(** [wrapped lines out]: [out] has every line of [lines], in the same
    order, as it was or with two spaces in front, and scaffold lines in
    between. *)
Inductive wrapped : list str -> list str -> Prop :=
| wr_nil : wrapped [] []
| wr_keep l lines out : wrapped lines out -> wrapped (l :: lines) (l :: out)
| wr_indent l lines out :
    wrapped lines out -> wrapped (l :: lines) ((Str "  " ++ l) :: out)
| wr_scaffold x lines out :
    scaffold x -> wrapped lines out -> wrapped lines (x :: out).

End Wrapping.

(** A trimmed line that [_collect_complete_assign] takes into the
    statement: not empty and no comment. *)
Definition kept_part (next_line : str) : bool :=
  negb (is_empty next_line || startswith next_line (Str "//")).

(* ===================================================================== *)
(** * always_block_patcher.py: the metadata of the source file *)
(* ===================================================================== *)

(** [_extract_source_always_blocks] over [self.source_lines], which
    [_load_source_file] has read; [self.source_always_blocks] starts
    empty. *)
Module AlwaysBlockSource.

Import Re.

(** An entry of a module's list in [self.source_always_blocks]. *)
Record always_block := AlwaysBlock {
  always_decl : str;
  signature : list str;
  line_num : nat
}.

(** The pattern "module\s+(\w+)". *)
Definition module_pattern : regex :=
  Seq [Lit "module"; Plus CSpace; Group 1 (Plus CWord)].

(** The [for j in range(i + 1, min(i + 5, len(self.source_lines)))] loop:
    [Some j] for the first line with [begin] in it ([begin_idx = j]),
    [None] when [begin_idx] stays at -1. *)
Fixpoint find_begin_idx (source_lines : list str) (idxs : list nat) : option nat :=
  match idxs with
  | [] => None
  | j :: rest =>
      if contains (Str "begin") (getitem source_lines j) then Some j
      else find_begin_idx source_lines rest
  end.

(** The [for k in range(begin_idx + 1, ...)] loop that collects the
    signature lines. *)
Fixpoint signature_loop (source_lines : list str) (idxs : list nat)
    (signature_lines : list str) : list str :=
  match idxs with
  | [] => signature_lines
  | k :: rest =>
      let sig_line := strip (getitem source_lines k) in
      if negb (is_empty sig_line) && negb (startswith sig_line (Str "//"))
         && negb (str_eqb sig_line (Str "begin")) then
        let signature_lines := signature_lines ++ [sig_line] in
        if 3 <=? length signature_lines then signature_lines
        else signature_loop source_lines rest signature_lines
      else signature_loop source_lines rest signature_lines
  end.

(** The [while i < len(self.source_lines)] loop; every iteration ends with
    [i += 1].  [None] stands for the [KeyError] of
    [self.source_always_blocks[current_module]] on a missing key. *)
Fixpoint extract_loop (source_lines rest : list str) (i : nat)
    (current_module : option str)
    (source_always_blocks : gmap str (list always_block))
    : option (gmap str (list always_block)) :=
  match rest with
  | [] => Some source_always_blocks
  | l :: rest' =>
      let line := strip l in
      let '(current_module, source_always_blocks) :=
        if startswith line (Str "module ") then
          match match_ module_pattern line with
          | Some m =>
              let name := group line m 1 in
              (Some name, <[name := []]> source_always_blocks)
          | None => (current_module, source_always_blocks)
          end
        else (current_module, source_always_blocks) in
      let len := length source_lines in
      let updated :=
        match current_module with
        | Some name =>
            if startswith line (Str "always") && negb (is_empty name) then
              match find_begin_idx source_lines
                      (range (i + 1) (Nat.min (i + 5) len)) with
              | Some begin_idx =>
                  let signature_lines :=
                    signature_loop source_lines
                      (range (begin_idx + 1) (Nat.min (begin_idx + 10) len)) [] in
                  match source_always_blocks !! name with
                  | Some found =>
                      Some (<[name := found ++ [AlwaysBlock line signature_lines i]]>
                              source_always_blocks)
                  | None => None
                  end
              | None => Some source_always_blocks
              end
            else Some source_always_blocks
        | None => Some source_always_blocks
        end in
      match updated with
      | Some source_always_blocks =>
          extract_loop source_lines rest' (i + 1) current_module source_always_blocks
      | None => None
      end
  end.

Definition _extract_source_always_blocks (source_lines : list str)
    : option (gmap str (list always_block)) :=
  extract_loop source_lines source_lines 0 None ∅.

(** What an entry says about the source lines. *)
Definition block_ok (source_lines : list str) (b : always_block) : Prop :=
  line_num b < length source_lines
  /\ always_decl b = strip (getitem source_lines (line_num b))
  /\ startswith (always_decl b) (Str "always") = true
  /\ (exists j, line_num b < j < line_num b + 5 /\ j < length source_lines
                /\ contains (Str "begin") (getitem source_lines j) = true)
  /\ length (signature b) <= 3
  /\ Forall (fun s => is_empty s = false /\ startswith s (Str "//") = false
                      /\ str_eqb s (Str "begin") = false) (signature b).

End AlwaysBlockSource.

(** The invariant of the pairing loop of the If-Else pass. *)
Module Claims.

Import IfElsePatcher.

(** The state of the pairing loop at line [i]: the contexts stand for
    distinct earlier lines; a claimed [if] lies before the [else] that
    claims it, itself an earlier line, and its context, while it is still
    active, is marked; no [if] is claimed twice. *)
Definition claims_ok (i : nat) (pairs : gmap nat pair_info)
    (active_ifs : list if_ctx) : Prop :=
  NoDup (map line active_ifs)
  /\ Forall (fun c => line c < i) active_ifs
  /\ (forall k p j, pairs !! k = Some p -> has_matching_if p = true ->
        if_line p = Some j ->
        k < i /\ j < k
        /\ Forall (fun c => line c = j -> has_else c = true) active_ifs)
  /\ (forall k k' p p' j, pairs !! k = Some p -> pairs !! k' = Some p' ->
        has_matching_if p = true -> has_matching_if p' = true ->
        if_line p = Some j -> if_line p' = Some j -> k = k').

End Claims.

(** A trimmed text that is one stray operator character. *)
Definition single_stray_operator (line_clean : str) : bool :=
  match line_clean with
  | [c] => is_stray_operator c
  | _ => false
  end.


(** How the Generate pass groups the lines. *)
Module Grouping.




End Grouping.

(** Where a line of the Assign pass's output comes from. *)
Module AssignOutput.

Import AssignStatementPatcher.

(** [emitted rtl_lines x]: [x] is an input line that is no assign start,
    kept as it is; or a statement that went through the statement repair;
    or an emitted line with an orphan part of the input merged into it;
    or an incomplete assignment of the input, completed. *)
Inductive emitted (rtl_lines : list str) : str -> Prop :=
| em_kept line :
    line ∈ rtl_lines ->
    _is_assign_start (strip line) = false ->
    emitted rtl_lines line
| em_repaired assign_stmt :
    emitted rtl_lines (_fix_assign_statement assign_stmt)
| em_merged prev_line line :
    emitted rtl_lines prev_line ->
    line ∈ rtl_lines ->
    _is_orphan_ternary_part (strip line) = true ->
    _can_merge_with_previous prev_line line = true ->
    emitted rtl_lines (_merge_ternary_lines prev_line line)
| em_completed line :
    line ∈ rtl_lines ->
    _is_incomplete_assignment (strip line) = true ->
    emitted rtl_lines (_fix_incomplete_assignment line).

End AssignOutput.

(** The textual replacement of the If-Else pass, told without the
    matcher: what the pattern "\belse\s+if\s*\(" takes and what the
    substitution of "if (" for it leaves. *)
Module Promotion.

Definition spaces (s : str) : Prop := Forall (fun c => Char.is_space c = true) s.

(** An else-if opening: else, whitespace, if, whitespace or none, and an
    opening parenthesis. *)
Definition else_if_opening (w : str) : Prop :=
  exists sp sp',
    w = Str "else" ++ sp ++ Str "if" ++ sp' ++ Str "("
    /\ sp <> [] /\ spaces sp /\ spaces sp'.

(** The text [s], read after the character [pv], starts with an else-if
    opening whose else is a word of its own. *)
Definition opens_else_if (pv : option ascii) (s : str) : Prop :=
  Re.is_word_opt pv = false
  /\ exists w rest, else_if_opening w /\ s = w ++ rest.

(** [promoted pv s out]: [out] is [s], read after the character [pv], with
    every else-if opening met from left to right replaced by "if (" and
    every other character kept. *)
Inductive promoted : option ascii -> str -> str -> Prop :=
| pr_nil pv : promoted pv [] []
| pr_opening pv w rest out :
    Re.is_word_opt pv = false ->
    else_if_opening w ->
    promoted (Some "("%char) rest out ->
    promoted pv (w ++ rest) (Str "if (" ++ out)
| pr_keep pv c s out :
    ~ opens_else_if pv (c :: s) ->
    promoted (Some c) s out ->
    promoted pv (c :: s) (c :: out).

End Promotion.

(* ===================================================================== *)
(** * The passes on concrete inputs *)
(* ===================================================================== *)

Section Scenarios.

Import SyntaxErrorPatcher.



(** C2, the code at the failing input.  A line whose trimmed content is
    the always keyword with an empty pair of parentheses, with or without
    the at sign, is recognised as incomplete and counted as fixed, but the
    replacement looks for the spelling with one space before the
    parenthesis and so leaves the line as it was. *)
Theorem always_empty_parens_unchanged :
  AlwaysBlockPatcher._is_incomplete_always_block (strip (Line "always()")) = true
  /\ AlwaysBlockPatcher._is_incomplete_always_block (strip (Line "always@()")) = true
  /\ AlwaysBlockPatcher.fix_always_blocks AlwaysBlockPatcher.new
       [Line "always()"; Line "always@()"]
     = ([Line "always()"; Line "always@()"], AlwaysBlockPatcher.Self 0 2 0).
Proof. vm_compute. auto. Qed.

(** C3, the code at the failing input.  A case region whose only interior
    line is a default label that carries an assignment is classified empty
    and the whole region is deleted. *)
Theorem case_default_assignment_deleted :
  let rtl_lines := [Line "case (x)"; Line "  default: y = 0;"; Line "endcase"] in
  contains (Str "=") (strip (Line "  default: y = 0;")) = true
  /\ CaseStatementPatcher._identify_case_structures rtl_lines
     = Some [CaseStatementPatcher.CaseStruct 0 2]
  /\ CaseStatementPatcher._is_empty_case_structure rtl_lines
       (CaseStatementPatcher.CaseStruct 0 2) = true
  /\ CaseStatementPatcher.fix_case_statements CaseStatementPatcher.new rtl_lines
     = Some ([], CaseStatementPatcher.Self [] 0 1).
Proof. vm_compute. auto. Qed.

(** C7, the code at the failing input.  The Generate pass equips the loop
    of an indexed block with its genvar declaration, and the cleanup then
    takes that declaration line for a use without declaration and puts a
    second declaration in front of it. *)
Theorem cleanup_injects_second_genvar :
  let rtl_lines := [Line "begin : blk"; Line "  y[i] = x[i];"; Line "end"] in
  let generated :=
    [Line "genvar I;"; Line "generate";
     Line "  for (I = 0; I < 8; I = I + 1) begin";
     Line "  begin : blk"; Line "    y[i] = x[i];"; Line "  end";
     Line "endgenerate"; Line "end"] in
  GenerateBlockPatcher.fix_generate_blocks GenerateBlockPatcher.new rtl_lines
  = Some (generated, GenerateBlockPatcher.Self 0 1 1)
  /\ _conservative_cleanup generated = Line "genvar i;" :: generated.
Proof. vm_compute. auto. Qed.

(** C9, the code at the failing input.  One Always patcher repairs
    [A] and then [B]: the counter it reports after [B] still holds the fix
    made in [A], while a fresh instance reports none for [B]; the pass
    never sets its counters back. *)
Theorem always_counter_carried_over :
  let A := [Line "always"] in
  let B := [Line "wire w;"] in
  let after_A := (AlwaysBlockPatcher.fix_always_blocks AlwaysBlockPatcher.new A).2 in
  let reused := (AlwaysBlockPatcher.fix_always_blocks after_A B).2 in
  let fresh := (AlwaysBlockPatcher.fix_always_blocks AlwaysBlockPatcher.new B).2 in
  AlwaysBlockPatcher.incomplete_blocks_fixed reused = 1
  /\ AlwaysBlockPatcher.incomplete_blocks_fixed fresh = 0
  /\ AlwaysBlockPatcher.get_summary reused
     = Str "Always patch: fixed 1 incomplete always blocks"
  /\ AlwaysBlockPatcher.get_summary fresh = Str "Always patch: no changes needed".
Proof. vm_compute. auto. Qed.

(** C1, the code at the failing inputs.  The pipeline wraps a labeled
    block into a generate region; run again on its own output, which is
    repaired and closed, it wraps the block once more, because the test
    for an orphan block never looks whether the block is inside a generate
    region already: the second run changes the text, and reports no fix.
    And a header made of the always keyword and an empty pair of
    parentheses comes back as it went in, a fixed point of the repairs,
    with one fix reported at every run. *)
Theorem pipeline_not_idempotent :
  let rtl_lines := [Line "begin : blk"; Line "  wire w;"; Line "  end // blk"] in
  let repaired :=
    [Line "generate"; Line "  begin : blk"; Line "    wire w;";
     Line "    end // blk"; Line "endgenerate"] in
  let again :=
    [Line "generate"; Line "  generate"; Line "    begin : blk";
     Line "      wire w;"; Line "      end // blk"; Line "  endgenerate";
     Line "  endgenerate"] in
  fst <$> fix_all_syntax_errors new rtl_lines = Some repaired
  /\ fst <$> fix_all_syntax_errors new repaired = Some again
  /\ again <> repaired
  /\ (total_fixes ∘ snd) <$> fix_all_syntax_errors new repaired = Some 0
  /\ fst <$> fix_all_syntax_errors new [Line "always()"] = Some [Line "always()"]
  /\ (total_fixes ∘ snd) <$> fix_all_syntax_errors new [Line "always()"] = Some 1.
Proof. vm_compute. repeat split; try reflexivity. discriminate. Qed.

End Scenarios.

(* ===================================================================== *)
(** * Facts about the string methods *)
(* ===================================================================== *)

Section StringFacts.

Implicit Types (s w : str) (p : ascii -> bool) (c : ascii).

Lemma drop_while_app_all p w s :
  Forall (fun c => p c = true) w -> drop_while p (w ++ s) = drop_while p s.
Proof.
  induction 1 as [|c w Hc _ IH]; simpl; [done|]. by rewrite Hc.
Qed.

Lemma drop_while_length p s : length (drop_while p s) <= length s.
Proof. induction s as [|c s IH]; simpl; [lia|]. destruct (p c); simpl; lia. Qed.

Lemma take_while_Forall p s : Forall (fun c => p c = true) (take_while p s).
Proof.
  induction s as [|c s IH]; simpl; [constructor|].
  destruct (p c) eqn:E; by constructor.
Qed.

Lemma take_while_drop_while p s : take_while p s ++ drop_while p s = s.
Proof.
  induction s as [|c s IH]; simpl; [done|].
  destruct (p c); simpl; by rewrite ?IH.
Qed.

Lemma take_length_drop_while p s :
  take (length s - length (drop_while p s)) s = take_while p s.
Proof.
  induction s as [|c s IH]; simpl; [done|].
  destruct (p c) eqn:E.
  - pose proof (drop_while_length p s).
    replace (S (length s) - length (drop_while p s))
      with (S (length s - length (drop_while p s))) by lia.
    simpl. by rewrite IH.
  - simpl. by rewrite Nat.sub_diag.
Qed.

Lemma lstrip_app_space w s :
  Forall (fun c => Char.is_space c = true) w -> lstrip (w ++ s) = lstrip s.
Proof. apply drop_while_app_all. Qed.

Lemma strip_app_space w s :
  Forall (fun c => Char.is_space c = true) w -> strip (w ++ s) = strip s.
Proof. intros H. unfold strip. by rewrite lstrip_app_space. Qed.

Lemma count_app c s1 s2 : count c (s1 ++ s2) = count c s1 + count c s2.
Proof. induction s1 as [|x s1 IH]; simpl; [done|]. rewrite IH. lia. Qed.

Lemma count_rev c s : count c (rev s) = count c s.
Proof.
  induction s as [|x s IH]; simpl; [done|].
  rewrite count_app, IH. simpl. lia.
Qed.

Lemma count_Forall_0 p c s :
  p c = false -> Forall (fun x => p x = true) s -> count c s = 0.
Proof.
  intros Hc. induction 1 as [|x s Hx _ IH]; simpl; [done|].
  rewrite IH. unfold Char.eqb. destruct (Ascii.eqb_spec x c); [congruence|done].
Qed.

Lemma count_drop_while p c s : p c = false -> count c (drop_while p s) = count c s.
Proof.
  intros Hc. rewrite <- (take_while_drop_while p s) at 2.
  rewrite count_app.
  by rewrite (count_Forall_0 p c (take_while p s) Hc (take_while_Forall p s)).
Qed.

Lemma count_rstrip c s : Char.is_space c = false -> count c (rstrip s) = count c s.
Proof.
  intros Hc. unfold rstrip.
  by rewrite count_rev, count_drop_while, count_rev.
Qed.

Lemma drop_while_nil_Forall p s :
  drop_while p s = [] -> Forall (fun c => p c = true) s.
Proof.
  induction s as [|c s IH]; simpl; [constructor|].
  destruct (p c) eqn:E; [|discriminate]. intros H. constructor; auto.
Qed.

Lemma strip_nil_Forall s :
  strip s = [] -> Forall (fun c => Char.is_space c = true) s.
Proof.
  unfold strip, rstrip. intros H.
  assert (Hr : drop_while Char.is_space (rev (lstrip s)) = []).
  { apply (f_equal (@rev ascii)) in H. by rewrite rev_involutive in H. }
  apply drop_while_nil_Forall in Hr.
  rewrite <- (take_while_drop_while Char.is_space s).
  apply Forall_app. split; [apply take_while_Forall|].
  apply Forall_forall. intros x Hx.
  rewrite Forall_forall in Hr. apply Hr.
  apply list_elem_of_In, in_rev. rewrite rev_involutive.
  by apply list_elem_of_In.
Qed.

End StringFacts.

(* ===================================================================== *)
(** * The final cleanup *)
(* ===================================================================== *)

Section Cleanup.

Import SyntaxErrorPatcher.

Lemma get_indent_spaces (line : str) :
  Forall (fun c => Char.is_space c = true) (_get_indent line).
Proof.
  unfold _get_indent, lstrip. rewrite take_length_drop_while.
  apply take_while_Forall.
Qed.

Lemma single_operator_is_orphan (c : ascii) :
  is_stray_operator c = true -> _is_obvious_orphan_operator [c] = true.
Proof.
  unfold is_stray_operator. intros H.
  apply existsb_exists in H as (x & Hin & Hx).
  unfold Char.eqb in Hx. apply Ascii.eqb_eq in Hx. subst x.
  repeat (destruct Hin as [<- | Hin]; [by vm_compute|]). destruct Hin.
Qed.

Lemma created_genvar_not_orphan (line : str) :
  _is_obvious_orphan_operator (strip (_create_genvar_declaration line)) = false.
Proof.
  unfold _create_genvar_declaration.
  rewrite strip_app_space by apply get_indent_spaces. by vm_compute.
Qed.

Lemma cleanup_loop_no_orphan (rest acc : list str) :
  Forall (fun l => _is_obvious_orphan_operator (strip l) = false) acc ->
  Forall (fun l => _is_obvious_orphan_operator (strip l) = false)
    (cleanup_loop rest acc).
Proof.
  revert acc. induction rest as [|line rest IH]; intros acc Hacc; simpl; [done|].
  destruct (_is_obvious_orphan_operator (strip line)) eqn:E; [by apply IH|].
  destruct (_needs_genvar_declaration (strip line) acc); apply IH.
  - apply Forall_app. split; [done|]. simpl.
    constructor; [apply created_genvar_not_orphan|]. by constructor.
  - apply Forall_app. split; [done|]. by constructor.
Qed.

Lemma cleanup_loop_app (before after acc : list str) :
  cleanup_loop (before ++ after) acc = cleanup_loop after (cleanup_loop before acc).
Proof.
  revert acc. induction before as [|line before IH]; intros acc; simpl; [done|].
  destruct (_is_obvious_orphan_operator (strip line)); [apply IH|].
  destruct (_needs_genvar_declaration (strip line) acc); apply IH.
Qed.

(** C10.  A line whose trimmed content is one single character among
    & | ^ ~ + - * / < > = ! { } : ? is removed by the final cleanup,
    wherever it stands in the input: it is not in the output, and the
    output is the one the cleanup gives without that line.  A lone brace
    or colon line is no exception. *)
Theorem cleanup_removes_stray_operator_lines
    (before after : list str) (line : str) (c : ascii) :
  is_stray_operator c = true ->
  strip line = [c] ->
  (line ∉ _conservative_cleanup (before ++ line :: after))
  /\ _conservative_cleanup (before ++ line :: after)
     = _conservative_cleanup (before ++ after).
Proof.
  intros Hc Hline.
  assert (Horphan : _is_obvious_orphan_operator (strip line) = true).
  { rewrite Hline. by apply single_operator_is_orphan. }
  split.
  - intros Hin.
    pose proof (cleanup_loop_no_orphan (before ++ line :: after) []
                  (Forall_nil_2 _)) as Hall.
    rewrite Forall_forall in Hall. specialize (Hall _ Hin). congruence.
  - unfold _conservative_cleanup. rewrite !cleanup_loop_app. simpl.
    by rewrite Horphan.
Qed.

(** The theorem at a lone closing brace between two other lines. *)
Lemma cleanup_removes_stray_operator_lines_witness :
  is_stray_operator "}" = true
  /\ strip (Line "  }") = ["}"%char]
  /\ (Line "  }" ∉ _conservative_cleanup
                     ([Line "function f;"] ++ Line "  }" :: [Line "endfunction"]))
  /\ _conservative_cleanup
       ([Line "function f;"] ++ Line "  }" :: [Line "endfunction"])
     = _conservative_cleanup ([Line "function f;"] ++ [Line "endfunction"]).
Proof.
  split; [reflexivity|]. split; [reflexivity|].
  apply (cleanup_removes_stray_operator_lines
           [Line "function f;"] [Line "endfunction"] (Line "  }") "}");
    reflexivity.
Defined.

End Cleanup.

(* ===================================================================== *)
(** * The If-Else pass *)
(* ===================================================================== *)

Section IfElse.

Import IfElsePatcher IfElsePolicy.

Lemma rewrite_loop_spec (pairs : gmap nat pair_info) (rest : list str)
    (i : nat) (self : t) (acc : list str) :
  (rewrite_loop pairs rest i self acc).1
  = acc ++ concat (imap (fun j => emitted_for pairs (i + j)) rest).
Proof.
  revert i self acc.
  induction rest as [|l rest IH]; intros i self acc; simpl.
  - by rewrite app_nil_r.
  - assert (Hext : imap ((fun j => emitted_for pairs (i + j)) ∘ S) rest
                   = imap (fun j => emitted_for pairs (i + 1 + j)) rest).
    { apply imap_ext. intros j x _. simpl. f_equal. lia. }
    rewrite Hext, Nat.add_0_r.
    unfold emitted_for, unpaired_else_if, unpaired_bare_else, is_else_like.
    destruct (_is_else_statement (strip l)), (_is_else_if_statement (strip l)),
      (is_paired pairs i); simpl; rewrite IH; by rewrite <- ?app_assoc.
Qed.

(** Scenario 2 of the specification: a dangling [else if] becomes an
    [if]. *)
Example dangling_else_if_promoted :
  fix_if_else_statements new [Line "else if (x)"; Line "  y <= 1;"]
  = ([Line "if (x)"; Line "  y <= 1;"], Self 1).
Proof. vm_compute. reflexivity. Qed.

End IfElse.

(* ===================================================================== *)
(** * The Case pass *)
(* ===================================================================== *)

Section CasePass.

Import CaseStatementPatcher CaseLines.

Lemma blank_indent_spaces (s : str) :
  blank_indent s -> Forall (fun c => Char.is_space c = true) s.
Proof.
  unfold blank_indent. intros H. eapply Forall_impl; [exact H|].
  by intros c [-> | ->].
Qed.

Lemma get_indent_blank (line : str) : blank_indent (_get_indent line).
Proof.
  unfold blank_indent, _get_indent.
  eapply Forall_impl; [apply take_while_Forall|].
  intros c Hc. simpl in Hc. apply orb_prop in Hc.
  unfold Char.eqb in Hc.
  destruct Hc as [Hc | Hc]; apply Ascii.eqb_eq in Hc; auto.
Qed.

Lemma synthesized_not_opening (ind : str) :
  blank_indent ind -> is_opening (ind ++ Str "endcase") = false.
Proof.
  intros H. unfold is_opening.
  rewrite strip_app_space by by apply blank_indent_spaces. by vm_compute.
Qed.

Lemma synthesized_closing (ind : str) :
  blank_indent ind -> is_closing (ind ++ Str "endcase") = true.
Proof.
  intros H. unfold is_closing. rewrite synthesized_not_opening by done.
  rewrite strip_app_space by by apply blank_indent_spaces. by vm_compute.
Qed.

Lemma open_after_app (d : nat) (l1 l2 : list str) :
  open_after d (l1 ++ l2) = open_after (open_after d l1) l2.
Proof.
  revert d. induction l1 as [|l l1 IH]; intros d; simpl; [done|].
  destruct (is_opening l); [apply IH|]. destruct (is_closing l); apply IH.
Qed.

Lemma open_after_synthesized (d : nat) (inds : list str) :
  Forall blank_indent inds ->
  open_after d (map synthesized inds) = d - length inds.
Proof.
  intros H. revert d. induction H as [|ind inds Hind _ IH]; intros d; simpl.
  - lia.
  - rewrite synthesized_not_opening, synthesized_closing by done.
    rewrite IH. lia.
Qed.

(** Closings are the openings, the strays, and what the scan started
    with, less what is still open. *)
Lemma closings_balance (d : nat) (lines : list str) :
  count_closings lines + open_after d lines
  = count_openings lines + stray_closings d lines + d.
Proof.
  revert d. induction lines as [|l lines IH]; intros d; simpl; [lia|].
  unfold is_closing at 1. destruct (is_opening l) eqn:Ho; simpl.
  - specialize (IH (S d)). lia.
  - unfold is_closing. rewrite Ho. simpl.
    destruct (is_endcase_line (strip l)).
    + destruct d as [|d]; simpl; [specialize (IH 0)|specialize (IH d)]; lia.
    + specialize (IH d). lia.
Qed.

(** ** The regions that are found and deleted *)

Lemma find_endcase_ge (rest : list str) (j e : nat) :
  find_endcase rest j = Some e -> j <= e.
Proof.
  revert j. induction rest as [|l rest IH]; intros j; simpl; [done|].
  destruct (is_endcase_line (strip l)); [intros [= <-]; lia|].
  intros H. apply IH in H. lia.
Qed.

Lemma identify_loop_total (fuel : nat) (rtl_lines : list str) (i : nat)
    (acc : list case_struct) :
  length rtl_lines - i <= fuel ->
  Forall (fun cs => start cs < end_ cs) acc ->
  exists r, identify_loop fuel rtl_lines i acc = Some r
            /\ Forall (fun cs => start cs < end_ cs) r.
Proof.
  revert i acc. induction fuel as [|fuel IH]; intros i acc Hfuel Hacc; simpl.
  - destruct (rtl_lines !! i) eqn:E; [|by eauto].
    apply lookup_lt_Some in E. lia.
  - destruct (rtl_lines !! i) eqn:E; [|by eauto].
    apply lookup_lt_Some in E.
    destruct (Re.found case_open_pattern (strip l)); [|apply IH; [lia|done]].
    destruct (find_endcase (drop (i + 1) rtl_lines) (i + 1)) as [e|] eqn:Ef;
      [|apply IH; [lia|done]].
    apply find_endcase_ge in Ef. apply IH; [lia|].
    apply Forall_app. split; [done|]. constructor; [simpl; lia|constructor].
Qed.

Lemma take_drop_sublist {A} (a b : nat) (l : list A) :
  a <= b -> take a l ++ drop b l `sublist_of` l.
Proof.
  intros Hab. rewrite <- (take_drop a l) at 3.
  apply sublist_app; [done|].
  replace b with (a + (b - a)) by lia. rewrite <- drop_drop.
  apply sublist_drop.
Qed.

Lemma delete_ranges_sublist (ranges : list (nat * nat)) (l : list str) :
  Forall (fun r => r.1 < r.2) ranges -> delete_ranges ranges l `sublist_of` l.
Proof.
  intros H. revert l. induction H as [|[a b] ranges Hab _ IH]; intros l; simpl.
  - done.
  - etrans; [apply IH|]. apply take_drop_sublist. simpl in Hab. lia.
Qed.

Lemma insert_desc_Forall (P : nat * nat -> Prop) (x : nat * nat)
    (l : list (nat * nat)) :
  P x -> Forall P l -> Forall P (insert_desc x l).
Proof.
  intros Hx. induction 1 as [|y l Hy Hl IH]; simpl; [by repeat constructor|].
  destruct (y.1 <? x.1); repeat constructor; done.
Qed.

Lemma sort_desc_Forall (P : nat * nat -> Prop) (l : list (nat * nat)) :
  Forall P l -> Forall P (sort_desc l).
Proof.
  unfold sort_desc. generalize (@nil (nat * nat)) (Forall_nil_2 P).
  intros acc Hacc H. revert acc Hacc.
  induction H as [|x l Hx _ IH]; intros acc Hacc; simpl; [done|].
  apply IH. by apply insert_desc_Forall.
Qed.

Lemma remove_empty_case_blocks_sublist (self : t) (rtl_lines : list str) :
  exists kept self',
    _remove_empty_case_blocks self rtl_lines = Some (kept, self')
    /\ fixed_count self' = fixed_count self
    /\ kept `sublist_of` rtl_lines.
Proof.
  unfold _remove_empty_case_blocks, _identify_case_structures.
  destruct (identify_loop_total (length rtl_lines) rtl_lines 0 [])
    as (r & -> & Hr); [lia|constructor|].
  match goal with
  | |- context [match ?m with [] => _ | _ :: _ => _ end] =>
      assert (Hranges : Forall (fun r => r.1 < r.2) m);
        [|destruct m as [|r0 rs] eqn:E]
  end.
  - apply Forall_fmap, Forall_forall. intros cs Hcs.
    apply list_elem_of_filter in Hcs as [_ Hcs].
    rewrite Forall_forall in Hr. by apply Hr.
  - eexists _, _. split; [done|]. by split.
  - eexists _, _. split; [done|]. split; [done|].
    apply delete_ranges_sublist. by apply sort_desc_Forall.
Qed.

(** ** The stack of open cases against the text written so far *)

Lemma with_endcases_refl (l : list str) : with_endcases l l.
Proof. induction l; by constructor. Qed.

Lemma with_endcases_app (k1 o1 k2 o2 : list str) :
  with_endcases k1 o1 -> with_endcases k2 o2 -> with_endcases (k1 ++ k2) (o1 ++ o2).
Proof. induction 1; intros; simpl; [done|constructor; auto..]. Qed.

Lemma with_endcases_only (inds : list str) :
  Forall blank_indent inds -> with_endcases [] (map synthesized inds).
Proof. induction 1; simpl; by constructor. Qed.

Lemma with_endcases_sublist (kept out : list str) :
  with_endcases kept out -> kept `sublist_of` out.
Proof. induction 1; by constructor. Qed.

Lemma check_loop_spec (line_indent : str) (stack : list case_info) :
  stack_ok stack ->
  exists n, n <= length stack
    /\ check_loop line_indent stack = (map indent (take n stack), drop n stack).
Proof.
  induction 1 as [|ci stack [Hf Hb] Hs IH]; simpl.
  - by exists 0.
  - rewrite Hf. simpl.
    destruct (length line_indent <=? length (indent ci));
      [|exists 0; split; [lia|done]].
    destruct IH as (n & Hn & ->). exists (S n). split; [lia|done].
Qed.

Lemma endcase_loop_spec (rest : list str) (i : nat) (self : t)
    (fixed_lines : list str) :
  stack_ok (case_stack self) ->
  open_after 0 fixed_lines = length (case_stack self) ->
  forall base, with_endcases base fixed_lines ->
  let r := endcase_loop rest i self fixed_lines in
  stack_ok (case_stack r.2)
  /\ open_after 0 r.1 = length (case_stack r.2)
  /\ with_endcases (base ++ rest) r.1
  /\ length r.1 + fixed_count self
     = length fixed_lines + length rest + fixed_count r.2.
Proof.
  revert i self fixed_lines.
  induction rest as [|line rest IH];
    intros i self fixed_lines Hok Hopen base Hbase; simpl.
  - rewrite app_nil_r. repeat split; [done..|lia].
  - assert (Hline : forall ins, Forall blank_indent ins ->
              with_endcases (base ++ [line])
                (fixed_lines ++ map synthesized ins ++ [line])).
    { intros ins Hins. apply with_endcases_app; [done|].
      apply (with_endcases_app [] _ [line] [line]);
        [by apply with_endcases_only|apply with_endcases_refl]. }
    destruct (Re.found case_open_pattern (strip line)) eqn:Ho.
    { edestruct (IH (i + 1)
        (Self (CaseInfo i (_get_indent line) false :: case_stack self)
           (fixed_count self) (removed_count self))
        (fixed_lines ++ [line])) as (H1 & H2 & H3 & H4).
      - constructor; [|done]. split; [done|apply get_indent_blank].
      - rewrite open_after_app, Hopen. simpl. unfold is_opening. by rewrite Ho.
      - apply (Hline []). constructor.
      - repeat split; [done..| |].
        + by rewrite <- app_assoc in H3.
        + rewrite length_app in H4. simpl in *. lia. }
    destruct (is_endcase_line (strip line)) eqn:Hc.
    { edestruct (IH (i + 1)
        (Self (tail (case_stack self)) (fixed_count self) (removed_count self))
        (fixed_lines ++ [line])) as (H1 & H2 & H3 & H4).
      - simpl. unfold stack_ok in *. destruct (case_stack self); [done|].
        by inversion Hok.
      - rewrite open_after_app, Hopen. simpl.
        unfold is_closing, is_opening. rewrite Ho, Hc. simpl.
        by destruct (case_stack self).
      - apply (Hline []). constructor.
      - repeat split; [done..| |].
        + by rewrite <- app_assoc in H3.
        + rewrite length_app in H4. simpl in *. lia. }
    assert (Hother : open_after 0 (fixed_lines ++ [line]) = length (case_stack self)).
    { rewrite open_after_app, Hopen. simpl.
      unfold is_closing, is_opening. by rewrite Ho, Hc. }
    destruct (_should_check_for_missing_endcase (strip line)
              && negb (bool_decide (case_stack self = []))).
    { unfold _check_missing_endcases.
      destruct (check_loop_spec (_get_indent line) (case_stack self) Hok)
        as (n & Hn & ->). simpl.
      set (missing := map indent (take n (case_stack self))).
      assert (Hblank : Forall blank_indent missing).
      { subst missing. apply Forall_fmap.
        eapply Forall_impl; [apply Forall_take, Hok|]. by intros ci [_ ?]. }
      edestruct (IH (i + 1)
        (Self (drop n (case_stack self))
           (fixed_count self + length missing) (removed_count self))
        (fixed_lines ++ map synthesized missing ++ [line]))
        as (H1 & H2 & H3 & H4).
      - simpl. by apply Forall_drop.
      - rewrite !open_after_app, Hopen, open_after_synthesized by done.
        simpl. unfold is_closing, is_opening. rewrite Ho, Hc. simpl.
        subst missing. rewrite length_fmap, length_take, length_drop. lia.
      - by apply Hline.
      - repeat split; [done..| |].
        + by rewrite <- app_assoc in H3.
        + rewrite !length_app, length_fmap in H4. simpl in *. lia. }
    edestruct (IH (i + 1) self (fixed_lines ++ [line])) as (H1 & H2 & H3 & H4);
      [done..|apply (Hline []); constructor|].
    repeat split; [done..| |].
    + by rewrite <- app_assoc in H3.
    + rewrite length_app in H4. simpl in *. lia.
Qed.

Lemma close_loop_spec (stack : list case_info) (n : nat) (fixed_lines : list str) :
  stack_ok stack ->
  close_loop stack n fixed_lines
  = (fixed_lines ++ map synthesized (map indent stack), n + length stack).
Proof.
  intros H. revert n fixed_lines.
  induction H as [|ci stack [Hf Hb] _ IH]; intros n fixed_lines; simpl.
  - by rewrite app_nil_r, Nat.add_0_r.
  - rewrite Hf. simpl. rewrite IH, <- app_assoc. f_equal. lia.
Qed.

Lemma fix_missing_endcase_spec (self : t) (rtl_lines : list str) :
  let r := _fix_missing_endcase self rtl_lines in
  open_after 0 r.1 = 0
  /\ with_endcases rtl_lines r.1
  /\ length r.1 + fixed_count self = length rtl_lines + fixed_count r.2.
Proof.
  unfold _fix_missing_endcase.
  pose proof (endcase_loop_spec rtl_lines 0
                (Self [] (fixed_count self) (removed_count self)) []) as H.
  destruct (endcase_loop _ _ _ _) as [fixed_lines self1]. simpl in H.
  destruct (H ltac:(constructor) eq_refl [] we_nil) as (Hok & Hopen & Hins & Hlen).
  rewrite close_loop_spec by done. simpl.
  assert (Hblank : Forall blank_indent (map indent (case_stack self1))).
  { apply Forall_fmap. eapply Forall_impl; [exact Hok|]. by intros ci [_ ?]. }
  split; [|split].
  - rewrite open_after_app, Hopen, open_after_synthesized by done.
    rewrite !length_fmap. lia.
  - rewrite <- (app_nil_r rtl_lines).
    apply with_endcases_app; [done|by apply with_endcases_only].
  - rewrite length_app, !length_fmap. lia.
Qed.

(** C5, counterexample.  An [endcase] line with no [case] open passes
    through the Case pass: the output has one closing and no opening. *)
Lemma stray_endcase_unbalanced :
  fix_case_statements new [Line "endcase"] = Some ([Line "endcase"], Self [] 0 0)
  /\ count_openings [Line "endcase"] = 0
  /\ count_closings [Line "endcase"] = 1.
Proof. vm_compute. auto. Qed.

(** C5, as amended.  For every input the Case pass returns an output in
    which no [case] opening is left without a later [endcase]: a scan of
    the output ends with nothing open.  The closings are the openings
    plus the stray [endcase] lines, those met while no case was open,
    which the pass leaves where they are; so the two counts are equal
    exactly when the output has no stray [endcase].  No line is
    reordered: the output is the lines kept from the input, in their
    input order, with [endcase] lines put in between, as many as the pass
    reports as inserted. *)
Theorem case_pass_closure (self : t) (rtl_lines : list str) :
  exists out self' kept,
    fix_case_statements self rtl_lines = Some (out, self')
    /\ open_after 0 out = 0
    /\ count_closings out = count_openings out + stray_closings 0 out
    /\ kept `sublist_of` rtl_lines
    /\ with_endcases kept out
    /\ length out = length kept + fixed_count self'.
Proof.
  unfold fix_case_statements.
  destruct (remove_empty_case_blocks_sublist
              (Self (case_stack self) 0 0) rtl_lines)
    as (kept & self1 & -> & Hcount & Hkept).
  pose proof (fix_missing_endcase_spec self1 kept) as (Hopen & Hins & Hlen).
  destruct (_fix_missing_endcase self1 kept) as [out self'] eqn:E.
  simpl in *. exists out, self', kept.
  repeat split; [done| |done..| lia].
  pose proof (closings_balance 0 out). lia.
Qed.

End CasePass.

(* ===================================================================== *)
(** * What the matcher finds is a word of the pattern *)
(* ===================================================================== *)

Section RegexFacts.

Import Re ReLang.

Lemma star_greedy_sound cs k p pv s g res :
  star_greedy cs k p pv s g = Some res ->
  exists w st',
    Forall (fun c => mem cs c = true) w
    /\ s = w ++ rest st' /\ pos st' = p + length w /\ k st' = Some res.
Proof.
  revert p pv. induction s as [|c t IH]; intros p pv; simpl.
  - intros H. exists [], (MState p pv [] g). simpl. by rewrite Nat.add_0_r.
  - destruct (mem cs c) eqn:Hc.
    + destruct (star_greedy cs k (S p) (Some c) t g) as [r|] eqn:E.
      * intros [= ->]. apply IH in E as (w & st' & Hw & Hs & Hp & Hk).
        exists (c :: w), st'. simpl. repeat split; [by constructor|by f_equal|lia|done].
      * intros H. exists [], (MState p pv (c :: t) g). simpl.
        by rewrite Nat.add_0_r.
    + intros H. exists [], (MState p pv (c :: t) g). simpl.
      by rewrite Nat.add_0_r.
Qed.

Lemma star_lazy_sound cs k p pv s g res :
  star_lazy cs k p pv s g = Some res ->
  exists w st',
    Forall (fun c => mem cs c = true) w
    /\ s = w ++ rest st' /\ pos st' = p + length w /\ k st' = Some res.
Proof.
  revert p pv. induction s as [|c t IH]; intros p pv; simpl.
  - destruct (k (MState p pv [] g)) as [r|] eqn:E; [|done].
    intros [= ->]. exists [], (MState p pv [] g). simpl. by rewrite Nat.add_0_r.
  - destruct (k (MState p pv (c :: t) g)) as [r|] eqn:E.
    + intros [= ->]. exists [], (MState p pv (c :: t) g). simpl.
      by rewrite Nat.add_0_r.
    + destruct (mem cs c) eqn:Hc; [|done].
      intros H. apply IH in H as (w & st' & Hw & Hs & Hp & Hk).
      exists (c :: w), st'. simpl. repeat split; [by constructor|by f_equal|lia|done].
Qed.

Lemma steps_refl st : steps st [] st.
Proof. split; simpl; [done|lia]. Qed.

Lemma steps_trans st1 w1 st2 w2 st3 :
  steps st1 w1 st2 -> steps st2 w2 st3 -> steps st1 (w1 ++ w2) st3.
Proof.
  intros [H1 H2] [H3 H4]. split.
  - by rewrite H1, H3, app_assoc.
  - rewrite length_app. lia.
Qed.

(** Soundness of the matcher: a successful match of [r] from [st] went
    over a word of [r] and then satisfied the continuation. *)
Lemma rmatch_sound r : forall k st res,
  rmatch r k st = Some res ->
  exists w st', lang r w /\ steps st w st' /\ k st' = Some res.
Proof.
  induction r as [|cs|cs|cs| | | |r1 IH1 r2 IH2|r1 IH1 r2 IH2|n r IH];
    intros k st res; simpl.
  - intros H. exists [], st. split; [constructor|]. split; [apply steps_refl|done].
  - destruct (rest st) as [|c t] eqn:Hr; [done|].
    destruct (mem cs c) eqn:Hc; [|done]. intros H.
    exists [c], (MState (S (pos st)) (Some c) t (groups st)).
    split; [by constructor|]. split; [|done]. split; simpl; [done|lia].
  - intros H. apply star_greedy_sound in H as (w & st' & Hw & Hs & Hp & Hk).
    exists w, st'. split; [by constructor|]. by split.
  - intros H. apply star_lazy_sound in H as (w & st' & Hw & Hs & Hp & Hk).
    exists w, st'. split; [by constructor|]. by split.
  - destruct (pos st =? 0); [|done]. intros H.
    exists [], st. split; [constructor|]. split; [apply steps_refl|done].
  - destruct (at_eol (rest st)); [|done]. intros H.
    exists [], st. split; [constructor|]. split; [apply steps_refl|done].
  - destruct (at_boundary st); [|done]. intros H.
    exists [], st. split; [constructor|]. split; [apply steps_refl|done].
  - intros H. apply IH1 in H as (w1 & st1 & L1 & S1 & H).
    apply IH2 in H as (w2 & st2 & L2 & S2 & H).
    exists (w1 ++ w2), st2. split; [by constructor|].
    split; [by eapply steps_trans|done].
  - destruct (rmatch r1 k st) as [r|] eqn:E.
    + intros [= ->]. apply IH1 in E as (w & st' & L & S & H).
      exists w, st'. split; [by apply L_AltL|]. by split.
    + intros H. apply IH2 in H as (w & st' & L & S & H).
      exists w, st'. split; [by apply L_AltR|]. by split.
  - intros H. apply IH in H as (w & st' & L & S & H).
    eexists w, _. split; [by constructor|]. split; [|exact H].
    destruct S as [S1 S2]. by split.
Qed.

Lemma attempt_sound r must p pv s st :
  attempt r must p pv s = Some st ->
  exists w, lang r w /\ s = w ++ rest st /\ pos st = p + length w
            /\ (must = true -> w <> []).
Proof.
  unfold attempt. intros H.
  apply rmatch_sound in H as (w & st' & L & [S1 S2] & H). simpl in *.
  destruct (must && (pos st' =? p)) eqn:E; [done|]. injection H as <-.
  exists w. repeat split; [done..|].
  intros -> ->. simpl in *. rewrite Nat.add_0_r in S2.
  rewrite S2, Nat.eqb_refl in E. done.
Qed.

(** A substitution keeps the number of occurrences of a character that
    every word of the pattern has as often as the replacement has it. *)
Lemma sub_from_count r repl c :
  (forall w, lang r w -> count c w = count c repl) ->
  forall s p pv skip,
    count c (sub_from r repl p pv skip s) = count c (drop skip s).
Proof.
  intros Hlang. induction s as [|c0 t IH]; intros p pv skip.
  - destruct skip as [|k]; simpl; [|done].
    destruct (attempt r false p pv []) as [st|] eqn:E; [|done].
    apply attempt_sound in E as (w & L & Hs & Hp & _).
    symmetry in Hs. apply app_eq_nil in Hs as [-> _].
    apply Hlang in L. simpl in L.
    rewrite Hp. simpl. rewrite Nat.add_0_r, Nat.sub_diag.
    destruct (attempt r true p pv []) as [st2|];
      rewrite ?count_app, <- ?L; simpl; lia.
  - destruct skip as [|k]; simpl; [|apply IH].
    destruct (attempt r false p pv (c0 :: t)) as [st|] eqn:E;
      [|simpl; by rewrite IH, drop_0].
    apply attempt_sound in E as (w & L & Hs & Hp & _).
    pose proof (Hlang _ L) as Hc.
    replace (pos st - p) with (length w) by lia.
    destruct w as [|x w']; simpl in *.
    + destruct (attempt r true p pv (c0 :: t)) as [st2|] eqn:E2.
      * apply attempt_sound in E2 as (w2 & L2 & Hs2 & Hp2 & Hne).
        pose proof (Hlang _ L2) as Hc2.
        destruct w2 as [|x2 w2']; [by destruct Hne|].
        simpl in *. injection Hs2 as <- ->.
        rewrite !count_app, IH.
        replace (pos st2 - p - 1) with (length w2') by lia.
        rewrite drop_app_length, ?count_app. lia.
      * rewrite count_app. simpl. rewrite IH, drop_0. lia.
    + injection Hs as <- ->.
      rewrite !count_app, IH, drop_app_length, ?count_app. lia.
Qed.

Lemma sub_count r repl c s :
  (forall w, lang r w -> count c w = count c repl) ->
  count c (sub r repl s) = count c s.
Proof. intros H. unfold sub. by rewrite (sub_from_count r repl c H). Qed.

End RegexFacts.

(* ===================================================================== *)
(** * The ternary balance of a repaired assign statement *)
(* ===================================================================== *)

Section AssignTernary.

Import Re ReLang AssignStatementPatcher AssignSteps.

(** Take a word of a pattern apart along the pattern. *)
Ltac lang_inv :=
  repeat match goal with
  | H : lang (Cat _ _) _ |- _ => inversion H; subst; clear H
  | H : lang (One _) _ |- _ => inversion H; subst; clear H
  | H : lang (Star _) _ |- _ => inversion H; subst; clear H
  | H : mem (CChar _) _ = true |- _ =>
      simpl in H; unfold Char.eqb in H; apply Ascii.eqb_eq in H; subst
  | H : mem CSpace ?c = true |- _ =>
      assert (Forall (fun c => mem CSpace c = true) [c])
        by (constructor; [exact H|constructor]);
      clear H
  end.

(** The words of a whitespace-and-operator pattern have the operator's
    characters and, for the rest, whitespace. *)
Ltac lang_count :=
  let w := fresh "w" in
  let H := fresh "H" in
  intros w H; vm_compute in H; lang_inv;
  rewrite ?count_app;
  repeat match goal with
  | Hs : Forall (fun c => mem CSpace c = true) ?s |- context [count ?c ?s] =>
      rewrite (count_Forall_0 (mem CSpace) c s eq_refl Hs)
  end;
  reflexivity.

Lemma count_iter_append (c : ascii) (x : str) (n : nat) (line : str) :
  count c (Nat.iter n (fun l => l ++ x) line) = count c line + n * count c x.
Proof.
  induction n as [|n IH]; simpl; [lia|]. rewrite count_app, IH. lia.
Qed.

Lemma fix_ternary_operator_questions (line : str) :
  count "?" (_fix_ternary_operator line) = count "?" line.
Proof.
  unfold _fix_ternary_operator.
  destruct (count ":" line <? count "?" line); [|done].
  rewrite count_iter_append. simpl. lia.
Qed.

Lemma fix_ternary_operator_colons (line : str) :
  count ":" (_fix_ternary_operator line)
  = Nat.max (count ":" line) (count "?" line).
Proof.
  unfold _fix_ternary_operator.
  destruct (Nat.ltb_spec (count ":" line) (count "?" line)); [|lia].
  rewrite count_iter_append. simpl. lia.
Qed.

Lemma after_balance_count (c : ascii) (line : str) :
  c = "?"%char \/ c = ":"%char -> count c (after_balance line) = count c line.
Proof.
  intros Hc. unfold after_balance.
  rewrite sub_count by (destruct Hc as [-> | ->]; lang_count).
  rewrite sub_count by (destruct Hc as [-> | ->]; lang_count).
  rewrite sub_count by (destruct Hc as [-> | ->]; lang_count).
  rewrite sub_count by (destruct Hc as [-> | ->]; lang_count).
  rewrite sub_count by (destruct Hc as [-> | ->]; lang_count).
  destruct (negb (endswith (strip line) (Str ";"))); [|done].
  rewrite count_app, count_rstrip by (by destruct Hc as [-> | ->]).
  destruct Hc as [-> | ->]; simpl; lia.
Qed.

Lemma less_equal_count (c : ascii) (line : str) :
  c = "?"%char \/ c = ":"%char ->
  count c (sub (Seq [Lit "<"; Star CSpace; Lit "="]) (Str "<=") line)
  = count c line.
Proof.
  intros Hc. apply sub_count. destruct Hc as [-> | ->]; lang_count.
Qed.

Lemma fix_assign_statement_unfold (assign_line : str) :
  _fix_assign_statement assign_line
  = if is_empty (strip assign_line) then assign_line
    else after_balance
           (_fix_ternary_operator
              (sub (Seq [Lit "<"; Star CSpace; Lit "="]) (Str "<=")
                 (_fix_complex_ternary assign_line))).
Proof. reflexivity. Qed.

Lemma blank_statement_counts (c : ascii) (s : str) :
  Char.is_space c = false -> is_empty (strip s) = true -> count c s = 0.
Proof.
  intros Hc Hs. destruct (strip s) eqn:E; [|done].
  by apply (count_Forall_0 Char.is_space), strip_nil_Forall.
Qed.

(** In a repaired statement the question marks are at most as many as the
    colons: each question mark without a colon gets a default branch.
    The two counts are equal when the statement had no more colons than
    question marks and the rewrite of a broken else-if fragment did not
    apply. *)
Lemma fix_assign_statement_counts (assign_line : str) :
  count "?" (_fix_assign_statement assign_line)
    <= count ":" (_fix_assign_statement assign_line)
  /\ (found complex_ternary_pattern assign_line = false ->
      count ":" assign_line <= count "?" assign_line ->
      count "?" (_fix_assign_statement assign_line)
      = count ":" (_fix_assign_statement assign_line)).
Proof.
  rewrite fix_assign_statement_unfold.
  destruct (is_empty (strip assign_line)) eqn:E.
  - rewrite !blank_statement_counts by done. split; [lia|done].
  - rewrite !after_balance_count by auto.
    rewrite fix_ternary_operator_questions, fix_ternary_operator_colons.
    split; [lia|]. intros Hnone Hle.
    unfold _fix_complex_ternary. rewrite Hnone.
    rewrite !less_equal_count by auto. lia.
Qed.

End AssignTernary.

(* ===================================================================== *)
(** * The loops with fuel always finish *)
(* ===================================================================== *)

(** The number of lines is enough fuel for every loop that takes some:
    each turn moves the index forward by at least one. *)
Section Totality.

Lemma collect_loop_consumed (rest parts : list str) (n : nat) :
  n <= (AssignStatementPatcher.collect_loop rest parts n).2.
Proof.
  revert parts n. induction rest as [|l rest IH]; intros parts n; simpl; [lia|].
  repeat case_match; simpl; try lia; (etrans; [|apply IH]; lia).
Qed.

Lemma collect_complete_assign_consumed (rtl_lines : list str) (i : nat) :
  1 <= (AssignStatementPatcher._collect_complete_assign rtl_lines i).2.
Proof.
  unfold AssignStatementPatcher._collect_complete_assign.
  pose proof (collect_loop_consumed (drop (i + 1) rtl_lines)
                [strip (getitem rtl_lines i)] 1) as H.
  destruct (AssignStatementPatcher.collect_loop _ _ _) as [parts n].
  simpl in H. by destruct (negb _ || _).
Qed.

Lemma assign_fix_loop_total (fuel : nat) (rtl_lines : list str) (i : nat)
    (self : AssignStatementPatcher.t) (acc : list str) :
  length rtl_lines - i <= fuel ->
  is_Some (AssignStatementPatcher.fix_loop fuel rtl_lines i self acc).
Proof.
  revert i self acc. induction fuel as [|fuel IH]; intros i self acc Hfuel; simpl.
  - destruct (rtl_lines !! i) eqn:E; [|done].
    apply lookup_lt_Some in E. lia.
  - destruct (rtl_lines !! i) eqn:E; [|done].
    apply lookup_lt_Some in E.
    pose proof (collect_complete_assign_consumed rtl_lines i) as Hc.
    destruct (AssignStatementPatcher._collect_complete_assign rtl_lines i)
      as [complete_assign lines_consumed].
    simpl in Hc. repeat case_match; apply IH; lia.
Qed.

Lemma fix_assign_statements_total (self : AssignStatementPatcher.t)
    (rtl_lines : list str) :
  is_Some (AssignStatementPatcher.fix_assign_statements self rtl_lines).
Proof. apply assign_fix_loop_total. lia. Qed.

Lemma fix_case_statements_total (self : CaseStatementPatcher.t)
    (rtl_lines : list str) :
  is_Some (CaseStatementPatcher.fix_case_statements self rtl_lines).
Proof.
  unfold CaseStatementPatcher.fix_case_statements.
  destruct (remove_empty_case_blocks_sublist
              (CaseStatementPatcher.Self (CaseStatementPatcher.case_stack self) 0 0)
              rtl_lines) as (kept & self1 & -> & _).
  done.
Qed.

Import GenerateBlockPatcher.

Lemma block_scan_ge (rest : list str) (j : nat) : j <= block_scan rest j.
Proof.
  revert j. induction rest as [|l rest IH]; intros j; simpl; [lia|].
  repeat case_match; try lia. specialize (IH (j + 1)). lia.
Qed.

Lemma collect_single_block_end (rtl_lines : list str) (i : nat) (b : block_info) :
  _collect_single_block rtl_lines i = Some b -> i <= end_idx b.
Proof.
  unfold _collect_single_block. repeat case_match; try done.
  intros [= <-]. simpl.
  pose proof (block_scan_ge (drop (i + 1) rtl_lines) (i + 1)). lia.
Qed.

Lemma orphan_loop_total (fuel : nat) (rtl_lines : list str) (cur : nat)
    (blocks : list block_info) (g : bool) :
  length rtl_lines - cur <= fuel ->
  exists bs cur' g',
    orphan_loop fuel rtl_lines cur blocks g = Some (bs, cur', g')
    /\ cur <= cur' /\ (bs = blocks \/ cur < cur').
Proof.
  revert cur blocks g.
  induction fuel as [|fuel IH]; intros cur blocks g Hfuel; simpl.
  - destruct (rtl_lines !! cur) eqn:E; [|by eauto 10].
    apply lookup_lt_Some in E. lia.
  - destruct (rtl_lines !! cur) eqn:E; [|by eauto 10].
    apply lookup_lt_Some in E.
    destruct (_is_orphan_generate_block (strip l)); [|by eauto 10].
    destruct (_collect_single_block rtl_lines cur) as [b|] eqn:Eb; [|by eauto 10].
    apply collect_single_block_end in Eb.
    edestruct (IH (end_idx b + 1) (blocks ++ [b])) as (bs & cur' & g' & -> & Hle & _);
      [lia|].
    exists bs, cur', g'. split; [done|]. split; [lia|]. right. lia.
Qed.

Lemma collect_orphan_blocks_total (rtl_lines : list str) (i : nat) :
  exists info,
    _collect_orphan_blocks rtl_lines i = Some info
    /\ (blocks info <> [] -> i < group_end_idx info + 1).
Proof.
  unfold _collect_orphan_blocks.
  destruct (orphan_loop_total (length rtl_lines) rtl_lines i [] false)
    as (bs & cur' & g' & -> & Hle & Hcur); [lia|].
  eexists. split; [done|]. simpl. intros Hne.
  destruct Hcur as [-> | Hlt]; [done|]. destruct bs; [done|lia].
Qed.

Lemma generate_fix_loop_total (fuel : nat) (rtl_lines : list str) (i : nat)
    (self : t) (acc : list str) :
  length rtl_lines - i <= fuel -> is_Some (fix_loop fuel rtl_lines i self acc).
Proof.
  revert i self acc. induction fuel as [|fuel IH]; intros i self acc Hfuel; simpl.
  - destruct (rtl_lines !! i) eqn:E; [|done].
    apply lookup_lt_Some in E. lia.
  - destruct (rtl_lines !! i) eqn:E; [|done].
    apply lookup_lt_Some in E.
    destruct (_is_orphan_generate_block (strip l)); [|apply IH; lia].
    destruct (collect_orphan_blocks_total rtl_lines i) as (info & -> & Hnext).
    destruct (blocks info) eqn:Eb; [apply IH; lia|].
    destruct (_wrap_with_generate self info rtl_lines).
    apply IH. specialize (Hnext ltac:(done)). lia.
Qed.

Lemma fix_generate_blocks_total (self : t) (rtl_lines : list str) :
  is_Some (fix_generate_blocks self rtl_lines).
Proof. apply generate_fix_loop_total. lia. Qed.

(** The whole pipeline returns a result on every input. *)
Lemma fix_all_syntax_errors_total (self : SyntaxErrorPatcher.t)
    (rtl_lines : list str) :
  is_Some (SyntaxErrorPatcher.fix_all_syntax_errors self rtl_lines).
Proof.
  unfold SyntaxErrorPatcher.fix_all_syntax_errors.
  destruct (fix_assign_statements_total
              (SyntaxErrorPatcher.assign_patcher self) rtl_lines)
    as [[l1 p1] ->]. simpl.
  destruct (fix_case_statements_total (SyntaxErrorPatcher.case_patcher self) l1)
    as [[l2 p2] ->]. simpl.
  destruct (IfElsePatcher.fix_if_else_statements _ l2) as [l3 p3].
  destruct (AlwaysBlockPatcher.fix_always_blocks _ l3) as [l4 p4].
  destruct (fix_generate_blocks_total
              (SyntaxErrorPatcher.generate_patcher self) l4)
    as [[l5 p5] ->]. simpl. done.
Qed.

End Totality.

(* ===================================================================== *)
(** * The lines the Assign pass emits *)
(* ===================================================================== *)

Section AssignEmitted.

Import Re AssignStatementPatcher AssignOutput.

Lemma count_strip (c : ascii) (s : str) :
  Char.is_space c = false -> count c (strip s) = count c s.
Proof.
  intros Hc. unfold strip, lstrip. by rewrite count_rstrip, count_drop_while.
Qed.

Lemma merge_ternary_lines_count (c : ascii) (prev_line line : str) :
  c = "?"%char \/ c = ":"%char ->
  count c (_merge_ternary_lines prev_line line)
  = count c prev_line + count c line.
Proof.
  intros Hc. unfold _merge_ternary_lines.
  rewrite !count_app, count_rstrip, count_strip
    by (by destruct Hc as [-> | ->]).
  destruct Hc as [-> | ->]; simpl; lia.
Qed.

Lemma fix_incomplete_assignment_count (line : str) :
  count "?" (_fix_incomplete_assignment line) = count "?" line
  /\ count ":" (_fix_incomplete_assignment line)
     = count ":" line + (if endswith (strip line) (Str "?") then 1 else 0).
Proof.
  unfold _fix_incomplete_assignment, endswith.
  change (rev (Str "=")) with ["="%char].
  change (rev (Str "<=")) with ["="%char; "<"%char].
  change (rev (Str "?")) with ["?"%char].
  change (rev (Str ":")) with [":"%char].
  assert (Hnil : forall r : str, startswith r [] = true) by (by intros [|]).
  destruct (rev (strip line)) as [|c r]; cbn [startswith]; [split; lia|].
  unfold Char.eqb.
  destruct (Ascii.eqb_spec "="%char c) as [<-|H1];
    [|destruct (Ascii.eqb_spec "?"%char c) as [<-|H2];
      [|destruct (Ascii.eqb_spec ":"%char c) as [<-|H3]]];
    rewrite ?Hnil; cbn -[rstrip count]; rewrite ?count_app, ?count_rstrip by done;
    simpl; lia.
Qed.

Lemma append_fixed_emitted (rtl_lines stmts : list str) : forall fixed_lines,
  Forall (emitted rtl_lines) fixed_lines ->
  Forall (emitted rtl_lines) (append_fixed stmts fixed_lines).
Proof.
  induction stmts as [|s stmts IH]; intros fixed_lines H; cbn [append_fixed]; [done|].
  apply IH. destruct (negb _); [|done].
  apply Forall_app. split; [done|].
  constructor; [apply em_repaired|constructor].
Qed.

Lemma last_removelast {A} (l : list A) (x : A) :
  last l = Some x -> l = removelast l ++ [x].
Proof.
  intros H. destruct (last_Some l x) as [[l' ->] _]; [done|].
  by rewrite removelast_last.
Qed.

Lemma assign_fix_loop_emitted (rtl_lines : list str) : forall fuel i self acc out self',
  fix_loop fuel rtl_lines i self acc = Some (out, self') ->
  Forall (emitted rtl_lines) acc ->
  Forall (emitted rtl_lines) out.
Proof.
  induction fuel as [|fuel IH]; intros i self acc out self'; cbn [fix_loop].
  - destruct (rtl_lines !! i); [done|]. by intros [= <- <-].
  - destruct (rtl_lines !! i) as [line|] eqn:E; [|by intros [= <- <-]].
    assert (Hin : line ∈ rtl_lines) by (by eapply list_elem_of_lookup_2).
    destruct (_is_assign_start (strip line)) eqn:Ea.
    { destruct (_collect_complete_assign rtl_lines i) as [complete_assign n].
      destruct (1 <? length (_split_multiple_assigns complete_assign)).
      - intros Hrun Hacc. eapply IH; [exact Hrun|].
        by apply append_fixed_emitted.
      - intros Hrun Hacc. eapply IH; [exact Hrun|].
        destruct (negb (is_empty _)); [|done].
        apply Forall_app. split; [done|].
        constructor; [apply em_repaired|constructor]. }
    assert (Hkeep : forall self0,
              fix_loop fuel rtl_lines (i + 1) self0 (acc ++ [line]) = Some (out, self') ->
              Forall (emitted rtl_lines) acc -> Forall (emitted rtl_lines) out).
    { intros self0 Hrun Hacc. eapply IH; [exact Hrun|].
      apply Forall_app. split; [done|].
      constructor; [by apply em_kept|constructor]. }
    destruct (_is_orphan_ternary_part (strip line)) eqn:Eo.
    { destruct (last acc) as [prev_line|] eqn:El; [|apply Hkeep].
      destruct (_can_merge_with_previous prev_line line) eqn:Em; [|apply Hkeep].
      intros Hrun Hacc. eapply IH; [exact Hrun|].
      rewrite (last_removelast _ _ El) in Hacc.
      apply Forall_app in Hacc as [Hfront Hprev].
      apply Forall_app. split; [done|].
      constructor; [|constructor].
      apply em_merged; try done. by inversion Hprev. }
    destruct (_is_incomplete_assignment (strip line)) eqn:Ei; [|apply Hkeep].
    intros Hrun Hacc. eapply IH; [exact Hrun|].
    apply Forall_app. split; [done|]. constructor; [|constructor].
    by apply em_completed.
Qed.

(** C6, counterexample.  Four lines the Assign pass emits in which the two
    counts differ: a repaired statement with a bit range, with one colon
    and no question mark; a repaired statement with an orphan part merged
    into it, with one question mark and no colon; an incomplete assignment
    completed with both default branches, with two question marks and one
    colon; and a line that is no assign statement, kept with its one
    question mark and no colon. *)
Lemma assign_pass_unbalanced :
  (fix_assign_statements new [Line "assign a = b[3:0];"]
   = Some ([Str "assign a = b[3 : 0];"], Self 1 0)
   /\ count "?" (Str "assign a = b[3 : 0];") = 0
   /\ count ":" (Str "assign a = b[3 : 0];") = 1)
  /\ (fix_assign_statements new [Line "assign y = a;"; Line "? b"]
      = Some ([Str "assign y = a; ? b"], Self 1 0)
      /\ count "?" (Str "assign y = a; ? b") = 1
      /\ count ":" (Str "assign y = a; ? b") = 0)
  /\ (fix_assign_statements new [Line "y = a ? b ?"]
      = Some ([Str "y = a ? b ? 1'b1 : 1'b0;"], Self 1 0)
      /\ count "?" (Str "y = a ? b ? 1'b1 : 1'b0;") = 2
      /\ count ":" (Str "y = a ? b ? 1'b1 : 1'b0;") = 1)
  /\ (fix_assign_statements new [Line "y = a ? b;"]
      = Some ([Line "y = a ? b;"], Self 0 0)
      /\ count "?" (Line "y = a ? b;") = 1
      /\ count ":" (Line "y = a ? b;") = 0).
Proof. vm_compute. repeat split. Qed.

(** C6, as amended.  The Assign pass returns on every input, and every
    line it emits is an input line kept as it is, a statement that went
    through the statement repair, an emitted line with an orphan part
    merged into it, or an incomplete assignment completed.  In a repaired
    statement the question marks are at most as many as the colons, and
    as many when the statement had no more colons than question marks and
    the rewrite of a broken else-if fragment did not apply.  A merged
    line has the question marks and the colons of its two parts.  A
    completed line has the question marks of the input line and its
    colons, one more when the line ended with a question mark. *)
Theorem assign_pass_ternary_counts (self : t) (rtl_lines : list str) :
  exists out self',
    fix_assign_statements self rtl_lines = Some (out, self')
    /\ Forall (emitted rtl_lines) out
    /\ (forall assign_stmt,
          count "?" (_fix_assign_statement assign_stmt)
            <= count ":" (_fix_assign_statement assign_stmt)
          /\ (found complex_ternary_pattern assign_stmt = false ->
              count ":" assign_stmt <= count "?" assign_stmt ->
              count "?" (_fix_assign_statement assign_stmt)
              = count ":" (_fix_assign_statement assign_stmt)))
    /\ (forall prev_line line,
          count "?" (_merge_ternary_lines prev_line line)
          = count "?" prev_line + count "?" line
          /\ count ":" (_merge_ternary_lines prev_line line)
             = count ":" prev_line + count ":" line)
    /\ (forall line,
          count "?" (_fix_incomplete_assignment line) = count "?" line
          /\ count ":" (_fix_incomplete_assignment line)
             = count ":" line
               + (if endswith (strip line) (Str "?") then 1 else 0)).
Proof.
  destruct (fix_assign_statements_total self rtl_lines) as [[out self'] Hrun].
  exists out, self'. split; [done|]. split.
  { unfold fix_assign_statements in Hrun.
    eapply assign_fix_loop_emitted; [exact Hrun|constructor]. }
  split; [apply fix_assign_statement_counts|].
  split; [|apply fix_incomplete_assignment_count].
  intros prev_line line. split; apply merge_ternary_lines_count; auto.
Qed.

(** The theorem at an input with one statement that has a question mark
    and no colon. *)
Lemma assign_pass_ternary_counts_witness :
  exists out self',
    fix_assign_statements new [Line "assign a = b ? c"] = Some (out, self')
    /\ Forall (emitted [Line "assign a = b ? c"]) out
    /\ count "?" (_fix_assign_statement (Str "assign a = b ? c"))
       = count ":" (_fix_assign_statement (Str "assign a = b ? c")).
Proof.
  destruct (assign_pass_ternary_counts new [Line "assign a = b ? c"])
    as (out & self' & Hrun & Hem & Hrep & _).
  exists out, self'. split; [exact Hrun|]. split; [exact Hem|].
  apply (proj2 (Hrep (Str "assign a = b ? c"))); [reflexivity|vm_compute; lia].
Defined.

End AssignEmitted.

(* ===================================================================== *)
(** * Which passes start from fresh counters *)
(* ===================================================================== *)

(** The Assign, Case and If-Else passes set their counters on entry, so
    what they return does not depend on the instance they are called on;
    the Always and Generate passes add to the counters they find. *)
Section Reentrancy.

Lemma assign_pass_reentrant (self1 self2 : AssignStatementPatcher.t)
    (rtl_lines : list str) :
  AssignStatementPatcher.fix_assign_statements self1 rtl_lines
  = AssignStatementPatcher.fix_assign_statements self2 rtl_lines.
Proof. reflexivity. Qed.

Lemma if_else_pass_reentrant (self1 self2 : IfElsePatcher.t)
    (rtl_lines : list str) :
  IfElsePatcher.fix_if_else_statements self1 rtl_lines
  = IfElsePatcher.fix_if_else_statements self2 rtl_lines.
Proof. reflexivity. Qed.

Lemma case_pass_reentrant (self1 self2 : CaseStatementPatcher.t)
    (rtl_lines : list str) :
  CaseStatementPatcher.fix_case_statements self1 rtl_lines
  = CaseStatementPatcher.fix_case_statements self2 rtl_lines.
Proof.
  unfold CaseStatementPatcher.fix_case_statements,
    CaseStatementPatcher._remove_empty_case_blocks.
  destruct (CaseStatementPatcher._identify_case_structures rtl_lines)
    as [structures|]; [|done].
  by destruct (map _ (filter _ structures)).
Qed.

Lemma always_pass_adds (rest rtl_lines : list str) (i : nat)
    (self : AlwaysBlockPatcher.t) (acc : list str) :
  AlwaysBlockPatcher.incomplete_blocks_fixed self
  <= AlwaysBlockPatcher.incomplete_blocks_fixed
       (AlwaysBlockPatcher.fix_loop rtl_lines rest i self acc).2.
Proof.
  revert i self acc. induction rest as [|l rest IH]; intros i self acc; simpl.
  - lia.
  - case_match; (etrans; [|apply IH]); simpl; lia.
Qed.

End Reentrancy.

(* ===================================================================== *)
(** * The Always pass line by line *)
(* ===================================================================== *)

Section AlwaysPass.

Import AlwaysBlockPatcher Quiet.

Lemma always_fix_loop_spec (rtl_lines rest : list str) (i : nat) (self : t)
    (acc : list str) :
  fix_loop rtl_lines rest i self acc
  = (acc ++ imap (fun j l => if is_incomplete_header l
                             then _fix_incomplete_always_block l rtl_lines (i + j)
                             else l) rest,
     Self (fixes_made self)
       (incomplete_blocks_fixed self + length (List.filter is_incomplete_header rest))
       (orphan_begin_blocks_fixed self)).
Proof.
  revert i self acc. induction rest as [|l rest IH]; intros i self acc; simpl.
  - rewrite app_nil_r, Nat.add_0_r. by destruct self.
  - assert (Htail : imap ((fun j x => if is_incomplete_header x
                                      then _fix_incomplete_always_block x rtl_lines (i + j)
                                      else x) ∘ S) rest
                   = imap (fun j x => if is_incomplete_header x
                                      then _fix_incomplete_always_block x rtl_lines (i + 1 + j)
                                      else x) rest).
    { apply imap_ext. intros j x _. simpl.
      by replace (i + S j) with (i + 1 + j) by lia. }
    rewrite Htail, Nat.add_0_r. unfold is_incomplete_header at 1 3.
    destruct (_is_incomplete_always_block (strip l)) eqn:E; rewrite IH; simpl;
      rewrite <- app_assoc; simpl; do 2 f_equal; lia.
Qed.

(** X1.  The Always pass keeps the number of lines, leaves every line that is
    not an incomplete header where and as it was, and adds to its
    counter the number of incomplete headers it met. *)
Theorem always_pass_keeps_body (self : t) (rtl_lines : list str) :
  length (fix_always_blocks self rtl_lines).1 = length rtl_lines
  /\ (forall i l, rtl_lines !! i = Some l ->
        is_incomplete_header l = false ->
        (fix_always_blocks self rtl_lines).1 !! i = Some l)
  /\ incomplete_blocks_fixed (fix_always_blocks self rtl_lines).2
     = incomplete_blocks_fixed self
       + length (List.filter is_incomplete_header rtl_lines).
Proof.
  unfold fix_always_blocks. rewrite always_fix_loop_spec. simpl.
  split; [by rewrite length_imap|]. split; [|done].
  intros i l Hl Hinc. rewrite list_lookup_imap, Hl. simpl. by rewrite Hinc.
Qed.

(** The theorem at the body line of a two-line block. *)
Lemma always_pass_keeps_body_witness :
  [Line "always"; Line "  y = x;"] !! 1 = Some (Line "  y = x;")
  /\ is_incomplete_header (Line "  y = x;") = false
  /\ (fix_always_blocks new [Line "always"; Line "  y = x;"]).1 !! 1
     = Some (Line "  y = x;").
Proof.
  split; [reflexivity|]. split; [reflexivity|].
  apply (proj1 (proj2 (always_pass_keeps_body new
                         [Line "always"; Line "  y = x;"])));
    reflexivity.
Defined.

End AlwaysPass.

(* ===================================================================== *)
(** * Inputs on which a pass changes nothing *)
(* ===================================================================== *)

Section QuietInputs.

Import Quiet.

Lemma forallb_imap_cons {A} (f : nat -> A -> bool) (x : A) (l : list A) :
  forallb (fun b : bool => b) (imap f (x :: l))
  = f 0 x && forallb (fun b : bool => b) (imap (f ∘ S) l).
Proof. reflexivity. Qed.

Lemma rewrite_loop_quiet (pairs : gmap nat IfElsePatcher.pair_info)
    (rest : list str) (i : nat) (self : IfElsePatcher.t) (acc : list str) :
  forallb (fun b : bool => b)
    (imap (fun j l => negb (IfElsePolicy.is_else_like l)
                      || IfElsePatcher.is_paired pairs (i + j)) rest) = true ->
  IfElsePatcher.rewrite_loop pairs rest i self acc = (acc ++ rest, self).
Proof.
  revert i self acc. induction rest as [|l rest IH]; intros i self acc H; simpl.
  - by rewrite app_nil_r.
  - rewrite forallb_imap_cons in H. apply andb_prop in H as [Hl Hrest].
    rewrite Nat.add_0_r in Hl. unfold IfElsePolicy.is_else_like in Hl.
    assert (Hnext : IfElsePatcher.rewrite_loop pairs rest (i + 1) self (acc ++ [l])
                    = (acc ++ l :: rest, self)).
    { rewrite IH; [by rewrite <- app_assoc|].
      erewrite imap_ext; [exact Hrest|]. intros j x _. simpl.
      by replace (i + 1 + j) with (i + S j) by lia. }
    destruct (IfElsePatcher._is_else_statement (strip l)
              || IfElsePatcher._is_else_if_statement (strip l)); [|done].
    simpl in Hl. by rewrite Hl.
Qed.

(** X2.  When every [else] and [else if] line of the input has its [if], in
    particular when the input has none, the If-Else pass returns the
    input as it is and reports no fix. *)
Theorem if_else_pass_quiet (self : IfElsePatcher.t) (rtl_lines : list str) :
  every_else_paired rtl_lines = true ->
  IfElsePatcher.fix_if_else_statements self rtl_lines
  = (rtl_lines, IfElsePatcher.Self 0).
Proof.
  intros H. unfold IfElsePatcher.fix_if_else_statements.
  rewrite rewrite_loop_quiet; [done|]. exact H.
Qed.

(** The theorem at an [if] with its [else]. *)
Lemma if_else_pass_quiet_witness :
  every_else_paired
    [Line "if (a)"; Line "  y <= 1;"; Line "else"; Line "  y <= 0;"] = true
  /\ IfElsePatcher.fix_if_else_statements IfElsePatcher.new
       [Line "if (a)"; Line "  y <= 1;"; Line "else"; Line "  y <= 0;"]
     = ([Line "if (a)"; Line "  y <= 1;"; Line "else"; Line "  y <= 0;"],
        IfElsePatcher.Self 0).
Proof.
  split; [reflexivity|].
  apply (if_else_pass_quiet IfElsePatcher.new
           [Line "if (a)"; Line "  y <= 1;"; Line "else"; Line "  y <= 0;"]).
  reflexivity.
Defined.

End QuietInputs.

(* ===================================================================== *)
(** * Inputs on which the other passes change nothing *)
(* ===================================================================== *)

Section QuietPasses.

Import Quiet.

Lemma forallb_lookup {A} (f : A -> bool) (l : list A) (i : nat) (x : A) :
  forallb f l = true -> l !! i = Some x -> f x = true.
Proof.
  intros H Hx. rewrite forallb_forall in H. apply H.
  apply list_elem_of_In. by eapply list_elem_of_lookup_2.
Qed.

Lemma drop_lookup_cons {A} (l : list A) (i : nat) (x : A) :
  l !! i = Some x -> drop i l = x :: drop (S i) l.
Proof. intros H. by rewrite (drop_S l x i H). Qed.

Lemma drop_lookup_nil {A} (l : list A) (i : nat) :
  l !! i = None -> drop i l = [].
Proof. intros H. apply drop_ge. by apply lookup_ge_None. Qed.

(** ** The Assign pass *)

Lemma assign_fix_loop_quiet (fuel : nat) (rtl_lines : list str) (i : nat)
    (self : AssignStatementPatcher.t) (acc : list str) :
  no_assign_trigger rtl_lines = true ->
  length rtl_lines - i <= fuel ->
  AssignStatementPatcher.fix_loop fuel rtl_lines i self acc
  = Some (acc ++ drop i rtl_lines, self).
Proof.
  intros Hq. revert i self acc.
  induction fuel as [|fuel IH]; intros i self acc Hfuel; simpl.
  - destruct (rtl_lines !! i) eqn:E.
    + apply lookup_lt_Some in E. lia.
    + by rewrite (drop_lookup_nil _ _ E), app_nil_r.
  - destruct (rtl_lines !! i) as [l|] eqn:E.
    + pose proof (forallb_lookup _ _ _ _ Hq E) as Hl.
      unfold is_assign_trigger in Hl. apply negb_true_iff in Hl.
      apply orb_false_elim in Hl as [Hl H3]. apply orb_false_elim in Hl as [H1 H2].
      rewrite H1, H2, H3, IH by (apply lookup_lt_Some in E; lia).
      rewrite (drop_lookup_cons _ _ _ E), <- app_assoc. simpl.
      by replace (i + 1) with (S i) by lia.
    + by rewrite (drop_lookup_nil _ _ E), app_nil_r.
Qed.

(** X3.  On an input with no assign statement, no line that begins with a
    ternary or bitwise operator and no line that ends in an assignment
    operator, question mark or colon, the Assign pass returns the input as
    it is with both counters at zero. *)
Theorem assign_pass_quiet (self : AssignStatementPatcher.t) (rtl_lines : list str) :
  no_assign_trigger rtl_lines = true ->
  AssignStatementPatcher.fix_assign_statements self rtl_lines
  = Some (rtl_lines, AssignStatementPatcher.Self 0 0).
Proof.
  intros H. unfold AssignStatementPatcher.fix_assign_statements.
  rewrite assign_fix_loop_quiet by (done || lia). by rewrite drop_0.
Qed.

Lemma assign_pass_quiet_witness :
  no_assign_trigger [Line "module m;"; Line "  wire w;"; Line "endmodule"] = true
  /\ AssignStatementPatcher.fix_assign_statements AssignStatementPatcher.new
       [Line "module m;"; Line "  wire w;"; Line "endmodule"]
     = Some ([Line "module m;"; Line "  wire w;"; Line "endmodule"],
             AssignStatementPatcher.Self 0 0).
Proof.
  split; [reflexivity|].
  apply (assign_pass_quiet AssignStatementPatcher.new
           [Line "module m;"; Line "  wire w;"; Line "endmodule"]).
  reflexivity.
Defined.

(** ** The Case pass *)

Lemma identify_loop_quiet (fuel : nat) (rtl_lines : list str) (i : nat)
    (acc : list CaseStatementPatcher.case_struct) :
  no_case_opening rtl_lines = true ->
  length rtl_lines - i <= fuel ->
  CaseStatementPatcher.identify_loop fuel rtl_lines i acc = Some acc.
Proof.
  intros Hq. revert i.
  induction fuel as [|fuel IH]; intros i Hfuel; simpl.
  - destruct (rtl_lines !! i) eqn:E; [|done]. apply lookup_lt_Some in E. lia.
  - destruct (rtl_lines !! i) as [l|] eqn:E; [|done].
    pose proof (forallb_lookup _ _ _ _ Hq E) as Hl.
    apply negb_true_iff in Hl. unfold CaseLines.is_opening in Hl.
    rewrite Hl. apply IH. apply lookup_lt_Some in E. lia.
Qed.

Lemma endcase_loop_quiet (rest : list str) (i : nat)
    (self : CaseStatementPatcher.t) (acc : list str) :
  CaseStatementPatcher.case_stack self = [] ->
  no_case_opening rest = true ->
  CaseStatementPatcher.endcase_loop rest i self acc = (acc ++ rest, self).
Proof.
  revert i acc. induction rest as [|l rest IH]; intros i acc Hs Hq; simpl.
  - by rewrite app_nil_r.
  - simpl in Hq. apply andb_prop in Hq as [Hl Hq].
    apply negb_true_iff in Hl. unfold CaseLines.is_opening in Hl. rewrite Hl.
    assert (Hself : CaseStatementPatcher.Self
                      (tail (CaseStatementPatcher.case_stack self))
                      (CaseStatementPatcher.fixed_count self)
                      (CaseStatementPatcher.removed_count self) = self).
    { destruct self. simpl in *. by subst. }
    rewrite Hself, Hs. simpl. rewrite andb_false_r.
    rewrite !IH by done. rewrite <- app_assoc. simpl. by repeat case_match.
Qed.

(** X4.  On an input that opens no [case], the Case pass returns the input as
    it is, stray [endcase] lines included, with both counters at zero. *)
Theorem case_pass_quiet (self : CaseStatementPatcher.t) (rtl_lines : list str) :
  no_case_opening rtl_lines = true ->
  CaseStatementPatcher.fix_case_statements self rtl_lines
  = Some (rtl_lines, CaseStatementPatcher.Self [] 0 0).
Proof.
  intros H.
  unfold CaseStatementPatcher.fix_case_statements,
    CaseStatementPatcher._remove_empty_case_blocks,
    CaseStatementPatcher._identify_case_structures.
  rewrite identify_loop_quiet by (done || lia). simpl.
  unfold CaseStatementPatcher._fix_missing_endcase. simpl.
  by rewrite endcase_loop_quiet.
Qed.

Lemma case_pass_quiet_witness :
  no_case_opening [Line "always @(*) begin"; Line "  y = x;"; Line "end"] = true
  /\ CaseStatementPatcher.fix_case_statements CaseStatementPatcher.new
       [Line "always @(*) begin"; Line "  y = x;"; Line "end"]
     = Some ([Line "always @(*) begin"; Line "  y = x;"; Line "end"],
             CaseStatementPatcher.Self [] 0 0).
Proof.
  split; [reflexivity|].
  apply (case_pass_quiet CaseStatementPatcher.new
           [Line "always @(*) begin"; Line "  y = x;"; Line "end"]).
  reflexivity.
Defined.

(** ** The final cleanup *)

Lemma cleanup_loop_keeps (rest acc : list str) :
  acc ++ List.filter (fun l => negb (is_orphan_line l)) rest
  `sublist_of` SyntaxErrorPatcher.cleanup_loop rest acc.
Proof.
  revert acc. induction rest as [|l rest IH]; intros acc; simpl.
  - by rewrite app_nil_r.
  - unfold is_orphan_line at 1.
    destruct (SyntaxErrorPatcher._is_obvious_orphan_operator (strip l)); simpl;
      [apply IH|].
    destruct (SyntaxErrorPatcher._needs_genvar_declaration (strip l) acc).
    + etrans; [|apply IH]. simpl. rewrite <- app_assoc. simpl.
      apply sublist_app; [done|]. by apply sublist_cons.
    + etrans; [|apply IH]. by rewrite <- app_assoc.
Qed.

(** X5.  The final cleanup never loses a line that is not a lone operator:
    those lines, in their order, are part of its output. *)
Theorem cleanup_keeps_other_lines (rtl_lines : list str) :
  List.filter (fun l => negb (is_orphan_line l)) rtl_lines
  `sublist_of` SyntaxErrorPatcher._conservative_cleanup rtl_lines.
Proof. apply (cleanup_loop_keeps rtl_lines []). Qed.

Lemma cleanup_loop_no_genvar (rest acc : list str) :
  no_genvar rest = true ->
  SyntaxErrorPatcher.cleanup_loop rest acc
  = acc ++ List.filter (fun l => negb (is_orphan_line l)) rest.
Proof.
  revert acc. induction rest as [|l rest IH]; intros acc Hq; simpl.
  - by rewrite app_nil_r.
  - change (negb (contains (Str "genvar") (strip l)) && no_genvar rest = true) in Hq.
    apply andb_prop in Hq as [Hl Hq]. apply negb_true_iff in Hl.
    unfold is_orphan_line at 1.
    destruct (SyntaxErrorPatcher._is_obvious_orphan_operator (strip l)); simpl;
      [by apply IH|].
    unfold SyntaxErrorPatcher._needs_genvar_declaration. rewrite Hl. simpl.
    rewrite IH by done. by rewrite <- app_assoc.
Qed.

(** X6.  On an input in which no line mentions genvar, the final cleanup is
    exactly the removal of the lone operator lines. *)
Theorem cleanup_without_genvar (rtl_lines : list str) :
  no_genvar rtl_lines = true ->
  SyntaxErrorPatcher._conservative_cleanup rtl_lines
  = List.filter (fun l => negb (is_orphan_line l)) rtl_lines.
Proof. intros H. by apply (cleanup_loop_no_genvar rtl_lines []). Qed.

Lemma cleanup_without_genvar_witness :
  no_genvar [Line "assign y = a"; Line "  +"; Line "  b;"] = true
  /\ SyntaxErrorPatcher._conservative_cleanup
       [Line "assign y = a"; Line "  +"; Line "  b;"]
     = [Line "assign y = a"; Line "  b;"].
Proof.
  split; [reflexivity|].
  apply (cleanup_without_genvar [Line "assign y = a"; Line "  +"; Line "  b;"]).
  reflexivity.
Defined.

(** ** Indentation *)

(** X7.  The indentation the Always, Generate and cleanup code takes from a
    line is whitespace only and, put in front of the left-stripped line,
    gives the line back. *)
Theorem indent_and_content (line : str) :
  SyntaxErrorPatcher._get_indent line ++ lstrip line = line
  /\ AlwaysBlockPatcher._get_indent line ++ lstrip line = line
  /\ GenerateBlockPatcher._get_indent line ++ lstrip line = line
  /\ Forall (fun c => Char.is_space c = true) (SyntaxErrorPatcher._get_indent line).
Proof.
  unfold SyntaxErrorPatcher._get_indent, AlwaysBlockPatcher._get_indent,
    GenerateBlockPatcher._get_indent, lstrip.
  rewrite take_length_drop_while, take_while_drop_while.
  repeat split. apply take_while_Forall.
Qed.

End QuietPasses.

(* ===================================================================== *)
(** * The pipeline on an input with nothing to repair *)
(* ===================================================================== *)

Section QuietPipeline.

Import Quiet.

Lemma always_fix_loop_quiet (rtl_lines rest : list str) (i : nat)
    (self : AlwaysBlockPatcher.t) (acc : list str) :
  no_incomplete_header rest = true ->
  AlwaysBlockPatcher.fix_loop rtl_lines rest i self acc = (acc ++ rest, self).
Proof.
  revert i acc. induction rest as [|l rest IH]; intros i acc Hq; simpl.
  - by rewrite app_nil_r.
  - change (negb (is_incomplete_header l) && no_incomplete_header rest = true) in Hq.
    apply andb_prop in Hq as [Hl Hq]. apply negb_true_iff in Hl.
    unfold is_incomplete_header in Hl. rewrite Hl, IH by done.
    by rewrite <- app_assoc.
Qed.

Lemma generate_fix_loop_quiet (fuel : nat) (rtl_lines : list str) (i : nat)
    (self : GenerateBlockPatcher.t) (acc : list str) :
  no_labeled_begin rtl_lines = true ->
  length rtl_lines - i <= fuel ->
  GenerateBlockPatcher.fix_loop fuel rtl_lines i self acc
  = Some (acc ++ drop i rtl_lines, self).
Proof.
  intros Hq. revert i acc.
  induction fuel as [|fuel IH]; intros i acc Hfuel; simpl.
  - destruct (rtl_lines !! i) eqn:E.
    + apply lookup_lt_Some in E. lia.
    + by rewrite (drop_lookup_nil _ _ E), app_nil_r.
  - destruct (rtl_lines !! i) as [l|] eqn:E.
    + pose proof (forallb_lookup _ _ _ _ Hq E) as Hl. apply negb_true_iff in Hl.
      rewrite Hl, IH by (apply lookup_lt_Some in E; lia).
      rewrite (drop_lookup_cons _ _ _ E), <- app_assoc. simpl.
      by replace (i + 1) with (S i) by lia.
    + by rewrite (drop_lookup_nil _ _ E), app_nil_r.
Qed.

(** X8.  On an input without a labeled begin line the Generate pass returns the
    input as it is and leaves its counters alone. *)
Theorem generate_pass_quiet (self : GenerateBlockPatcher.t) (rtl_lines : list str) :
  no_labeled_begin rtl_lines = true ->
  GenerateBlockPatcher.fix_generate_blocks self rtl_lines = Some (rtl_lines, self).
Proof.
  intros H. unfold GenerateBlockPatcher.fix_generate_blocks.
  rewrite generate_fix_loop_quiet by (done || lia). by rewrite drop_0.
Qed.

Lemma generate_pass_quiet_witness :
  no_labeled_begin [Line "generate"; Line "  begin"; Line "  end"; Line "endgenerate"]
  = true
  /\ GenerateBlockPatcher.fix_generate_blocks GenerateBlockPatcher.new
       [Line "generate"; Line "  begin"; Line "  end"; Line "endgenerate"]
     = Some ([Line "generate"; Line "  begin"; Line "  end"; Line "endgenerate"],
             GenerateBlockPatcher.new).
Proof.
  split; [reflexivity|].
  apply (generate_pass_quiet GenerateBlockPatcher.new
           [Line "generate"; Line "  begin"; Line "  end"; Line "endgenerate"]).
  reflexivity.
Defined.

(** X9.  When no step finds anything to repair (no assign statement, dangling
    operator or open assignment, no case opening, every else paired, no
    incomplete always header, no labeled begin, no lone operator line and
    no mention of genvar), a fresh orchestrator returns the input as it is
    and is itself as fresh as before: no counter has moved. *)
Theorem pipeline_quiet (rtl_lines : list str) :
  nothing_to_repair rtl_lines = true ->
  SyntaxErrorPatcher.fix_all_syntax_errors SyntaxErrorPatcher.new rtl_lines
  = Some (rtl_lines, SyntaxErrorPatcher.new).
Proof.
  unfold nothing_to_repair. intros H.
  repeat (apply andb_prop in H as [H ?]).
  unfold SyntaxErrorPatcher.fix_all_syntax_errors,
    AssignStatementPatcher.fix_assign_statements.
  rewrite assign_fix_loop_quiet by (done || lia). rewrite drop_0. simpl.
  unfold CaseStatementPatcher.fix_case_statements,
    CaseStatementPatcher._remove_empty_case_blocks,
    CaseStatementPatcher._identify_case_structures.
  rewrite identify_loop_quiet by (done || lia). simpl.
  unfold CaseStatementPatcher._fix_missing_endcase. simpl.
  rewrite endcase_loop_quiet by done. simpl.
  unfold IfElsePatcher.fix_if_else_statements.
  rewrite rewrite_loop_quiet by done. simpl.
  unfold AlwaysBlockPatcher.fix_always_blocks.
  rewrite always_fix_loop_quiet by done. simpl.
  unfold GenerateBlockPatcher.fix_generate_blocks.
  rewrite generate_fix_loop_quiet by (done || lia). rewrite drop_0. simpl.
  unfold SyntaxErrorPatcher._conservative_cleanup.
  rewrite cleanup_loop_no_genvar by done. simpl.
  f_equal. f_equal.
  match goal with Hq : no_orphan_line rtl_lines = true |- _ =>
    revert Hq; clear; induction rtl_lines as [|l ls IH]; simpl; [done|];
    intros Hq; apply andb_prop in Hq as [Hl Hq]; rewrite Hl; f_equal; by apply IH
  end.
Qed.

Lemma pipeline_quiet_witness :
  nothing_to_repair
    [Line "module m(input a, output y);"; Line "  wire w;"; Line "endmodule"] = true
  /\ SyntaxErrorPatcher.fix_all_syntax_errors SyntaxErrorPatcher.new
       [Line "module m(input a, output y);"; Line "  wire w;"; Line "endmodule"]
     = Some ([Line "module m(input a, output y);"; Line "  wire w;"; Line "endmodule"],
             SyntaxErrorPatcher.new).
Proof.
  split; [reflexivity|].
  apply (pipeline_quiet
           [Line "module m(input a, output y);"; Line "  wire w;"; Line "endmodule"]).
  reflexivity.
Defined.

End QuietPipeline.

(* ===================================================================== *)
(** * The statistics the orchestrator reads from the summaries *)
(* ===================================================================== *)

Section Statistics.

Import Re SyntaxErrorPatcher Summaries.

Lemma star_greedy_run cs k p pv run sfx g :
  Forall (fun c => mem cs c = true) run ->
  head (map (mem cs) sfx) <> Some true ->
  is_Some (k (MState (p + length run) (last_char pv run) sfx g)) ->
  star_greedy cs k p pv (run ++ sfx) g
  = k (MState (p + length run) (last_char pv run) sfx g).
Proof.
  intros Hrun Hsfx. revert p pv.
  induction Hrun as [|c run Hc _ IH]; intros p pv Hk; simpl in *.
  - rewrite Nat.add_0_r in *. unfold last_char in *. simpl in *.
    destruct sfx as [|c t]; simpl in *; [done|].
    destruct (mem cs c); [congruence|done].
  - rewrite Hc.
    change (last_char pv (c :: run)) with (last_char (Some c) run) in *.
    replace (p + S (length run)) with (S p + length run) in * by lia.
    rewrite IH by done. by destruct Hk as [x ->].
Qed.


Lemma digit_not_space c : Char.is_digit c = true -> Char.is_space c = false.
Proof. destruct c as [[] [] [] [] [] [] [] []]; by vm_compute. Qed.

Lemma attempt_fixed p pv ds sfx :
  ds <> [] ->
  Forall (fun c => Char.is_digit c = true) ds ->
  head (map Char.is_digit sfx) <> Some true ->
  attempt SyntaxErrorPatcher.fixed_pattern false p pv (Str "fixed " ++ ds ++ sfx)
  = Some (MState (p + 6 + length ds) (last_char (Some " "%char) ds) sfx
            [(1, (p + 6, p + 6 + length ds))]).
Proof.
  intros Hne Hds Hsfx. unfold attempt. simpl.
  destruct ds as [|d ds']; [done|]. inversion Hds as [|? ? Hd Hds']; subst.
  simpl. rewrite (digit_not_space d Hd). simpl. rewrite Hd.
  rewrite (star_greedy_run CDigit _ _ _ ds' sfx); simpl; [|done|done|done].
  unfold last_char. simpl. do 3 f_equal; [lia|]. do 3 f_equal; lia.
Qed.

Lemma int_of_str_of_nat n : int_of_str (str_of_nat n) = n.
Proof.
  unfold int_of_str, str_of_nat, Str.
  rewrite string_of_list_ascii_of_string.
  rewrite NilZero.usu.
  - apply DecimalNat.Unsigned.of_to.
  - intros E. pose proof (DecimalNat.Unsigned.of_to n) as H. rewrite E in H.
    simpl in H. subst n. discriminate E.
Qed.

Lemma string_of_uint_digits d :
  Forall (fun c => Char.is_digit c = true)
    (list_ascii_of_string (NilEmpty.string_of_uint d)).
Proof. induction d; simpl; constructor; done. Qed.

Lemma str_of_nat_digits n :
  str_of_nat n <> [] /\ Forall (fun c => Char.is_digit c = true) (str_of_nat n).
Proof.
  unfold str_of_nat, Str, NilZero.string_of_uint.
  destruct (Nat.to_uint n) eqn:E; simpl;
    try (split; [done|]; constructor; [done|apply string_of_uint_digits]).
  split; [done|]. by constructor.
Qed.

Lemma search_from_hit r p pv s st :
  attempt r false p pv s = Some st ->
  search_from r p pv s = Some (MatchObj p (pos st) (groups st)).
Proof. intros H. destruct s; simpl; by rewrite H. Qed.

Lemma search_fixed_skip pre : forall p pv t,
  contains (Str "fi") pre = false ->
  search_from fixed_pattern p pv (pre ++ "f"%char :: t)
  = search_from fixed_pattern (p + length pre) (last_char pv pre) ("f"%char :: t).
Proof.
  induction pre as [|c pre IH]; intros p pv t Hpre.
  - simpl. by rewrite Nat.add_0_r.
  - assert (Hat : attempt fixed_pattern false p pv ((c :: pre) ++ "f"%char :: t) = None).
    { unfold attempt. simpl. destruct (Char.eqb c "f") eqn:Hc; [|done].
      apply Ascii.eqb_eq in Hc. subst c.
      destruct pre as [|c2 pre]; simpl; [reflexivity|].
      destruct (Char.eqb c2 "i") eqn:Hc2; [|reflexivity].
      apply Ascii.eqb_eq in Hc2. subst c2. simpl in Hpre. by destruct pre. }
    change (search_from fixed_pattern p pv ((c :: pre) ++ "f"%char :: t))
      with (match attempt fixed_pattern false p pv ((c :: pre) ++ "f"%char :: t) with
            | Some st => Some (MatchObj p (pos st) (groups st))
            | None => search_from fixed_pattern (S p) (Some c) (pre ++ "f"%char :: t)
            end).
    rewrite Hat, IH.
    + replace (S p + length pre) with (p + length (c :: pre)) by (simpl; lia). done.
    + simpl in Hpre. apply orb_false_iff in Hpre as [_ Hpre]. done.
Qed.

Lemma slice_middle (pre ds sfx : str) :
  slice (pre ++ ds ++ sfx) (length pre) (length pre + length ds) = ds.
Proof.
  unfold slice. rewrite drop_app_length.
  replace (length pre + length ds - length pre) with (length ds) by lia.
  by rewrite take_app_length.
Qed.

Lemma contains_here (sub pre t : str) :
  contains sub (pre ++ sub ++ t) = true.
Proof.
  assert (Hs : forall s u, startswith (s ++ u) s = true).
  { induction s as [|x s IHs]; intros u; simpl; [by destruct u|].
    rewrite IHs. unfold Char.eqb. by rewrite Ascii.eqb_refl. }
  induction pre as [|c pre IH]; simpl.
  - pose proof (Hs sub t) as H. by destruct (sub ++ t); simpl in *; rewrite H.
  - rewrite IH. apply orb_true_r.
Qed.

(** A summary that says "fixed N" after a prefix without "fi". *)
Lemma update_stats_reads (total n : nat) (pre sfx : str) :
  contains (Str "fi") pre = false ->
  head (map Char.is_digit sfx) <> Some true ->
  _update_stats total (pre ++ Str "fixed " ++ str_of_nat n ++ sfx) = total + n.
Proof.
  intros Hpre Hsfx. unfold _update_stats.
  destruct (str_of_nat_digits n) as [Hne Hds].
  replace (negb (is_empty (pre ++ Str "fixed " ++ str_of_nat n ++ sfx))) with true
    by (by destruct pre).
  change (Str "fixed " ++ str_of_nat n ++ sfx)
    with (Str "fixed" ++ (" "%char :: str_of_nat n ++ sfx)) at 1.
  rewrite contains_here. simpl andb. cbv iota.
  unfold search.
  change (Str "fixed " ++ str_of_nat n ++ sfx)
    with ("f"%char :: (Str "ixed " ++ str_of_nat n ++ sfx)) at 1.
  rewrite search_fixed_skip by done.
  change ("f"%char :: (Str "ixed " ++ str_of_nat n ++ sfx))
    with (Str "fixed " ++ str_of_nat n ++ sfx).
  rewrite (search_from_hit _ _ _ _ _ (attempt_fixed _ _ _ sfx Hne Hds Hsfx)).
  unfold group. simpl group_span. cbv iota beta.
  replace (pre ++ Str "fixed " ++ str_of_nat n ++ sfx)
    with ((pre ++ Str "fixed ") ++ str_of_nat n ++ sfx) by (by rewrite <- app_assoc).
  replace (length pre + 6) with (length (pre ++ Str "fixed "))
    by (rewrite length_app; simpl; lia).
  rewrite slice_middle. by rewrite int_of_str_of_nat.
Qed.

Lemma no_f_no_fixed s : no_f s = true -> contains (Str "fixed") s = false.
Proof.
  induction s as [|c s IH]; [done|].
  intros [Hc Hs]%andb_true_iff.
  change (contains (Str "fixed") (c :: s))
    with (startswith (c :: s) (Str "fixed") || contains (Str "fixed") s).
  rewrite (IH Hs). apply negb_true_iff in Hc.
  change (startswith (c :: s) (Str "fixed"))
    with (Char.eqb "f" c && startswith s (Str "ixed")).
  unfold Char.eqb in *. by rewrite Ascii.eqb_sym, Hc.
Qed.

Lemma digit_not_f c : Char.is_digit c = true -> negb (Char.eqb c "f") = true.
Proof. destruct c as [[] [] [] [] [] [] [] []]; by vm_compute. Qed.

Lemma str_of_nat_no_f n : no_f (str_of_nat n) = true.
Proof.
  destruct (str_of_nat_digits n) as [_ H]. unfold no_f.
  induction H as [|c l Hc _ IH]; simpl; [done|]. by rewrite digit_not_f.
Qed.

Lemma update_stats_silent total summary :
  no_f summary = true -> _update_stats total summary = total.
Proof.
  intros H. unfold _update_stats. rewrite (no_f_no_fixed _ H).
  by rewrite andb_false_r.
Qed.

Lemma update_stats_assign total self :
  _update_stats total (AssignStatementPatcher.get_summary self)
  = total + AssignStatementPatcher.fixed_count self.
Proof.
  unfold AssignStatementPatcher.get_summary.
  destruct ((0 <? AssignStatementPatcher.fixed_count self)
            || (0 <? AssignStatementPatcher.merged_count self)) eqn:E.
  - exact (update_stats_reads total _ (Str "Assign patch: ")
             (Str " issues, merged "
              ++ str_of_nat (AssignStatementPatcher.merged_count self)
              ++ Str " multi-line assigns") eq_refl ltac:(done)).
  - apply orb_false_iff in E as [E%Nat.ltb_ge _].
    replace (AssignStatementPatcher.fixed_count self) with 0 by lia.
    rewrite Nat.add_0_r. by apply update_stats_silent.
Qed.

Lemma update_stats_if_else total self :
  _update_stats total (IfElsePatcher.get_summary self)
  = total + IfElsePatcher.fixed_count self.
Proof.
  unfold IfElsePatcher.get_summary.
  destruct (0 <? IfElsePatcher.fixed_count self) eqn:E.
  - exact (update_stats_reads total _ (Str "If-else patch: ")
             (Str " statements") eq_refl ltac:(done)).
  - apply Nat.ltb_ge in E.
    replace (IfElsePatcher.fixed_count self) with 0 by lia.
    rewrite Nat.add_0_r. reflexivity.
Qed.

Lemma update_stats_always total self :
  _update_stats total (AlwaysBlockPatcher.get_summary self)
  = total + AlwaysBlockPatcher.incomplete_blocks_fixed self.
Proof.
  unfold AlwaysBlockPatcher.get_summary.
  destruct (0 <? AlwaysBlockPatcher.incomplete_blocks_fixed self) eqn:E.
  - exact (update_stats_reads total _ (Str "Always patch: ")
             (Str " incomplete always blocks") eq_refl ltac:(done)).
  - apply Nat.ltb_ge in E.
    replace (AlwaysBlockPatcher.incomplete_blocks_fixed self) with 0 by lia.
    rewrite Nat.add_0_r. by apply update_stats_silent.
Qed.

Lemma no_f_app a b : no_f (a ++ b) = no_f a && no_f b.
Proof. apply forallb_app. Qed.

Lemma update_stats_case total self :
  _update_stats total (CaseStatementPatcher.get_summary self) = total.
Proof.
  apply update_stats_silent. unfold CaseStatementPatcher.get_summary.
  destruct (0 <? CaseStatementPatcher.removed_count self),
           (0 <? CaseStatementPatcher.fixed_count self);
    cbn [app join]; rewrite ?no_f_app, ?str_of_nat_no_f; reflexivity.
Qed.

Lemma update_stats_generate total self :
  _update_stats total (GenerateBlockPatcher.get_summary self) = total.
Proof.
  apply update_stats_silent. unfold GenerateBlockPatcher.get_summary.
  destruct (0 <? GenerateBlockPatcher.orphan_blocks_fixed self),
           (0 <? GenerateBlockPatcher.missing_genvar_added self);
    cbn [app join]; rewrite ?no_f_app, ?str_of_nat_no_f; reflexivity.
Qed.

(** X10.  The orchestrator reads each summary back exactly: from the Assign,
    If-Else and Always summaries it adds the pass's own count of fixes to
    the total (nothing when the pass reports no change), and from the
    Case and Generate summaries, which never say "fixed", it adds
    nothing, whatever their counters are. *)
Theorem summaries_read_back (total : nat) :
  (forall self, _update_stats total (AssignStatementPatcher.get_summary self)
                = total + AssignStatementPatcher.fixed_count self)
  /\ (forall self, _update_stats total (IfElsePatcher.get_summary self)
                   = total + IfElsePatcher.fixed_count self)
  /\ (forall self, _update_stats total (AlwaysBlockPatcher.get_summary self)
                   = total + AlwaysBlockPatcher.incomplete_blocks_fixed self)
  /\ (forall self, _update_stats total (CaseStatementPatcher.get_summary self) = total)
  /\ (forall self, _update_stats total (GenerateBlockPatcher.get_summary self) = total).
Proof.
  repeat split; intros self.
  - apply update_stats_assign.
  - apply update_stats_if_else.
  - apply update_stats_always.
  - apply update_stats_case.
  - apply update_stats_generate.
Qed.

(** X11.  The pipeline returns on every input, and its total grows by exactly
    the Assign fixes, the If-Else conversions and the Always headers of
    this run's patchers: the Case and Generate repairs, the merges and the
    lines the cleanup removes are not counted. *)
Theorem total_fixes_counts (self : SyntaxErrorPatcher.t) (rtl_lines : list str) :
  exists out self',
    fix_all_syntax_errors self rtl_lines = Some (out, self')
    /\ total_fixes self'
       = total_fixes self
         + AssignStatementPatcher.fixed_count (assign_patcher self')
         + IfElsePatcher.fixed_count (if_else_patcher self')
         + AlwaysBlockPatcher.incomplete_blocks_fixed (always_patcher self').
Proof.
  unfold fix_all_syntax_errors.
  destruct (fix_assign_statements_total (assign_patcher self) rtl_lines)
    as [[l1 p1] ->]. simpl.
  destruct (fix_case_statements_total (case_patcher self) l1) as [[l2 p2] ->]. simpl.
  destruct (IfElsePatcher.fix_if_else_statements _ l2) as [l3 p3].
  destruct (AlwaysBlockPatcher.fix_always_blocks _ l3) as [l4 p4].
  destruct (fix_generate_blocks_total (generate_patcher self) l4) as [[l5 p5] ->].
  simpl. eexists _, _. split; [done|]. simpl.
  by rewrite update_stats_generate, update_stats_always, update_stats_if_else,
    update_stats_case, update_stats_assign.
Qed.

End Statistics.

(* ===================================================================== *)
(** * The semicolon that closes a repaired assign statement *)
(* ===================================================================== *)

Section Terminator.

Import Re ReLang Rewriting AssignStatementPatcher AssignSteps.

Lemma sub_from_rewrites r repl : forall s p pv skip,
  rewrites r repl (drop skip s) (sub_from r repl p pv skip s).
Proof.
  induction s as [|c0 t IH]; intros p pv skip.
  - destruct skip as [|k]; simpl; [|constructor].
    destruct (attempt r false p pv []) as [st|] eqn:E; [|constructor].
    apply attempt_sound in E as (w & L & Hs & Hp & _).
    symmetry in Hs. apply app_eq_nil in Hs as [-> _].
    rewrite Hp. simpl. rewrite Nat.add_0_r, Nat.sub_diag.
    destruct (attempt r true p pv []) as [st2|] eqn:E2.
    + apply attempt_sound in E2 as (w2 & L2 & Hs2 & Hp2 & Hne).
      symmetry in Hs2. apply app_eq_nil in Hs2 as [-> _]. by destruct Hne.
    + apply (rw_sub r repl [] [] []); [done|constructor].
  - destruct skip as [|k]; simpl; [|apply IH].
    destruct (attempt r false p pv (c0 :: t)) as [st|] eqn:E.
    2: { constructor. specialize (IH (S p) (Some c0) 0). by rewrite drop_0 in IH. }
    apply attempt_sound in E as (w & L & Hs & Hp & _).
    replace (pos st - p) with (length w) by lia.
    destruct w as [|x w']; simpl in *.
    + apply (rw_sub r repl [] (c0 :: t)); [done|].
      destruct (attempt r true p pv (c0 :: t)) as [st2|] eqn:E2.
      * apply attempt_sound in E2 as (w2 & L2 & Hs2 & Hp2 & Hne).
        destruct w2 as [|x2 w2']; [by destruct Hne|].
        simpl in *. injection Hs2 as <- ->.
        replace (pos st2 - p - 1) with (length w2') by lia.
        apply (rw_sub r repl (c0 :: w2') (rest st2)); [done|].
        specialize (IH (S p) (Some c0) (length w2')).
        by rewrite drop_app_length in IH.
      * constructor. specialize (IH (S p) (Some c0) 0). by rewrite drop_0 in IH.
    + injection Hs as <- ->.
      apply (rw_sub r repl (c0 :: w') (rest st)); [done|].
      specialize (IH (S p) (Some c0) (length w')).
      by rewrite drop_app_length in IH.
Qed.

Lemma sub_rewrites r repl s : rewrites r repl s (sub r repl s).
Proof. exact (sub_from_rewrites r repl s 0 None 0). Qed.

Lemma rewrites_spaces r repl s out :
  (forall w, lang r w -> Forall (fun x => Char.is_space x = true) w ->
             Forall (fun x => Char.is_space x = true) repl) ->
  rewrites r repl s out ->
  Forall (fun x => Char.is_space x = true) s ->
  Forall (fun x => Char.is_space x = true) out.
Proof.
  intros Hr. induction 1 as [|c s out _ IH|w s out L _ IH]; intros Hs.
  - constructor.
  - inversion Hs; subst. constructor; auto.
  - apply Forall_app in Hs as [Hw Hs]. apply Forall_app. split; eauto.
Qed.

Lemma app_split_absent (c : ascii) : forall (w s a b : str),
  count c w = 0 -> w ++ s = a ++ c :: b ->
  exists a', a = w ++ a' /\ s = a' ++ c :: b.
Proof.
  induction w as [|x w IH]; intros s a b Hc E; simpl in *.
  - by exists a.
  - destruct (Char.eqb x c) eqn:Hx; [lia|]. simpl in Hc.
    destruct a as [|y a]; simpl in E; injection E as -> E.
    + unfold Char.eqb in Hx. by rewrite Ascii.eqb_refl in Hx.
    + destruct (IH s a b Hc E) as (a' & -> & ->). by exists a'.
Qed.

Lemma rewrites_closed_by (c : ascii) r repl s out :
  (forall w, lang r w -> count c w = 0) ->
  (forall w, lang r w -> Forall (fun x => Char.is_space x = true) w ->
             Forall (fun x => Char.is_space x = true) repl) ->
  rewrites r repl s out -> closed_by c s -> closed_by c out.
Proof.
  intros Hc Hr. induction 1 as [|x s out Hrw IH|w s out L Hrw IH];
    intros (a & b & E & Hb).
  - by destruct a.
  - destruct a as [|y a]; simpl in E; injection E as -> ->.
    + exists [], out. split; [done|]. eapply rewrites_spaces; eauto.
    + destruct IH as (a' & b' & -> & Hb'); [by exists a, b|].
      by exists (y :: a'), b'.
  - destruct (app_split_absent c w s a b (Hc w L) E) as (a' & -> & ->).
    destruct IH as (a2 & b2 & -> & Hb2); [by exists a', b|].
    exists (repl ++ a2), b2. by rewrite <- app_assoc.
Qed.

Lemma drop_while_app_stop (p : ascii -> bool) (a : str) (c : ascii) (b : str) :
  p c = false -> drop_while p (a ++ c :: b) = drop_while p a ++ c :: b.
Proof.
  intros Hc. induction a as [|x a IH]; simpl; [by rewrite Hc|].
  by destruct (p x).
Qed.

Lemma closed_by_endswith (c : ascii) (s : str) :
  Char.is_space c = false ->
  closed_by c s -> endswith (strip s) [c] = true.
Proof.
  intros Hc (a & b & -> & Hb). unfold strip, lstrip, rstrip, endswith.
  rewrite drop_while_app_stop by done. rewrite rev_involutive.
  rewrite rev_app_distr. simpl. rewrite <- app_assoc. simpl.
  rewrite drop_while_app_all by (by apply Forall_rev).
  simpl. rewrite Hc. simpl. unfold Char.eqb. rewrite Ascii.eqb_refl.
  by destruct (rev (drop_while Char.is_space a)).
Qed.

Lemma endswith_closed_by (c : ascii) (s : str) :
  endswith (strip s) [c] = true -> closed_by c s.
Proof.
  unfold endswith, strip, rstrip, lstrip. rewrite rev_involutive. simpl.
  intros H.
  pose proof (take_while_drop_while Char.is_space s) as Es.
  pose proof (take_while_drop_while Char.is_space (rev (drop_while Char.is_space s))) as Er.
  apply (f_equal (@rev ascii)) in Er. rewrite rev_involutive, rev_app_distr in Er.
  pose proof (take_while_Forall Char.is_space (rev (drop_while Char.is_space s))) as Hsp.
  destruct (drop_while Char.is_space (rev (drop_while Char.is_space s))) as [|y z]; [done|].
  apply andb_true_iff in H as [H _]. apply Ascii.eqb_eq in H. subst y.
  simpl in Er. rewrite <- Es, <- Er.
  exists (take_while Char.is_space s ++ rev z),
    (rev (take_while Char.is_space (rev (drop_while Char.is_space s)))).
  split; [by rewrite <- !app_assoc|]. by apply Forall_rev.
Qed.

(** The words of the whitespace-and-operator patterns have no [c] that is
    neither whitespace nor one of their operators. *)
Ltac lang_absent :=
  let w := fresh "w" in
  let H := fresh "H" in
  intros w H; vm_compute in H;
  repeat match goal with
  | H : lang (Cat _ _) _ |- _ => inversion H; subst; clear H
  | H : lang (One _) _ |- _ => inversion H; subst; clear H
  | H : lang (Star _) _ |- _ => inversion H; subst; clear H
  | H : mem (CChar _) _ = true |- _ =>
      simpl in H; unfold Char.eqb in H; apply Ascii.eqb_eq in H; subst
  | H : mem CSpace ?c = true |- _ =>
      assert (Forall (fun c => mem CSpace c = true) [c])
        by (constructor; [exact H|constructor]);
      clear H
  end;
  rewrite ?count_app;
  repeat match goal with
  | Hs : Forall (fun c => mem CSpace c = true) ?s |- context [count ?c ?s] =>
      rewrite (count_Forall_0 (mem CSpace) c s eq_refl Hs)
  end;
  reflexivity.

(** A word with an operator in it is not whitespace. *)
Ltac lang_visible :=
  let w := fresh "w" in
  let H := fresh "H" in
  let Hsp := fresh "Hsp" in
  intros w H Hsp; vm_compute in H;
  repeat match goal with
  | H : lang (Cat _ _) _ |- _ => inversion H; subst; clear H
  | H : lang (One _) _ |- _ => inversion H; subst; clear H
  | H : lang (Star _) _ |- _ => inversion H; subst; clear H
  | H : mem (CChar _) _ = true |- _ =>
      simpl in H; unfold Char.eqb in H; apply Ascii.eqb_eq in H; subst
  end;
  repeat match goal with
  | H : Forall _ (_ ++ _) |- _ => apply Forall_app in H as [? ?]
  | H : Forall _ (_ :: _) |- _ => inversion H; subst; clear H
  end;
  try discriminate; try (repeat constructor; done).

Lemma sub_closed_by (c : ascii) r repl s :
  (forall w, lang r w -> count c w = 0) ->
  (forall w, lang r w -> Forall (fun x => Char.is_space x = true) w ->
             Forall (fun x => Char.is_space x = true) repl) ->
  closed_by c s -> closed_by c (sub r repl s).
Proof.
  intros H1 H2.
  exact (rewrites_closed_by c r repl s _ H1 H2 (sub_rewrites r repl s)).
Qed.

Lemma after_balance_closed (line : str) :
  closed_by ";" (after_balance line).
Proof.
  unfold after_balance.
  do 5 (apply sub_closed_by; [lang_absent|lang_visible|]).
  destruct (negb (endswith (strip line) (Str ";"))) eqn:E.
  - exists (rstrip line), []. by split.
  - apply negb_false_iff in E. by apply endswith_closed_by.
Qed.

(** X12.  A statement that is not blank comes back from the statement repair
    closed by a semicolon: the last character that is not whitespace is
    [;]. *)
Theorem fix_assign_statement_terminated (assign_line : str) :
  is_empty (strip assign_line) = false ->
  endswith (strip (_fix_assign_statement assign_line)) (Str ";") = true.
Proof.
  intros H. rewrite fix_assign_statement_unfold, H.
  apply (closed_by_endswith ";"); [done|]. apply after_balance_closed.
Qed.

Lemma fix_assign_statement_terminated_witness :
  is_empty (strip (Str "assign a = b ? c")) = false
  /\ endswith (strip (_fix_assign_statement (Str "assign a = b ? c"))) (Str ";") = true.
Proof.
  split; [reflexivity|].
  apply (fix_assign_statement_terminated (Str "assign a = b ? c")). reflexivity.
Defined.

End Terminator.

(* ===================================================================== *)
(** * A second run of the endcase completion *)
(* ===================================================================== *)

Section CaseReplay.

Import Re CaseStatementPatcher CaseLines.

Lemma endcase_loop_app (a b : list str) : forall i self acc,
  endcase_loop (a ++ b) i self acc
  = endcase_loop b (i + length a) (endcase_loop a i self acc).2
      (endcase_loop a i self acc).1.
Proof.
  induction a as [|l a IH]; intros i self acc; simpl.
  - by rewrite Nat.add_0_r.
  - replace (i + S (length a)) with (i + 1 + length a) by lia.
    destruct (found case_open_pattern (strip l)); [apply IH|].
    destruct (is_endcase_line (strip l)); [apply IH|].
    destruct (_should_check_for_missing_endcase (strip l)
              && negb (bool_decide (case_stack self = []))); [|apply IH].
    destruct (_check_missing_endcases self l) as [m s]. apply IH.
Qed.

Lemma endcase_loop_closing (line : str) (rest : list str) i self acc :
  found case_open_pattern (strip line) = false ->
  is_endcase_line (strip line) = true ->
  endcase_loop (line :: rest) i self acc
  = endcase_loop rest (i + 1)
      (Self (tail (case_stack self)) (fixed_count self) (removed_count self))
      (acc ++ [line]).
Proof. intros Ho Hc. simpl. by rewrite Ho, Hc. Qed.

(** The scan passes the [endcase] lines the pass wrote: each closes the
    case on top of the stack. *)
Lemma endcase_loop_synthesized (inds : list str) : forall i self acc,
  Forall blank_indent inds ->
  endcase_loop (map synthesized inds) i self acc
  = (acc ++ map synthesized inds,
     Self (drop (length inds) (case_stack self)) (fixed_count self)
       (removed_count self)).
Proof.
  induction inds as [|ind inds IH]; intros i self acc Hb.
  - simpl. rewrite app_nil_r, drop_0. by destruct self.
  - inversion Hb as [|? ? Hind Hinds]; subst.
    pose proof (synthesized_not_opening ind Hind) as Ho.
    pose proof (synthesized_closing ind Hind) as Hc.
    unfold is_closing in Hc. rewrite Ho in Hc. unfold is_opening in Ho.
    change (map synthesized (ind :: inds))
      with ((ind ++ Str "endcase") :: map synthesized inds).
    rewrite endcase_loop_closing by done. rewrite IH by done.
    cbn [case_stack fixed_count removed_count length].
    rewrite <- app_assoc. destruct (case_stack self); simpl; [by rewrite drop_nil|done].
Qed.

Lemma check_loop_settled (line_indent : str) (stack : list case_info) :
  stack_ok stack ->
  check_loop line_indent (check_loop line_indent stack).2
  = ([], (check_loop line_indent stack).2).
Proof.
  induction 1 as [|ci stack [Hf Hb] _ IH]; simpl; [done|].
  rewrite Hf. simpl.
  destruct (length line_indent <=? length (indent ci)) eqn:E.
  - destruct (check_loop line_indent stack) as [more remaining]. done.
  - simpl. by rewrite Hf, E.
Qed.

Lemma check_loop_same_indents (line_indent : str) (s1 s2 : list case_info) :
  stack_ok s1 -> stack_ok s2 -> map indent s2 = map indent s1 ->
  check_loop line_indent s1 = ([], s1) ->
  check_loop line_indent s2 = ([], s2).
Proof.
  intros H1 H2 E Hc.
  destruct s2 as [|c2 s2], s1 as [|c1 s1]; simpl in *; try done.
  inversion H1 as [|? ? [Hf1 _] _]; subst.
  inversion H2 as [|? ? [Hf2 _] _]; subst.
  injection E as E1 E. rewrite Hf1 in Hc. rewrite Hf2, E1. simpl in *.
  destruct (length line_indent <=? length (indent c1)); [|done].
  by destruct (check_loop line_indent s1).
Qed.

Lemma map_drop {A B} (f : A -> B) (n : nat) (l : list A) :
  map f (drop n l) = drop n (map f l).
Proof. revert l. induction n as [|n IH]; intros [|x l]; simpl; auto. Qed.

Lemma stack_ok_drop n stack : stack_ok stack -> stack_ok (drop n stack).
Proof. apply Forall_drop. Qed.

Lemma stack_ok_tail stack : stack_ok stack -> stack_ok (tail stack).
Proof. intros H. destruct stack; [done|]. by inversion H. Qed.

(** What one run wrote, a second scan passes without writing anything:
    it ends with the same stack of indentations. *)
Lemma endcase_loop_replay (rest : list str) : forall i self acc,
  stack_ok (case_stack self) ->
  exists produced,
    (endcase_loop rest i self acc).1 = acc ++ produced
    /\ stack_ok (case_stack (endcase_loop rest i self acc).2)
    /\ forall j self2 acc2,
         stack_ok (case_stack self2) ->
         map indent (case_stack self2) = map indent (case_stack self) ->
         let r2 := endcase_loop produced j self2 acc2 in
         r2.1 = acc2 ++ produced
         /\ stack_ok (case_stack r2.2)
         /\ map indent (case_stack r2.2)
            = map indent (case_stack (endcase_loop rest i self acc).2)
         /\ fixed_count r2.2 = fixed_count self2
         /\ removed_count r2.2 = removed_count self2.
Proof.
  induction rest as [|line rest IH]; intros i self acc Hok.
  - exists []. simpl. rewrite app_nil_r. repeat split; try done.
    by rewrite app_nil_r.
  - (* one line of the first run and the chunk it writes *)
    assert (Hstep : exists chunk self',
      endcase_loop (line :: rest) i self acc
      = endcase_loop rest (i + 1) self' (acc ++ chunk)
      /\ stack_ok (case_stack self')
      /\ forall j self2 acc2,
           stack_ok (case_stack self2) ->
           map indent (case_stack self2) = map indent (case_stack self) ->
           let r2 := endcase_loop chunk j self2 acc2 in
           r2.1 = acc2 ++ chunk
           /\ stack_ok (case_stack r2.2)
           /\ map indent (case_stack r2.2) = map indent (case_stack self')
           /\ fixed_count r2.2 = fixed_count self2
           /\ removed_count r2.2 = removed_count self2).
    { simpl.
      destruct (found case_open_pattern (strip line)) eqn:Ho.
      { eexists [line], _. split; [reflexivity|]. split.
        - simpl. constructor; [|done]. split; [done|apply get_indent_blank].
        - intros j self2 acc2 Hok2 E. simpl. rewrite Ho. simpl.
          repeat split; try done.
          + constructor; [|done]. split; [done|apply get_indent_blank].
          + by rewrite E. }
      destruct (is_endcase_line (strip line)) eqn:Hc.
      { eexists [line], _. split; [reflexivity|]. split.
        - simpl. by apply stack_ok_tail.
        - intros j self2 acc2 Hok2 E. simpl. rewrite Ho, Hc. simpl.
          repeat split; try done.
          + by apply stack_ok_tail.
          + destruct (case_stack self2), (case_stack self); simpl in *; congruence. }
      destruct (_should_check_for_missing_endcase (strip line)
                && negb (bool_decide (case_stack self = []))) eqn:Hs.
      2: { eexists [line], _. split; [reflexivity|]. split; [done|].
           intros j self2 acc2 Hok2 E. simpl. rewrite Ho, Hc.
           replace (bool_decide (case_stack self2 = []))
             with (bool_decide (case_stack self = []))
             by (destruct (case_stack self2), (case_stack self); simpl in *; congruence).
           rewrite Hs. by destruct self2. }
      apply andb_true_iff in Hs as [Hs _].
      unfold _check_missing_endcases.
      destruct (check_loop_spec (_get_indent line) (case_stack self) Hok)
        as (n & Hn & Hcl).
      pose proof (check_loop_settled (_get_indent line) (case_stack self) Hok) as Hset.
      rewrite Hcl in *. simpl in *.
      eexists (map synthesized (map indent (take n (case_stack self))) ++ [line]), _.
      split; [reflexivity|]. split; [by apply stack_ok_drop|].
      intros j self2 acc2 Hok2 E. simpl.
      assert (Hb : Forall blank_indent (map indent (take n (case_stack self)))).
      { apply Forall_fmap, Forall_take. eapply Forall_impl; [exact Hok|].
        by intros ci [_ ?]. }
      rewrite endcase_loop_app, endcase_loop_synthesized by done. simpl.
      rewrite Ho, Hc, Hs. simpl.
      rewrite !length_fmap, length_take, Nat.min_l by lia.
      assert (Hok2' : stack_ok (drop n (case_stack self2))) by by apply stack_ok_drop.
      assert (E' : map indent (drop n (case_stack self2))
                   = map indent (drop n (case_stack self))).
      { by rewrite !map_drop, E. }
      destruct (bool_decide (drop n (case_stack self2) = [])) eqn:Hd; simpl.
      - rewrite <- app_assoc. repeat split; done.
      - unfold _check_missing_endcases. simpl.
        rewrite (check_loop_same_indents _ _ _ (stack_ok_drop n _ Hok) Hok2' E' Hset).
        simpl. rewrite <- app_assoc, Nat.add_0_r. repeat split; done. }
    destruct Hstep as (chunk & self' & Hrun & Hok' & Hchunk).
    destruct (IH (i + 1) self' (acc ++ chunk) Hok') as (produced & Hout & Hokr & Hrep).
    exists (chunk ++ produced). rewrite Hrun.
    split; [by rewrite Hout, <- app_assoc|]. split; [done|].
    intros j self2 acc2 Hok2 E. simpl.
    rewrite endcase_loop_app.
    destruct (Hchunk j self2 acc2 Hok2 E) as (H1 & H2 & H3 & H4 & H5).
    destruct (Hrep (j + length chunk) (endcase_loop chunk j self2 acc2).2
                (endcase_loop chunk j self2 acc2).1 H2 H3) as (K1 & K2 & K3 & K4 & K5).
    simpl in *. rewrite K1, H1, <- app_assoc. repeat split; try done; congruence.
Qed.

(** X13.  A second run of the [endcase] completion on what the first run
    returned inserts nothing: it returns the same lines and leaves the
    count of inserted lines as it finds it. *)
Theorem fix_missing_endcase_settled (self self2 : t) (rtl_lines : list str) :
  _fix_missing_endcase self2 (_fix_missing_endcase self rtl_lines).1
  = ((_fix_missing_endcase self rtl_lines).1,
     Self [] (fixed_count self2) (removed_count self2)).
Proof.
  unfold _fix_missing_endcase.
  destruct (endcase_loop_replay rtl_lines 0
              (Self [] (fixed_count self) (removed_count self)) []
              ltac:(constructor)) as (produced & Hout & Hok & Hrep).
  destruct (endcase_loop rtl_lines 0 _ []) as [fixed_lines self1] eqn:E1.
  simpl in *. subst fixed_lines.
  rewrite close_loop_spec by done. simpl.
  assert (Hb : Forall blank_indent (map indent (case_stack self1))).
  { apply Forall_fmap. eapply Forall_impl; [exact Hok|]. by intros ci [_ ?]. }
  rewrite endcase_loop_app.
  destruct (Hrep 0 (Self [] (fixed_count self2) (removed_count self2)) []
              ltac:(constructor) eq_refl) as (K1 & K2 & K3 & K4 & K5).
  destruct (endcase_loop produced 0 _ []) as [out2 s2] eqn:E2. simpl in *.
  rewrite endcase_loop_synthesized by done. simpl.
  rewrite !length_fmap.
  assert (Hlen : length (case_stack s2) = length (case_stack self1)).
  { pose proof (f_equal length K3) as Hl. by rewrite !length_fmap in Hl. }
  rewrite drop_ge by lia. simpl. subst out2. simpl. congruence.
Qed.

End CaseReplay.

(* ===================================================================== *)
(** * The blocks and the pairs of the If-Else pass *)
(* ===================================================================== *)

Section IfElsePairing.

Import Re IfElsePatcher IfElsePolicy Pairing.

Lemma range_bounds (a b x : nat) : In x (range a b) -> a <= x < b.
Proof. unfold range. rewrite in_seq. lia. Qed.

Lemma find_begin_in rtl_lines idxs i :
  find_begin rtl_lines idxs = Some i -> In i idxs.
Proof.
  induction idxs as [|j idxs IH]; simpl; [done|].
  destruct (is_begin_line _); [intros [= ->]; by left|].
  destruct (negb _ && negb _); [done|]. intros H. right. by apply IH.
Qed.

Lemma match_end_in rtl_lines idxs depth i :
  match_end rtl_lines idxs depth = Some i -> In i idxs.
Proof.
  revert depth. induction idxs as [|j idxs IH]; intros depth; simpl; [done|].
  destruct (is_begin_line _); [intros H; right; by eapply IH|].
  destruct (is_end_line _); [|intros H; right; by eapply IH].
  destruct (depth - 1 =? 0); [intros [= ->]; by left|].
  intros H. right. by eapply IH.
Qed.

Lemma find_semicolon_in rtl_lines idxs i :
  find_semicolon rtl_lines idxs = Some i -> In i idxs.
Proof.
  induction idxs as [|j idxs IH]; simpl; [done|].
  destruct (contains _ _); [intros [= ->]; by left|].
  intros H. right. by apply IH.
Qed.

(** X14.  The end of an [if] block lies in the list, at or after the [if]
    line, and after it unless the [if] is on the last line. *)
Theorem find_if_block_end_bounds (rtl_lines : list str) (if_idx : nat) :
  if_idx < length rtl_lines ->
  if_idx <= _find_if_block_end rtl_lines if_idx < length rtl_lines
  /\ (_find_if_block_end rtl_lines if_idx = if_idx ->
      if_idx = length rtl_lines - 1).
Proof.
  intros Hlt. unfold _find_if_block_end.
  destruct (find_begin _ _) as [s|] eqn:Hb.
  - apply find_begin_in, range_bounds in Hb.
    destruct (match_end _ _ _) as [e|] eqn:He.
    + apply match_end_in, range_bounds in He. lia.
    + lia.
  - destruct (find_semicolon _ _) as [e|] eqn:He.
    + apply find_semicolon_in, range_bounds in He. lia.
    + lia.
Qed.

Lemma find_if_block_end_bounds_witness :
  1 < length [Line "if (a)"; Line "begin"; Line "  x <= 1;"; Line "end"]
  /\ (1 <= _find_if_block_end
             [Line "if (a)"; Line "begin"; Line "  x <= 1;"; Line "end"] 1
      < length [Line "if (a)"; Line "begin"; Line "  x <= 1;"; Line "end"]
      /\ (_find_if_block_end
            [Line "if (a)"; Line "begin"; Line "  x <= 1;"; Line "end"] 1 = 1 ->
          1 = length [Line "if (a)"; Line "begin"; Line "  x <= 1;"; Line "end"] - 1)).
Proof.
  split; [simpl; lia|].
  apply (find_if_block_end_bounds
           [Line "if (a)"; Line "begin"; Line "  x <= 1;"; Line "end"] 1).
  simpl; lia.
Defined.

Lemma find_matching_from_spec active_ifs : forall k else_indent else_line j,
  find_matching_from active_ifs k else_indent else_line = Some j ->
  exists c, k <= j /\ active_ifs !! (j - k) = Some c
            /\ else_can_claim c else_indent else_line = true.
Proof.
  induction active_ifs as [|c rest IH]; intros k ei el j; simpl; [done|].
  destruct (find_matching_from rest (S k) ei el) as [j'|] eqn:E.
  - intros [= ->]. destruct (IH _ _ _ _ E) as (c' & Hk & Hl & Hc).
    exists c'. split; [lia|]. split; [|done].
    replace (j - k) with (S (j - S k)) by lia. done.
  - destruct (else_can_claim c ei el) eqn:Hc; [|done]. intros [= ->].
    exists c. rewrite Nat.sub_diag. by repeat split.
Qed.

Lemma ctx_of_mono rtl_lines i i' c : i <= i' -> ctx_of rtl_lines i c -> ctx_of rtl_lines i' c.
Proof. unfold ctx_of. intros Hi (H1 & H2). split; [lia|done]. Qed.

Lemma mark_has_else_ctx rtl_lines i active_ifs k :
  Forall (ctx_of rtl_lines i) active_ifs ->
  Forall (ctx_of rtl_lines i) (mark_has_else active_ifs k).
Proof.
  intros H. unfold mark_has_else.
  destruct (active_ifs !! k) as [c|] eqn:E; [|done].
  apply Forall_insert; [done|].
  rewrite Forall_lookup in H. exact (H k c E).
Qed.

Lemma analyze_loop_sound (rtl_lines : list str) : forall rest i pairs active_ifs,
  drop i rtl_lines = rest ->
  Forall (ctx_of rtl_lines i) active_ifs ->
  map_Forall (fun k p => has_matching_if p = true -> paired_with rtl_lines k p) pairs ->
  map_Forall (fun k p => has_matching_if p = true -> paired_with rtl_lines k p)
    (analyze_loop rtl_lines rest i pairs active_ifs).
Proof.
  intros rest. induction rest as [|l rest IH]; intros i pairs active_ifs Hd Hctx Hp;
    cbn [analyze_loop]; [done|].
  assert (Hl : rtl_lines !! i = Some l).
  { rewrite <- (Nat.add_0_r i), <- lookup_drop, Hd. done. }
  assert (Hd' : drop (i + 1) rtl_lines = rest).
  { rewrite <- drop_drop, Hd. done. }
  assert (Hctx' : Forall (ctx_of rtl_lines (i + 1)) active_ifs).
  { eapply Forall_impl; [exact Hctx|]. intros c. apply ctx_of_mono. lia. }
  assert (Hnew : forall b, (_is_if_statement (strip l) || _is_else_if_statement (strip l)) = true ->
            ctx_of rtl_lines (i + 1)
              (IfCtx i (length (_get_indent l)) (_find_if_block_end rtl_lines i) b)).
  { intros b Hb. split; [simpl; lia|]. exists l. by repeat split. }
  assert (Hclaim : forall k,
            _find_matching_if_for_else active_ifs (length (_get_indent l)) i = Some k ->
            is_else_like l = true ->
            paired_with rtl_lines i (PairInfo true (line_of active_ifs k))).
  { intros k Hk He. apply find_matching_from_spec in Hk as (c & _ & Hc & Hcan).
    rewrite Nat.sub_0_r in Hc.
    rewrite Forall_lookup in Hctx.
    destruct (Hctx k c Hc) as (Hlt & l_if & Hlif & Hif & Hind & Hend).
    unfold else_can_claim in Hcan.
    apply andb_true_iff in Hcan as [Hcan _].
    apply andb_true_iff in Hcan as [Hi Hr].
    apply andb_true_iff in Hr as [Hr1 Hr2].
    apply Nat.eqb_eq in Hi. apply Nat.ltb_lt in Hr1. apply Nat.leb_le in Hr2.
    exists (line c), l_if, l. unfold line_of. rewrite Hc. simpl.
    repeat split; try done; try lia. }
  destruct (is_empty (strip l) || startswith (strip l) (Str "//")); [by apply IH|].
  destruct (_is_if_statement (strip l)) eqn:Hif.
  { apply IH; [done| |done]. apply Forall_app. split; [done|].
    constructor; [|done]. by apply Hnew. }
  destruct (_is_else_if_statement (strip l)) eqn:Helif.
  { assert (He : is_else_like l = true).
    { unfold is_else_like. rewrite Helif. apply orb_true_r. }
    destruct (_find_matching_if_for_else _ _ _) as [k|] eqn:Hk.
    - apply IH; [done| |].
      + apply Forall_app. split; [by apply mark_has_else_ctx|].
        constructor; [|done]. by apply Hnew.
      + apply map_Forall_insert_2; [|done]. intros _. by apply Hclaim.
    - apply IH; [done|done|]. apply map_Forall_insert_2; [|done]. done. }
  destruct (_is_else_statement (strip l)) eqn:Hel.
  { assert (He : is_else_like l = true).
    { unfold is_else_like. by rewrite Hel. }
    destruct (_find_matching_if_for_else _ _ _) as [k|] eqn:Hk.
    - apply IH; [done|by apply mark_has_else_ctx|].
      apply map_Forall_insert_2; [|done]. intros _. by apply Hclaim.
    - apply IH; [done|done|]. apply map_Forall_insert_2; [|done]. done. }
  apply IH; [done| |done].
  apply Forall_forall. intros c Hc. apply list_elem_of_filter in Hc as [_ Hc].
  rewrite Forall_forall in Hctx'. by apply Hctx'.
Qed.

(** X15.  An [else] or [else if] line is paired only with an earlier [if] or
    [else if] line of the same indentation whose block ended before it,
    at most five lines before. *)
Theorem pairing_sound (rtl_lines : list str) (i : nat) (p : pair_info) :
  _analyze_if_else_pairing rtl_lines !! i = Some p ->
  has_matching_if p = true ->
  paired_with rtl_lines i p.
Proof.
  intros Hp Hm.
  pose proof (analyze_loop_sound rtl_lines rtl_lines 0 ∅ [] eq_refl
                ltac:(constructor) (map_Forall_empty _)) as H.
  exact (H i p Hp Hm).
Qed.

Lemma pairing_sound_witness :
  _analyze_if_else_pairing
    [Line "if (a)"; Line "  x <= 1;"; Line "else"; Line "  x <= 0;"] !! 2
  = Some (PairInfo true (Some 0))
  /\ has_matching_if (PairInfo true (Some 0)) = true
  /\ paired_with [Line "if (a)"; Line "  x <= 1;"; Line "else"; Line "  x <= 0;"]
       2 (PairInfo true (Some 0)).
Proof.
  split; [by vm_compute|]. split; [reflexivity|].
  apply (pairing_sound
           [Line "if (a)"; Line "  x <= 1;"; Line "else"; Line "  x <= 0;"]
           2 (PairInfo true (Some 0))); [by vm_compute|reflexivity].
Defined.

End IfElsePairing.

(* ===================================================================== *)
(** * The case regions and their pruning *)
(* ===================================================================== *)

Section CaseRegionFacts.

Import CaseStatementPatcher CaseRegions.

Lemma find_endcase_spec (rtl_lines : list str) : forall rest j e,
  drop j rtl_lines = rest ->
  find_endcase rest j = Some e ->
  j <= e < length rtl_lines
  /\ (exists l, rtl_lines !! e = Some l /\ is_endcase_line (strip l) = true)
  /\ (forall k l, j <= k < e -> rtl_lines !! k = Some l ->
                  is_endcase_line (strip l) = false).
Proof.
  intros rest. induction rest as [|l rest IH]; intros j e Hd; simpl; [done|].
  assert (Hl : rtl_lines !! j = Some l).
  { rewrite <- (Nat.add_0_r j), <- lookup_drop, Hd. done. }
  destruct (is_endcase_line (strip l)) eqn:E.
  - intros [= <-]. apply lookup_lt_Some in Hl as Hlt.
    split; [lia|]. split; [by exists l|]. intros k l' Hk. lia.
  - intros H. apply IH in H as (H1 & H2 & H3).
    + split; [lia|]. split; [done|]. intros k l' Hk Hk'.
      destruct (decide (k = j)) as [->|Hne]; [congruence|].
      apply (H3 k l'); [lia|done].
    + by rewrite <- drop_drop, Hd.
Qed.

Lemma identify_loop_regions (rtl_lines : list str) : forall fuel i acc,
  length rtl_lines - i <= fuel ->
  exists found,
    identify_loop fuel rtl_lines i acc = Some (acc ++ found)
    /\ Forall (region_ok rtl_lines) found
    /\ regions_from i found.
Proof.
  induction fuel as [|fuel IH]; intros i acc Hfuel; simpl.
  - destruct (rtl_lines !! i) eqn:E.
    + apply lookup_lt_Some in E. lia.
    + exists []. by rewrite app_nil_r.
  - destruct (rtl_lines !! i) as [l|] eqn:E.
    2: { exists []. by rewrite app_nil_r. }
    apply lookup_lt_Some in E as Hlt.
    assert (Hskip : exists found,
              identify_loop fuel rtl_lines (i + 1) acc = Some (acc ++ found)
              /\ Forall (region_ok rtl_lines) found /\ regions_from i found).
    { destruct (IH (i + 1) acc ltac:(lia)) as (f & H1 & H2 & H3).
      exists f. repeat split; try done.
      destruct f as [|cs f]; simpl in *; [done|]. split; [lia|tauto]. }
    destruct (Re.found case_open_pattern (strip l)) eqn:Ho; [|done].
    destruct (find_endcase (drop (i + 1) rtl_lines) (i + 1)) as [e|] eqn:Ef; [|done].
    apply (find_endcase_spec rtl_lines _ _ _ eq_refl) in Ef as (He & Hend & Hbetween).
    destruct (IH (e + 1) (acc ++ [CaseStruct i e]) ltac:(lia)) as (f & H1 & H2 & H3).
    exists (CaseStruct i e :: f). rewrite H1, <- app_assoc. split; [done|].
    split; [|by split].
    constructor; [|done]. split; [simpl; lia|]. split; [by exists l|].
    split; [done|]. simpl. intros j l' Hj. apply Hbetween. lia.
Qed.

Lemma identify_case_structures_regions_aux (rtl_lines : list str) :
  exists regions,
    _identify_case_structures rtl_lines = Some regions
    /\ Forall (region_ok rtl_lines) regions
    /\ regions_from 0 regions.
Proof.
  unfold _identify_case_structures.
  destruct (identify_loop_regions rtl_lines (length rtl_lines) 0 [] ltac:(lia))
    as (f & H & H1 & H2).
  exists f. by rewrite H.
Qed.

(** X16.  The regions [_identify_case_structures] returns: each runs from a
    [case] opening to the first [endcase] line after it, inside the list,
    and they follow one another without overlap. *)
Theorem identify_case_structures_regions (rtl_lines : list str) :
  exists regions,
    _identify_case_structures rtl_lines = Some regions
    /\ Forall (region_ok rtl_lines) regions
    /\ regions_from 0 regions.
Proof.
  unfold _identify_case_structures.
  destruct (identify_loop_regions rtl_lines (length rtl_lines) 0 [] ltac:(lia))
    as (found & Hrun & Hok & Hfrom).
  exists found. rewrite Hrun. by repeat split.
Qed.


(** ** The pruning of the empty regions *)

Lemma regions_from_weaken (lo lo' : nat) (rs : list case_struct) :
  lo' <= lo -> regions_from lo rs -> regions_from lo' rs.
Proof. destruct rs as [|cs rs]; simpl; [done|]. intros ? [? ?]. split; [lia|done]. Qed.

Lemma regions_from_filter (P : case_struct -> bool) (rs : list case_struct) :
  forall lo,
  Forall (fun cs => start cs < end_ cs) rs ->
  regions_from lo rs -> regions_from lo (List.filter P rs).
Proof.
  induction rs as [|cs rs IH]; intros lo Hlt Hr; simpl in *; [done|].
  inversion Hlt as [|? ? Hcs Hrs]; subst. destruct Hr as [Hlo Hr].
  destruct (P cs); simpl.
  - split; [done|]. by apply IH.
  - apply IH; [done|]. eapply regions_from_weaken; [|exact Hr]. lia.
Qed.

Lemma regions_from_starts (lo : nat) (rs : list case_struct) :
  Forall (fun cs => start cs < end_ cs) rs ->
  regions_from lo rs -> Forall (fun cs => lo <= start cs) rs.
Proof.
  revert lo. induction rs as [|cs rs IH]; intros lo Hlt Hr; [constructor|].
  inversion Hlt as [|? ? Hcs Hrs]; subst. destruct Hr as [Hlo Hr].
  constructor; [done|]. eapply Forall_impl; [apply (IH _ Hrs Hr)|].
  simpl. intros. lia.
Qed.

Lemma sort_desc_ascending (rs : list case_struct) : forall lo acc,
  Forall (fun cs => start cs < end_ cs) rs ->
  regions_from lo rs ->
  match acc with [] => True | y :: _ => y.1 < lo end ->
  foldl (fun acc x => insert_desc x acc) acc (map (fun cs => (start cs, end_ cs)) rs)
  = rev (map (fun cs => (start cs, end_ cs)) rs) ++ acc.
Proof.
  induction rs as [|cs rs IH]; intros lo acc Hlt Hr Hacc; simpl; [done|].
  inversion Hlt as [|? ? Hcs Hrs]; subst. destruct Hr as [Hlo Hr].
  assert (Hins : insert_desc (start cs, end_ cs) acc = (start cs, end_ cs) :: acc).
  { destruct acc as [|y acc]; simpl; [done|].
    destruct (Nat.ltb_spec y.1 (start cs)); [done|lia]. }
  rewrite Hins, (IH (end_ cs + 1)); [|done|done|simpl; lia].
  by rewrite <- app_assoc.
Qed.

Lemma delete_ranges_app (a b : list (nat * nat)) (l : list str) :
  delete_ranges (a ++ b) l = delete_ranges b (delete_ranges a l).
Proof.
  revert l. induction a as [|[s e] a IH]; intros l; simpl; [done|]. apply IH.
Qed.

Lemma keep_outside_app (rs : list case_struct) (a b : list str) : forall i,
  keep_outside rs i (a ++ b)
  = keep_outside rs i a ++ keep_outside rs (i + length a) b.
Proof.
  induction a as [|x a IH]; intros i; simpl.
  - by rewrite Nat.add_0_r.
  - replace (i + S (length a)) with (S i + length a) by lia.
    destruct (in_regions rs i); simpl; by rewrite IH.
Qed.

Lemma keep_outside_all (rs : list case_struct) (l : list str) : forall i,
  (forall j, i <= j < i + length l -> in_regions rs j = false) ->
  keep_outside rs i l = l.
Proof.
  induction l as [|x l IH]; intros i H; simpl; [done|].
  rewrite H by (simpl; lia). f_equal. apply IH. intros j Hj. apply H. simpl. lia.
Qed.

Lemma keep_outside_none (rs : list case_struct) (l : list str) : forall i,
  (forall j, i <= j < i + length l -> in_regions rs j = true) ->
  keep_outside rs i l = [].
Proof.
  induction l as [|x l IH]; intros i H; simpl; [done|].
  rewrite H by (simpl; lia). apply IH. intros j Hj. apply H. simpl. lia.
Qed.

Lemma keep_outside_ext (rs rs' : list case_struct) (l : list str) : forall i,
  (forall j, i <= j < i + length l -> in_regions rs j = in_regions rs' j) ->
  keep_outside rs i l = keep_outside rs' i l.
Proof.
  induction l as [|x l IH]; intros i H; simpl; [done|].
  rewrite H by (simpl; lia).
  rewrite IH; [done|]. intros j Hj. apply H. simpl. lia.
Qed.

Lemma in_regions_before (rs : list case_struct) (j : nat) :
  Forall (fun cs => j < start cs) rs -> in_regions rs j = false.
Proof.
  induction 1 as [|cs rs Hcs _ IH]; simpl; [done|].
  rewrite IH. destruct (Nat.leb_spec (start cs) j); [lia|done].
Qed.

Lemma delete_ranges_keep_outside (rs : list case_struct) : forall lo (lines : list str),
  Forall (fun cs => start cs < end_ cs < length lines) rs ->
  regions_from lo rs ->
  delete_ranges (rev (map (fun cs => (start cs, end_ cs)) rs)) lines
  = keep_outside rs 0 lines.
Proof.
  induction rs as [|cs rs IH]; intros lo lines Hb Hr.
  - simpl. symmetry. by apply keep_outside_all.
  - inversion Hb as [|? ? Hcs Hrs]; subst. destruct Hr as [Hlo Hr].
    assert (Hlt : Forall (fun cs => start cs < end_ cs) rs).
    { eapply Forall_impl; [exact Hrs|]. simpl. intros. lia. }
    pose proof (regions_from_starts _ _ Hlt Hr) as Hstarts.
    simpl. rewrite delete_ranges_app, (IH (end_ cs + 1)) by done. simpl.
    assert (Hsplit : lines = take (start cs) lines
                             ++ take (end_ cs + 1 - start cs) (drop (start cs) lines)
                             ++ drop (end_ cs + 1) lines).
    { rewrite <- (take_drop (start cs) lines) at 1. f_equal.
      rewrite <- (take_drop (end_ cs + 1 - start cs) (drop (start cs) lines)) at 1.
      f_equal. rewrite drop_drop. f_equal. lia. }
    set (A := take (start cs) lines) in *.
    set (M := take (end_ cs + 1 - start cs) (drop (start cs) lines)) in *.
    set (Z := drop (end_ cs + 1) lines) in *.
    assert (HA : length A = start cs) by (unfold A; rewrite length_take; lia).
    assert (HM : length M = end_ cs + 1 - start cs).
    { unfold M. rewrite length_take, length_drop. lia. }
    assert (Hrest : forall j, j < end_ cs + 1 -> in_regions rs j = false).
    { intros j Hj. apply in_regions_before.
      eapply Forall_impl; [exact Hstarts|]. simpl. intros. lia. }
    rewrite Hsplit.
    rewrite (keep_outside_app rs A), (keep_outside_app rs M).
    rewrite (keep_outside_all rs A) by (intros j Hj; apply Hrest; lia).
    rewrite (keep_outside_all rs M) by (intros j Hj; apply Hrest; lia).
    rewrite (keep_outside_app (cs :: rs) A), (keep_outside_app (cs :: rs) M).
    rewrite (keep_outside_all (cs :: rs) A).
    2: { intros j Hj. simpl. rewrite Hrest by lia.
         destruct (Nat.leb_spec (start cs) j); [lia|done]. }
    rewrite (keep_outside_none (cs :: rs) M).
    2: { intros j Hj. simpl.
         destruct (Nat.leb_spec (start cs) j); [|lia].
         destruct (Nat.leb_spec j (end_ cs)); [done|lia]. }
    rewrite (keep_outside_ext (cs :: rs) rs Z).
    2: { intros j Hj. simpl.
         destruct (Nat.leb_spec j (end_ cs)); [lia|]. by rewrite andb_false_r. }
    simpl. rewrite take_app_length' by done.
    rewrite app_assoc, drop_app_length' by (rewrite length_app; lia).
    done.
Qed.

(** X17.  The pruning removes the lines of the regions it finds empty, first to
    last line of each, and no other line; it counts one removal for each
    such region. *)
Theorem remove_empty_case_blocks_exact (self : t) (rtl_lines : list str) :
  exists regions,
    _identify_case_structures rtl_lines = Some regions
    /\ _remove_empty_case_blocks self rtl_lines
       = Some (keep_outside
                 (List.filter (_is_empty_case_structure rtl_lines) regions)
                 0 rtl_lines,
               Self (case_stack self) (fixed_count self)
                 (removed_count self
                  + length (List.filter (_is_empty_case_structure rtl_lines)
                              regions))).
Proof.
  destruct (identify_case_structures_regions_aux rtl_lines) as (regions & Hid & Hok & Hfrom).
  exists regions. split; [done|].
  unfold _remove_empty_case_blocks. rewrite Hid.
  assert (Hf : filter (fun cs => _is_empty_case_structure rtl_lines cs = true) regions
               = List.filter (_is_empty_case_structure rtl_lines) regions).
  { clear. induction regions as [|cs rs IH]; [done|].
    rewrite filter_cons. simpl.
    destruct (_is_empty_case_structure rtl_lines cs) eqn:E.
    - rewrite decide_True by done. by rewrite IH.
    - rewrite decide_False by congruence. done. }
  rewrite Hf.
  set (empty := List.filter (_is_empty_case_structure rtl_lines) regions).
  assert (Hb : Forall (fun cs => start cs < end_ cs < length rtl_lines) regions).
  { eapply Forall_impl; [exact Hok|]. by intros cs [? _]. }
  assert (Hbe : Forall (fun cs => start cs < end_ cs < length rtl_lines) empty).
  { apply Forall_forall. intros cs Hcs. apply list_elem_of_In, filter_In in Hcs as [Hcs _].
    rewrite Forall_forall in Hb. by apply Hb, list_elem_of_In. }
  assert (Hlt : Forall (fun cs => start cs < end_ cs) regions).
  { eapply Forall_impl; [exact Hb|]. simpl. intros. lia. }
  assert (Hlte : Forall (fun cs => start cs < end_ cs) empty).
  { eapply Forall_impl; [exact Hbe|]. simpl. intros. lia. }
  pose proof (regions_from_filter (_is_empty_case_structure rtl_lines) regions 0 Hlt Hfrom)
    as Hfe. fold empty in Hfe.
  rewrite length_fmap.
  destruct empty as [|cs0 rest] eqn:Ee.
  { simpl. rewrite keep_outside_all by done. done. }
  rewrite <- Ee in *.
  assert (Hne : map (fun cs => (start cs, end_ cs)) empty <> []) by (by rewrite Ee).
  destruct (map (fun cs => (start cs, end_ cs)) empty) as [|p ps] eqn:Em; [done|].
  rewrite <- Em. unfold sort_desc.
  rewrite (sort_desc_ascending empty 0 [] Hlte Hfe I), app_nil_r.
  by rewrite (delete_ranges_keep_outside empty 0 rtl_lines Hbe Hfe).
Qed.

End CaseRegionFacts.

(* ===================================================================== *)
(** * Patterns anchored at the end of the line *)
(* ===================================================================== *)

Section Anchored.

Import Re ReLang AssignStatementPatcher.

Lemma drop_while_head (p : ascii -> bool) (s : str) (c : ascii) (t : str) :
  drop_while p s = c :: t -> p c = false.
Proof.
  induction s as [|x s IH]; simpl; [done|].
  destruct (p x) eqn:E; [done|]. by intros [= <- <-].
Qed.

(** A trimmed text has no whitespace at its end. *)
Lemma strip_no_trailing (l a b : str) :
  strip l = a ++ b -> Forall (fun c => Char.is_space c = true) b -> b = [].
Proof.
  unfold strip, rstrip. intros H Hb.
  apply (f_equal (@rev ascii)) in H. rewrite rev_involutive, rev_app_distr in H.
  destruct b as [|x b _] using rev_ind; [done|].
  rewrite rev_app_distr in H. simpl in H.
  apply drop_while_head in H. apply Forall_app in Hb as [_ Hb].
  inversion Hb; subst. congruence.
Qed.

Lemma search_from_sound r : forall s p pv m,
  search_from r p pv s = Some m ->
  exists pre s' pv' st,
    s = pre ++ s' /\ attempt r false (p + length pre) pv' s' = Some st.
Proof.
  induction s as [|c t IH]; intros p pv m; simpl.
  - destruct (attempt r false p pv []) as [st|] eqn:E; [|done]. intros _.
    exists [], [], pv, st. simpl. by rewrite Nat.add_0_r.
  - destruct (attempt r false p pv (c :: t)) as [st|] eqn:E.
    + intros _. exists [], (c :: t), pv, st. simpl. by rewrite Nat.add_0_r.
    + intros H. apply IH in H as (pre & s' & pv' & st & -> & H).
      exists (c :: pre), s', pv', st. split; [done|].
      by replace (p + length (c :: pre)) with (S p + length pre) by (simpl; lia).
Qed.

Lemma at_eol_spaces (tail : str) :
  at_eol tail = true -> Forall (fun c => Char.is_space c = true) tail.
Proof.
  destruct tail as [|c [|c' t]]; simpl; [constructor| |done].
  intros H. unfold Char.eqb in H. apply Ascii.eqb_eq in H. subst c.
  by repeat constructor.
Qed.

(** A pattern that ends with the end-of-line anchor, found in a text: the
    text ends with a word of the pattern and then at most a newline. *)
Lemma found_eol (r : regex) (s : str) :
  found (Cat r Eol) s = true ->
  exists pre w tail, s = pre ++ w ++ tail /\ lang r w /\ at_eol tail = true.
Proof.
  unfold found, search.
  destruct (search_from (Cat r Eol) 0 None s) as [m|] eqn:E; [|done]. intros _.
  apply search_from_sound in E as (pre & s' & pv' & st & -> & H).
  unfold attempt in H. simpl in H.
  apply rmatch_sound in H as (w & st' & L & [S1 S2] & H). simpl in *.
  destruct (at_eol (rest st')) eqn:Ee; [|done].
  exists pre, w, (rest st'). by rewrite S1.
Qed.

Lemma found_assoc (a b c : regex) (s : str) :
  found (Cat a (Cat b c)) s = found (Cat (Cat a b) c) s.
Proof.
  unfold found, search. generalize 0 (@None ascii).
  induction s as [|x s IH]; intros p pv; simpl.
  - change (attempt (Cat (Cat a b) c) false p pv [])
      with (attempt (Cat a (Cat b c)) false p pv []). done.
  - change (attempt (Cat (Cat a b) c) false p pv (x :: s))
      with (attempt (Cat a (Cat b c)) false p pv (x :: s)).
    destruct (attempt (Cat a (Cat b c)) false p pv (x :: s)); [done|]. apply IH.
Qed.

Lemma found_eol_stripped (r : regex) (l : str) :
  found (Cat r Eol) (strip l) = true ->
  exists pre w, strip l = pre ++ w /\ lang r w.
Proof.
  intros H. apply found_eol in H as (pre & w & tail & E & L & Ht).
  rewrite app_assoc in E.
  pose proof (strip_no_trailing _ _ _ E (at_eol_spaces _ Ht)) as ->.
  rewrite app_nil_r in E. by exists pre, w.
Qed.

Lemma endswith_last (pre : str) (c : ascii) : endswith (pre ++ [c]) [c] = true.
Proof.
  unfold endswith. rewrite rev_app_distr. simpl.
  unfold Char.eqb. rewrite Ascii.eqb_refl. by destruct (rev pre).
Qed.

Lemma endswith_last_inv (s : str) (c : ascii) :
  endswith s [c] = true -> exists pre, s = pre ++ [c].
Proof.
  unfold endswith. simpl. destruct (rev s) as [|y t] eqn:E; [done|].
  intros H. apply andb_true_iff in H as [H _]. apply Ascii.eqb_eq in H. subst y.
  exists (rev t). apply (f_equal (@rev ascii)) in E.
  by rewrite rev_involutive in E.
Qed.

Lemma endswith_two (s : str) (x c : ascii) :
  endswith s [x; c] = true -> endswith s [c] = true.
Proof.
  unfold endswith. simpl. destruct (rev s) as [|y t]; simpl; [done|].
  intros H. apply andb_true_iff in H as [H _]. rewrite H. by destruct t.
Qed.

(** The pattern "X\s*$" for a one-character X finds a text that ends
    with X. *)
Lemma trailing_found (x : ascii) (pre : str) : forall p pv,
  is_match (search_from (Seq [One (CChar x); Star CSpace; Eol]) p pv (pre ++ [x])) = true.
Proof.
  induction pre as [|c pre IH]; intros p pv.
  - simpl. unfold attempt. simpl. unfold Char.eqb. by rewrite Ascii.eqb_refl.
  - change ((c :: pre) ++ [x]) with (c :: (pre ++ [x])).
    cbn [search_from].
    destruct (attempt _ false p pv (c :: pre ++ [x])); [done|]. apply IH.
Qed.

(** On a trimmed line the four patterns of [_is_incomplete_assignment]
    say that the line ends with [=], [?] or [:]. *)
Lemma is_incomplete_assignment_ends (l : str) :
  _is_incomplete_assignment (strip l)
  = endswith_any (strip l) [Str "="; Str "?"; Str ":"].
Proof.
  assert (Hfwd : forall (x : string) (c : ascii),
            (forall w, lang (Seq [Lit x; Star CSpace]) w ->
                       exists a ws, w = a ++ c :: ws
                         /\ Forall (fun c => Char.is_space c = true) ws) ->
            found (trailing x) (strip l) = true ->
            endswith (strip l) [c] = true).
  { intros x c Hw H.
    change (trailing x) with (Cat (Lit x) (Cat (Star CSpace) Eol)) in H.
    rewrite found_assoc in H.
    apply found_eol_stripped in H as (pre & w & E & L).
    destruct (Hw w L) as (a & ws & -> & Hws).
    replace (pre ++ a ++ c :: ws) with ((pre ++ a ++ [c]) ++ ws) in E
      by (by rewrite <- !app_assoc).
    pose proof (strip_no_trailing _ _ _ E Hws) as ->.
    rewrite app_nil_r, app_assoc in E. rewrite E. apply endswith_last. }
  assert (Hbwd : forall c, endswith (strip l) [c] = true ->
            found (Seq [One (CChar c); Star CSpace; Eol]) (strip l) = true).
  { intros c H. apply endswith_last_inv in H as (pre & ->). apply trailing_found. }
  assert (Hlang : forall (x : ascii) w,
            lang (Seq [One (CChar x); Star CSpace]) w ->
            exists a ws, w = a ++ x :: ws
                         /\ Forall (fun c => Char.is_space c = true) ws).
  { intros x w H. simpl in H. inversion H; subst.
    match goal with H1 : lang (One _) _ |- _ => inversion H1; subst end.
    match goal with H1 : lang (Star _) _ |- _ => inversion H1; subst end.
    match goal with H1 : mem (CChar _) _ = true |- _ =>
      simpl in H1; unfold Char.eqb in H1; apply Ascii.eqb_eq in H1; subst end.
    by exists [], w2. }
  assert (Hle : forall w,
            lang (Seq [Lit "<="; Star CSpace]) w ->
            exists a ws, w = a ++ "="%char :: ws
                         /\ Forall (fun c => Char.is_space c = true) ws).
  { intros w H. vm_compute in H. inversion H; subst.
    repeat match goal with
    | H1 : lang (Cat _ _) _ |- _ => inversion H1; subst; clear H1
    | H1 : lang (One _) _ |- _ => inversion H1; subst; clear H1
    | H1 : lang (Star _) _ |- _ => inversion H1; subst; clear H1
    | H1 : mem (CChar _) _ = true |- _ =>
        simpl in H1; unfold Char.eqb in H1; apply Ascii.eqb_eq in H1; subst
    end.
    by eexists ["<"%char], _. }
  assert (Hb1 : endswith (strip l) (Str "=") = true ->
                found (trailing "=") (strip l) = true) by exact (Hbwd "="%char).
  assert (Hb3 : endswith (strip l) (Str "?") = true ->
                found (trailing "?") (strip l) = true) by exact (Hbwd "?"%char).
  assert (Hb4 : endswith (strip l) (Str ":") = true ->
                found (trailing ":") (strip l) = true) by exact (Hbwd ":"%char).
  unfold _is_incomplete_assignment, incomplete_patterns, endswith_any.
  cbn [existsb].
  destruct (endswith (strip l) (Str "=")) eqn:E1.
  { by rewrite Hb1. }
  destruct (found (trailing "=") (strip l)) eqn:F1.
  { assert (X : endswith (strip l) (Str "=") = true)
      by exact (Hfwd "="%string "="%char (Hlang "="%char) F1). congruence. }
  destruct (found (trailing "<=") (strip l)) eqn:F2.
  { assert (X : endswith (strip l) (Str "=") = true)
      by exact (Hfwd "<="%string "="%char Hle F2). congruence. }
  destruct (endswith (strip l) (Str "?")) eqn:E3.
  { rewrite Hb3 by done. by rewrite !orb_true_r. }
  destruct (found (trailing "?") (strip l)) eqn:F3.
  { assert (X : endswith (strip l) (Str "?") = true)
      by exact (Hfwd "?"%string "?"%char (Hlang "?"%char) F3). congruence. }
  destruct (endswith (strip l) (Str ":")) eqn:E4.
  { rewrite Hb4 by done. by rewrite !orb_true_r. }
  destruct (found (trailing ":") (strip l)) eqn:F4.
  { assert (X : endswith (strip l) (Str ":") = true)
      by exact (Hfwd ":"%string ":"%char (Hlang ":"%char) F4). congruence. }
  done.
Qed.

Lemma rstrip_spec (s : str) :
  exists ws, s = rstrip s ++ ws /\ Forall (fun c => Char.is_space c = true) ws.
Proof.
  unfold rstrip.
  exists (rev (take_while Char.is_space (rev s))). split.
  - rewrite <- rev_app_distr, take_while_drop_while. by rewrite rev_involutive.
  - apply Forall_rev, take_while_Forall.
Qed.

(** X18.  Detection and repair of an incomplete assignment agree: a line the
    detection takes is given its right-hand side and a semicolon, after
    its own text trimmed at the right, and is never returned as it was; a
    line the detection leaves is returned as it is. *)
Theorem incomplete_assignment_repaired (line : str) :
  (_is_incomplete_assignment (strip line) = true ->
   (_fix_incomplete_assignment line = rstrip line ++ Str " 1'b0;"
    \/ _fix_incomplete_assignment line = rstrip line ++ Str " 1'b1 : 1'b0;")
   /\ _fix_incomplete_assignment line <> line)
  /\ (_is_incomplete_assignment (strip line) = false ->
      _fix_incomplete_assignment line = line).
Proof.
  rewrite is_incomplete_assignment_ends. unfold endswith_any. cbn [existsb].
  unfold _fix_incomplete_assignment.
  assert (Hne : forall tail : str,
            (exists a b, tail = a ++ "1"%char :: b) -> rstrip line ++ tail <> line).
  { intros tail (a & b & ->) E.
    destruct (rstrip_spec line) as (ws & Hl & Hws).
    rewrite Hl in E at 2. apply app_inv_head in E. subst ws.
    apply Forall_app in Hws as [_ Hws]. by inversion Hws. }
  pose proof (endswith_two (strip line) "<" "=") as Hle.
  change [("<")%char; ("=")%char] with (Str "<=") in Hle.
  change [("=")%char] with (Str "=") in Hle.
  split.
  - intros H.
    destruct (endswith (strip line) (Str "=")).
    { split; [by left|]. apply Hne. by exists (Str " "), (Str "'b0;"). }
    destruct (endswith (strip line) (Str "<=")); [by discriminate Hle|].
    destruct (endswith (strip line) (Str "?")).
    { split; [by right|]. apply Hne. by exists (Str " "), (Str "'b1 : 1'b0;"). }
    destruct (endswith (strip line) (Str ":")); [|done].
    split; [by left|]. apply Hne. by exists (Str " "), (Str "'b0;").
  - intros H.
    destruct (endswith (strip line) (Str "=")); [done|].
    destruct (endswith (strip line) (Str "<=")); [by discriminate Hle|].
    destruct (endswith (strip line) (Str "?")); [done|].
    by destruct (endswith (strip line) (Str ":")).
Qed.

Lemma incomplete_assignment_repaired_witness :
  _is_incomplete_assignment (strip (Line "  y =  ")) = true
  /\ (_fix_incomplete_assignment (Line "  y =  ") = rstrip (Line "  y =  ") ++ Str " 1'b0;"
      \/ _fix_incomplete_assignment (Line "  y =  ")
         = rstrip (Line "  y =  ") ++ Str " 1'b1 : 1'b0;")
  /\ _fix_incomplete_assignment (Line "  y =  ") <> Line "  y =  ".
Proof.
  split; [reflexivity|].
  apply (proj1 (incomplete_assignment_repaired (Line "  y =  "))). reflexivity.
Defined.

End Anchored.

Section AlwaysHeaders.

Import Re ReLang Rewriting AlwaysBlockPatcher Quiet.

(** A text that ends with [begin] and a newline is no incomplete always
    header. *)
Lemma begin_line_complete (a : str) :
  _is_incomplete_always_block (strip (a ++ Str "begin" ++ nl)) = false.
Proof.
  assert (Hn : exists pre, strip (a ++ Str "begin" ++ nl) = pre ++ ["n"%char]).
  { apply endswith_last_inv, (closed_by_endswith "n"); [done|].
    exists (a ++ Str "begi"), nl. split; [by rewrite <- app_assoc|].
    by repeat constructor. }
  destruct Hn as (pre' & Hn).
  assert (Hno : forall r,
            (forall w, lang r w ->
               exists w0 c, w = w0 ++ [c] /\ c <> "n"%char) ->
            found (Cat r Eol) (strip (a ++ Str "begin" ++ nl)) = false).
  { intros r Hr. destruct (found (Cat r Eol) _) eqn:F; [|done].
    apply found_eol_stripped in F as (pre & w & E & L).
    destruct (Hr w L) as (w0 & c & -> & Hc).
    rewrite Hn, app_assoc in E. apply app_inj_tail in E as [_ E]. congruence. }
  assert (Hend : forall (w0 : str) (c : ascii) (ws : str),
            c <> "n"%char -> Forall (fun x => mem CSpace x = true) ws ->
            exists w1 x, w0 ++ c :: ws = w1 ++ [x] /\ x <> "n"%char).
  { intros w0 c ws Hc Hws. destruct ws as [|y ws _] using rev_ind.
    - by exists w0, c.
    - exists (w0 ++ c :: ws), y. split; [by rewrite app_comm_cons, app_assoc|].
      apply Forall_app in Hws as [_ Hws]. inversion Hws; subst.
      intros ->. done. }
  unfold _is_incomplete_always_block. cbn [existsb].
  assert (H1 : found always_bare (strip (a ++ Str "begin" ++ nl)) = false).
  { unfold always_bare. cbn [Seq]. rewrite !found_assoc. apply Hno.
    intros w L. vm_compute in L.
    repeat match goal with
    | H : lang (Cat _ _) _ |- _ => inversion H; subst; clear H
    | H : lang (One _) _ |- _ => inversion H; subst; clear H
    | H : lang (Star _) _ |- _ => inversion H; subst; clear H
    | H : lang WordB _ |- _ => inversion H; subst; clear H
    | H : mem (CChar _) _ = true |- _ =>
        simpl in H; unfold Char.eqb in H; apply Ascii.eqb_eq in H; subst
    end.
    simpl. apply (Hend (Str "alway") "s"%char); done. }
  assert (H2 : found always_parens (strip (a ++ Str "begin" ++ nl)) = false).
  { unfold always_parens. cbn [Seq]. rewrite !found_assoc. apply Hno.
    intros w L. vm_compute in L.
    repeat match goal with
    | H : lang (Cat _ _) _ |- _ => inversion H; subst; clear H
    | H : lang (One _) _ |- _ => inversion H; subst; clear H
    | H : lang (Star _) _ |- _ => inversion H; subst; clear H
    | H : lang WordB _ |- _ => inversion H; subst; clear H
    | H : mem (CChar _) _ = true |- _ =>
        simpl in H; unfold Char.eqb in H; apply Ascii.eqb_eq in H; subst
    end.
    eexists _, _. split; [reflexivity|done]. }
  assert (H3 : found always_at (strip (a ++ Str "begin" ++ nl)) = false).
  { unfold always_at. cbn [Seq]. rewrite !found_assoc. apply Hno.
    intros w L. vm_compute in L.
    repeat match goal with
    | H : lang (Cat _ _) _ |- _ => inversion H; subst; clear H
    | H : lang (One _) _ |- _ => inversion H; subst; clear H
    | H : lang (Star _) _ |- _ => inversion H; subst; clear H
    | H : lang WordB _ |- _ => inversion H; subst; clear H
    | H : mem (CChar _) _ = true |- _ =>
        simpl in H; unfold Char.eqb in H; apply Ascii.eqb_eq in H; subst
    end.
    simpl. rewrite <- !app_assoc. simpl.
    match goal with
    | |- exists w0 c, _ :: _ :: _ :: _ :: _ :: _ :: ?u ++ "@"%char :: ?ws = _ /\ _ =>
        apply (Hend (Str "always" ++ u) "@"%char ws); done
    end. }
  assert (H4 : found always_at_parens (strip (a ++ Str "begin" ++ nl)) = false).
  { unfold always_at_parens. cbn [Seq]. rewrite !found_assoc. apply Hno.
    intros w L. vm_compute in L.
    repeat match goal with
    | H : lang (Cat _ _) _ |- _ => inversion H; subst; clear H
    | H : lang (One _) _ |- _ => inversion H; subst; clear H
    | H : lang (Star _) _ |- _ => inversion H; subst; clear H
    | H : lang WordB _ |- _ => inversion H; subst; clear H
    | H : mem (CChar _) _ = true |- _ =>
        simpl in H; unfold Char.eqb in H; apply Ascii.eqb_eq in H; subst
    end.
    eexists _, _. split; [reflexivity|done]. }
  by rewrite H1, H2, H3, H4.
Qed.

Lemma fix_incomplete_always_block_complete (line : str) (rtl_lines : list str)
    (line_idx : nat) :
  is_incomplete_header line = true ->
  found always_parens (strip line) = false ->
  found always_at_parens (strip line) = false ->
  is_incomplete_header (_fix_incomplete_always_block line rtl_lines line_idx) = false.
Proof.
  unfold is_incomplete_header at 1, _is_incomplete_always_block. cbn [existsb].
  intros H Hp Hap. rewrite Hp, Hap in H. simpl in H. rewrite orb_false_r in H.
  unfold _fix_incomplete_always_block. rewrite Hp.
  assert (Hs : forall sens,
            is_incomplete_header
              (_get_indent line ++ Str "always @(" ++ sens ++ Str ") begin" ++ nl)
            = false).
  { intros sens. unfold is_incomplete_header.
    replace (_get_indent line ++ Str "always @(" ++ sens ++ Str ") begin" ++ nl)
      with ((_get_indent line ++ Str "always @(" ++ sens ++ Str ") ")
            ++ Str "begin" ++ nl)
      by (by rewrite <- !app_assoc).
    apply begin_line_complete. }
  pose proof (Hs (Str "posedge " ++ _detect_clock_signal rtl_lines)) as Hseq.
  pose proof (Hs (Str "*")) as Hcomb.
  rewrite <- !app_assoc in Hseq.
  destruct (found always_bare (strip line)).
  - destruct (_ && _); [exact Hseq|exact Hcomb].
  - simpl in H. rewrite H. destruct (_ && _); [exact Hseq|exact Hcomb].
Qed.

(** X19.  When no incomplete header of the input has the empty parentheses, the
    Always pass leaves no incomplete header behind, and a second run, on
    any instance, returns its input and moves no counter. *)
Theorem always_pass_settles (self self2 : t) (rtl_lines : list str) :
  no_empty_parens_header rtl_lines = true ->
  no_incomplete_header (fix_always_blocks self rtl_lines).1 = true
  /\ fix_always_blocks self2 (fix_always_blocks self rtl_lines).1
     = ((fix_always_blocks self rtl_lines).1, self2).
Proof.
  intros Hq.
  assert (Hout : no_incomplete_header (fix_always_blocks self rtl_lines).1 = true).
  { unfold fix_always_blocks. rewrite always_fix_loop_spec. simpl.
    unfold no_incomplete_header. apply forallb_forall. intros x Hx.
    apply list_elem_of_In, list_elem_of_lookup in Hx as (j & Hj).
    rewrite list_lookup_imap in Hj.
    destruct (rtl_lines !! j) as [l|] eqn:El; [|done]. simpl in Hj.
    pose proof (forallb_lookup _ _ _ _ Hq El) as Hl. simpl in Hl.
    apply andb_prop in Hl as [Hp Hap].
    apply negb_true_iff in Hp. apply negb_true_iff in Hap.
    destruct (is_incomplete_header l) eqn:Ei; injection Hj as <-.
    - by rewrite fix_incomplete_always_block_complete.
    - by rewrite Ei. }
  split; [done|]. unfold fix_always_blocks at 1.
  by rewrite always_fix_loop_quiet.
Qed.

Lemma always_pass_settles_witness :
  no_empty_parens_header [Line "  always"; Line "    q <= d;"] = true
  /\ no_incomplete_header (fix_always_blocks new [Line "  always"; Line "    q <= d;"]).1
     = true
  /\ fix_always_blocks new
       (fix_always_blocks new [Line "  always"; Line "    q <= d;"]).1
     = ((fix_always_blocks new [Line "  always"; Line "    q <= d;"]).1, new).
Proof.
  split; [reflexivity|].
  apply (always_pass_settles new new [Line "  always"; Line "    q <= d;"]).
  reflexivity.
Defined.

End AlwaysHeaders.

(* ===================================================================== *)
(** * The lines of the Generate pass *)
(* ===================================================================== *)

Section GenerateWrapping.

Import GenerateBlockPatcher Wrapping.

Lemma wrapped_app (a x b y : list str) :
  wrapped a x -> wrapped b y -> wrapped (a ++ b) (x ++ y).
Proof. induction 1; intros Hb; simpl; [done|constructor; auto..]. Qed.

Lemma wrapped_then (a x y : list str) :
  wrapped a x -> wrapped [] y -> wrapped a (x ++ y).
Proof. intros Ha Hy. rewrite <- (app_nil_r a). by apply wrapped_app. Qed.

Lemma wrapped_indented (l : list str) :
  wrapped l (map (fun x => Str "  " ++ x) l).
Proof. induction l; simpl; constructor; auto. Qed.

Lemma wrapped_scaffolds (xs : list str) :
  Forall scaffold xs -> wrapped [] xs.
Proof. induction 1; constructor; auto. Qed.

Lemma block_scan_le (rtl_lines : list str) : forall rest j,
  drop j rtl_lines = rest -> j <= length rtl_lines ->
  block_scan rest j <= length rtl_lines.
Proof.
  intros rest. induction rest as [|l rest IH]; intros j Hd Hj; simpl; [done|].
  assert (Hlt : j < length rtl_lines).
  { destruct (decide (j < length rtl_lines)); [done|].
    rewrite drop_ge in Hd by lia. done. }
  repeat case_match; try lia.
  apply IH; [|lia]. by rewrite <- drop_drop, Hd.
Qed.

Lemma flat_map_lookups {A B} (f : A -> B) (l : list A) : forall n a,
  a + n <= length l ->
  flat_map (fun i => match l !! i with Some x => [f x] | None => [] end) (seq a n)
  = map f (take n (drop a l)).
Proof.
  induction n as [|n IH]; intros a Ha; simpl; [done|].
  destruct (lookup_lt_is_Some_2 l a ltac:(lia)) as [x Hx].
  rewrite Hx, (drop_lookup_cons _ _ _ Hx). simpl. f_equal. apply IH. lia.
Qed.

Lemma indented_block_lines (rtl_lines : list str) (b : block_info) :
  start_idx b <= end_idx b + 1 -> end_idx b + 1 <= length rtl_lines ->
  indented_block rtl_lines b
  = map (fun x => Str "  " ++ x)
      (take (end_idx b + 1 - start_idx b) (drop (start_idx b) rtl_lines)).
Proof.
  intros H1 H2. unfold indented_block, range.
  apply (flat_map_lookups (fun x => Str "  " ++ x)). lia.
Qed.

Lemma orphan_loop_cover (rtl_lines : list str) : forall fuel cur blocks g,
  length rtl_lines - cur <= fuel -> cur <= length rtl_lines ->
  exists bs cur' g',
    orphan_loop fuel rtl_lines cur blocks g = Some (blocks ++ bs, cur', g')
    /\ cur <= cur' <= length rtl_lines
    /\ flat_map (indented_block rtl_lines) bs
       = map (fun x => Str "  " ++ x) (take (cur' - cur) (drop cur rtl_lines))
    /\ (bs <> [] -> cur < cur').
Proof.
  induction fuel as [|fuel IH]; intros cur blocks g Hfuel Hcur.
  - simpl. destruct (rtl_lines !! cur) eqn:E.
    { apply lookup_lt_Some in E. lia. }
    exists [], cur, g. rewrite app_nil_r, Nat.sub_diag. by repeat split.
  - assert (Hstop : exists bs cur' g',
              Some (blocks, cur, g) = Some (blocks ++ bs, cur', g')
              /\ cur <= cur' <= length rtl_lines
              /\ flat_map (indented_block rtl_lines) bs
                 = map (fun x => Str "  " ++ x)
                     (take (cur' - cur) (drop cur rtl_lines))
              /\ (bs <> [] -> cur < cur')).
    { exists [], cur, g. rewrite app_nil_r, Nat.sub_diag. by repeat split. }
    simpl. destruct (rtl_lines !! cur) as [l|] eqn:E; [|done].
    apply lookup_lt_Some in E as Hlt.
    destruct (_is_orphan_generate_block (strip l)); [|done].
    unfold _collect_single_block. rewrite E.
    destruct (Re.match_ labeled_begin_pattern (strip l)) as [m|]; [|done].
    set (scan := block_scan (drop (cur + 1) rtl_lines) (cur + 1)).
    pose proof (block_scan_ge (drop (cur + 1) rtl_lines) (cur + 1)) as Hge.
    pose proof (block_scan_le rtl_lines _ (cur + 1) eq_refl ltac:(lia)) as Hle.
    fold scan in Hge, Hle. cbn [end_idx].
    replace (scan - 1 + 1) with scan by lia.
    set (b := BlockInfo _ cur (scan - 1) _).
    destruct (IH scan (blocks ++ [b]) (g || _block_needs_genvar b rtl_lines)
                ltac:(lia) ltac:(lia)) as (bs & cur' & g' & -> & Hc & Hf & Hn).
    exists (b :: bs), cur', g'. rewrite <- app_assoc. split; [done|].
    split; [lia|]. split; [|intros _; lia].
    simpl. rewrite Hf, indented_block_lines by (simpl; lia). simpl.
    rewrite <- map_app. f_equal.
    replace (scan - 1 + 1 - cur) with (scan - cur) by lia.
    replace (drop scan rtl_lines) with (drop (scan - cur) (drop cur rtl_lines))
      by (rewrite drop_drop; f_equal; lia).
    rewrite take_take_drop. f_equal. lia.
Qed.

Lemma generate_fix_loop_wrapped (rtl_lines : list str) : forall fuel i self acc,
  length rtl_lines - i <= fuel ->
  exists produced self',
    fix_loop fuel rtl_lines i self acc = Some (acc ++ produced, self')
    /\ wrapped (drop i rtl_lines) produced.
Proof.
  induction fuel as [|fuel IH]; intros i self acc Hfuel.
  - simpl. destruct (rtl_lines !! i) eqn:E.
    { apply lookup_lt_Some in E. lia. }
    exists [], self. rewrite app_nil_r. split; [done|].
    rewrite drop_ge by (apply lookup_ge_None; done). constructor.
  - simpl. destruct (rtl_lines !! i) as [l|] eqn:E.
    2: { exists [], self. rewrite app_nil_r. split; [done|].
         rewrite drop_ge by (apply lookup_ge_None; done). constructor. }
    apply lookup_lt_Some in E as Hlt.
    assert (Hkeep : forall self0, exists produced self',
              fix_loop fuel rtl_lines (i + 1) self0 (acc ++ [l])
              = Some (acc ++ produced, self')
              /\ wrapped (drop i rtl_lines) produced).
    { intros self0.
      destruct (IH (i + 1) self0 (acc ++ [l]) ltac:(lia)) as (p & s' & -> & Hw).
      exists (l :: p), s'. rewrite <- app_assoc. split; [done|].
      rewrite (drop_lookup_cons _ _ _ E). constructor.
      by replace (S i) with (i + 1) by lia. }
    destruct (_is_orphan_generate_block (strip l)); [|apply Hkeep].
    unfold _collect_orphan_blocks.
    destruct (orphan_loop_cover rtl_lines (length rtl_lines) i [] false
                ltac:(lia) ltac:(lia)) as (bs & cur' & g' & -> & Hc & Hf & Hn).
    cbn [app blocks].
    destruct bs as [|b bs]; [apply Hkeep|].
    specialize (Hn ltac:(done)).
    unfold _wrap_with_generate. cbn [blocks needs_genvar group_start_idx group_end_idx].
    replace (cur' - 1 + 1) with cur' by lia.
    match goal with
    | |- context [fix_loop fuel rtl_lines cur' ?s (acc ++ ?w)] =>
        destruct (IH cur' s (acc ++ w) ltac:(lia)) as (p & s' & Hrun & Hw);
        set (chunk := w) in *
    end.
    exists (chunk ++ p), s'. split.
    { rewrite app_assoc. destruct g'; exact Hrun. }
    replace (drop i rtl_lines)
      with (take (cur' - i) (drop i rtl_lines) ++ drop cur' rtl_lines).
    2: { rewrite <- (take_drop (cur' - i) (drop i rtl_lines)) at 2.
         rewrite drop_drop. do 2 f_equal. lia. }
    apply wrapped_app; [|done].
    unfold chunk. rewrite Hf.
    set (base := _get_indent (getitem rtl_lines i)).
    assert (S1 : scaffold (base ++ Line "genvar I;")) by (exists base; auto).
    assert (S2 : scaffold (base ++ Line "generate")) by (exists base; auto).
    assert (S3 : scaffold (base ++ Str "  for (I = 0; I < "
                           ++ _infer_generate_loop_range
                                (BlocksInfo (b :: bs) i (cur' - 1) g') rtl_lines
                           ++ Line "; I = I + 1) begin")).
    { exists base. right. right. left. by eexists. }
    assert (S4 : scaffold (base ++ Line "  end")) by (exists base; auto 6).
    assert (S5 : scaffold (base ++ Line "endgenerate")) by (exists base; auto 6).
    destruct g'; cbn [app].
    + apply wr_scaffold; [done|]. apply wr_scaffold; [done|].
      apply wr_scaffold; [done|].
      apply wrapped_then; [apply wrapped_indented|].
      apply wr_scaffold; [done|]. apply wr_scaffold; [done|]. constructor.
    + apply wr_scaffold; [done|].
      apply wrapped_then; [apply wrapped_indented|].
      apply wr_scaffold; [done|]. constructor.
Qed.

(** X20.  The Generate pass returns on every input, loses no line and keeps
    the order: its output has every input line, as it was or indented by
    two spaces, and between them only the genvar, generate, for, end and
    endgenerate lines it writes. *)
Theorem generate_pass_wraps (self : t) (rtl_lines : list str) :
  exists out self',
    fix_generate_blocks self rtl_lines = Some (out, self')
    /\ wrapped rtl_lines out.
Proof.
  unfold fix_generate_blocks.
  destruct (generate_fix_loop_wrapped rtl_lines (length rtl_lines) 0 self []
              ltac:(lia)) as (p & s' & H & Hw).
  exists p, s'. by rewrite H.
Qed.

End GenerateWrapping.

(* ===================================================================== *)
(** * The lines a merged assign statement is made of *)
(* ===================================================================== *)

Section AssignCollect.

Import AssignStatementPatcher.

Lemma collect_loop_parts (rest : list str) : forall parts n,
  exists k, k <= length rest
    /\ collect_loop rest parts n
       = (parts ++ List.filter kept_part (map strip (take k rest)), n + k).
Proof.
  induction rest as [|l rest IH]; intros parts n.
  - exists 0. simpl. by rewrite app_nil_r, Nat.add_0_r.
  - cbn [collect_loop].
    assert (Hkept : kept_part (strip l)
                    = negb (is_empty (strip l) || startswith (strip l) (Str "//")))
      by reflexivity.
    destruct (is_empty (strip l) || startswith (strip l) (Str "//")) eqn:Eb.
    { destruct (IH parts (n + 1)) as (k & Hk & ->). exists (S k).
      split; [simpl; lia|]. cbn [take map List.filter].
      rewrite Hkept. simpl. f_equal. lia. }
    destruct (_is_new_statement_start (strip l) && negb (_is_continuation_line (strip l))).
    { exists 0. simpl. rewrite app_nil_r, Nat.add_0_r. split; [lia|done]. }
    destruct (endswith (strip l) (Str ";")).
    { exists 1. split; [simpl; lia|]. cbn [take map List.filter].
      rewrite Hkept. by simpl. }
    destruct (IH (parts ++ [strip l]) (n + 1)) as (k & Hk & ->). exists (S k).
    split; [simpl; lia|]. cbn [take map List.filter].
    rewrite Hkept. simpl. rewrite <- app_assoc. simpl. f_equal. lia.
Qed.

(** X22.  The statement [_collect_complete_assign] returns is made of the lines
    it consumed: the first one and, of those that follow, the ones that
    are neither blank nor comments, each trimmed, joined by single
    spaces.  It consumes at least the first line and never passes the
    end of the list. *)
Theorem collect_complete_assign_parts (rtl_lines : list str) (start_idx : nat) :
  start_idx < length rtl_lines ->
  1 <= (_collect_complete_assign rtl_lines start_idx).2
    <= length rtl_lines - start_idx
  /\ (_collect_complete_assign rtl_lines start_idx).1
     = join (Str " ")
         (strip (getitem rtl_lines start_idx)
          :: List.filter kept_part
               (map strip
                  (slice rtl_lines (start_idx + 1)
                     (start_idx + (_collect_complete_assign rtl_lines start_idx).2)))).
Proof.
  intros Hlt. unfold _collect_complete_assign.
  destruct (negb _ || _).
  - destruct (collect_loop_parts (drop (start_idx + 1) rtl_lines)
                [strip (getitem rtl_lines start_idx)] 1) as (k & Hk & ->).
    rewrite length_drop in Hk. cbn [fst snd]. split; [lia|].
    unfold slice. replace (start_idx + (1 + k) - (start_idx + 1)) with k by lia.
    done.
  - cbn [fst snd]. split; [lia|]. unfold slice.
    replace (start_idx + 1 - (start_idx + 1)) with 0 by lia. by rewrite take_0.
Qed.

Lemma collect_complete_assign_parts_witness :
  0 < length [Line "assign y = a &"; Line "  // mask"; Line "  b;"; Line "wire w;"]
  /\ (1 <= (_collect_complete_assign
              [Line "assign y = a &"; Line "  // mask"; Line "  b;"; Line "wire w;"] 0).2
        <= length [Line "assign y = a &"; Line "  // mask"; Line "  b;"; Line "wire w;"] - 0
      /\ (_collect_complete_assign
            [Line "assign y = a &"; Line "  // mask"; Line "  b;"; Line "wire w;"] 0).1
         = join (Str " ")
             (strip (getitem
                       [Line "assign y = a &"; Line "  // mask"; Line "  b;";
                        Line "wire w;"] 0)
              :: List.filter kept_part
                   (map strip
                      (slice [Line "assign y = a &"; Line "  // mask"; Line "  b;";
                              Line "wire w;"] (0 + 1)
                         (0 + (_collect_complete_assign
                                 [Line "assign y = a &"; Line "  // mask";
                                  Line "  b;"; Line "wire w;"] 0).2))))).
Proof.
  split; [simpl; lia|].
  apply (collect_complete_assign_parts
           [Line "assign y = a &"; Line "  // mask"; Line "  b;"; Line "wire w;"] 0).
  simpl; lia.
Defined.

End AssignCollect.

(* ===================================================================== *)
(** * The always blocks taken from the source file *)
(* ===================================================================== *)

Section SourceBlocks.

Import AlwaysBlockSource.

Lemma find_begin_idx_spec (source_lines : list str) (idxs : list nat) (j : nat) :
  find_begin_idx source_lines idxs = Some j ->
  In j idxs /\ contains (Str "begin") (getitem source_lines j) = true.
Proof.
  induction idxs as [|k idxs IH]; cbn [find_begin_idx]; [done|].
  destruct (contains (Str "begin") (getitem source_lines k)) eqn:E.
  - intros [= <-]. split; [by left|done].
  - intros H. destruct (IH H). split; [by right|done].
Qed.

Lemma signature_loop_spec (source_lines : list str) (idxs : list nat) :
  forall acc,
  length acc < 3 ->
  Forall (fun s => is_empty s = false /\ startswith s (Str "//") = false
                   /\ str_eqb s (Str "begin") = false) acc ->
  length (signature_loop source_lines idxs acc) <= 3
  /\ Forall (fun s => is_empty s = false /\ startswith s (Str "//") = false
                      /\ str_eqb s (Str "begin") = false)
       (signature_loop source_lines idxs acc).
Proof.
  induction idxs as [|k idxs IH]; intros acc Hlen Hacc; cbn [signature_loop].
  - split; [lia|done].
  - destruct (negb (is_empty (strip (getitem source_lines k)))) eqn:E1; cbn [andb];
      [|by apply IH].
    destruct (negb (startswith (strip (getitem source_lines k)) (Str "//"))) eqn:E2;
      cbn [andb]; [|by apply IH].
    destruct (negb (str_eqb (strip (getitem source_lines k)) (Str "begin"))) eqn:E3;
      cbn [andb]; [|by apply IH].
    apply negb_true_iff in E1, E2, E3.
    assert (Hacc' : Forall (fun s => is_empty s = false
                                     /\ startswith s (Str "//") = false
                                     /\ str_eqb s (Str "begin") = false)
                      (acc ++ [strip (getitem source_lines k)])).
    { apply Forall_app. split; [done|]. by repeat constructor. }
    destruct (Nat.leb_spec 3 (length (acc ++ [strip (getitem source_lines k)])))
      as [Hge|Hlt].
    + split; [|done]. rewrite length_app in *. simpl in *. lia.
    + by apply IH.
Qed.

Lemma extract_loop_sound (source_lines : list str) : forall rest i cm blocks,
  drop i source_lines = rest ->
  (forall name, cm = Some name -> is_Some (blocks !! name)) ->
  map_Forall (fun _ found => Forall (block_ok source_lines) found) blocks ->
  exists result,
    extract_loop source_lines rest i cm blocks = Some result
    /\ map_Forall (fun _ found => Forall (block_ok source_lines) found) result.
Proof.
  intros rest. induction rest as [|l rest IH]; intros i cm blocks Hd Hcm Hok.
  - by exists blocks.
  - cbn [extract_loop].
    assert (Hl : source_lines !! i = Some l).
    { rewrite <- (Nat.add_0_r i), <- lookup_drop, Hd. done. }
    assert (Hget : getitem source_lines i = l).
    { unfold getitem. by apply nth_lookup_Some. }
    apply lookup_lt_Some in Hl as Hlt.
    assert (Hd' : drop (i + 1) source_lines = rest) by (by rewrite <- drop_drop, Hd).
    match goal with
    | |- context [let '(a, b) := ?e in _] =>
        assert (Hset : exists cm' blocks', e = (cm', blocks')
                  /\ (forall name, cm' = Some name -> is_Some (blocks' !! name))
                  /\ map_Forall (fun _ found => Forall (block_ok source_lines) found)
                       blocks');
          [|destruct Hset as (cm' & blocks' & -> & Hcm' & Hok')]
    end.
    { destruct (startswith (strip l) (Str "module ")); [|by eauto].
      destruct (Re.match_ module_pattern (strip l)) as [m|]; [|by eauto].
      eexists _, _. split; [done|]. split.
      - intros name Hn. injection Hn as <-. rewrite lookup_insert_eq. by eexists.
      - apply map_Forall_insert_2; [constructor|done]. }
    destruct cm' as [name|]; [|by apply IH].
    destruct (startswith (strip l) (Str "always") && negb (is_empty name)) eqn:Ea;
      [|by apply IH].
    apply andb_true_iff in Ea as [Ea _].
    destruct (find_begin_idx source_lines _) as [b|] eqn:Eb; [|by apply IH].
    apply find_begin_idx_spec in Eb as [Hin Hb].
    unfold range in Hin. apply in_seq in Hin.
    destruct (Hcm' name eq_refl) as [found Hf]. rewrite Hf.
    apply IH; [done| |].
    + intros name' Hn. injection Hn as <-. rewrite lookup_insert_eq. by eexists.
    + apply map_Forall_insert_2; [|done].
      apply Forall_app. split; [exact (Hok' name found Hf)|].
      constructor; [|done].
      destruct (signature_loop_spec source_lines
                  (range (b + 1) (Nat.min (b + 10) (length source_lines))) []
                  ltac:(simpl; lia) ltac:(constructor)) as [Hs1 Hs2].
      unfold block_ok. cbn [line_num always_decl signature]. rewrite Hget.
      split; [done|]. split; [done|]. split; [done|].
      split; [exists b; split; [lia|]; split; [lia|done]|]. by split.
Qed.

(** X27.  The metadata taken from the source file: the extraction never fails,
    and every entry stands for a line inside the file whose trimmed text
    begins with [always] and is the entry's declaration, with a line
    containing [begin] among the four lines after it, and a signature of
    at most three trimmed lines, none of them blank, a comment or a lone
    [begin]. *)
Theorem extract_source_always_blocks_sound (source_lines : list str) :
  exists blocks,
    _extract_source_always_blocks source_lines = Some blocks
    /\ forall name found b,
         blocks !! name = Some found -> In b found -> block_ok source_lines b.
Proof.
  destruct (extract_loop_sound source_lines source_lines 0 None ∅ eq_refl)
    as (blocks & H & Hok); [done|apply map_Forall_empty|].
  exists blocks. split; [done|]. intros name found b Hf Hb.
  specialize (Hok name found Hf). rewrite Forall_forall in Hok.
  by apply Hok, list_elem_of_In.
Qed.

End SourceBlocks.

(* ===================================================================== *)
(** * An if is claimed once *)
(* ===================================================================== *)

Section IfElseClaims.

Import IfElsePatcher Claims.

Lemma mark_has_else_lines (active_ifs : list if_ctx) (k : nat) :
  map line (mark_has_else active_ifs k) = map line active_ifs.
Proof.
  unfold mark_has_else. destruct (active_ifs !! k) as [c|] eqn:E; [|done].
  revert k E. induction active_ifs as [|x l IH]; intros [|k] E; simpl in *; try done.
  - by injection E as ->.
  - f_equal. by apply IH.
Qed.

Lemma mark_has_else_Forall (P : if_ctx -> Prop) (active_ifs : list if_ctx) (k : nat) :
  (forall c, P c -> P (IfCtx (line c) (indent c) (block_end c) true)) ->
  Forall P active_ifs -> Forall P (mark_has_else active_ifs k).
Proof.
  intros HP H. unfold mark_has_else.
  destruct (active_ifs !! k) as [c|] eqn:E; [|done].
  apply Forall_insert; [done|]. apply HP.
  rewrite Forall_lookup in H. by apply (H k).
Qed.

Lemma mark_has_else_marked (active_ifs : list if_ctx) (k : nat) (c : if_ctx) :
  NoDup (map line active_ifs) ->
  active_ifs !! k = Some c ->
  Forall (fun c' => line c' = line c -> has_else c' = true)
    (mark_has_else active_ifs k).
Proof.
  intros Hnd Hc. unfold mark_has_else. rewrite Hc.
  apply Forall_lookup. intros n c' Hn.
  destruct (decide (n = k)) as [->|Hne].
  - rewrite list_lookup_insert_eq in Hn by (by eapply lookup_lt_Some).
    by injection Hn as <-.
  - rewrite list_lookup_insert_ne in Hn by done. intros Hl.
    exfalso. apply Hne.
    eapply (NoDup_lookup (map line active_ifs) n k (line c)); [done|..].
    + change (map line active_ifs) with (line <$> active_ifs).
      by rewrite list_lookup_fmap, Hn, <- Hl.
    + change (map line active_ifs) with (line <$> active_ifs).
      by rewrite list_lookup_fmap, Hc.
Qed.

Lemma filter_NoDup_lines (P : if_ctx -> Prop) `{!forall x, Decision (P x)}
    (l : list if_ctx) :
  NoDup (map line l) -> NoDup (map line (filter P l)).
Proof.
  induction l as [|x l IH]; [done|]. simpl. intros Hnd.
  apply NoDup_cons in Hnd as [Hx Hl]. rewrite filter_cons.
  destruct (decide (P x)); [|by apply IH]. simpl.
  apply NoDup_cons. split; [|by apply IH].
  intros Hin. apply Hx. apply list_elem_of_In, in_map_iff in Hin as (y & Hy & Hin).
  apply list_elem_of_In, list_elem_of_filter in Hin as [_ Hin].
  apply list_elem_of_In, in_map_iff. exists y. split; [done|].
  by apply list_elem_of_In.
Qed.

Lemma analyze_loop_claims (rtl_lines : list str) : forall rest i pairs active_ifs,
  claims_ok i pairs active_ifs ->
  exists ctxs,
    claims_ok (i + length rest)
      (analyze_loop rtl_lines rest i pairs active_ifs) ctxs.
Proof.
  intros rest. induction rest as [|l rest IH];
    intros i pairs active_ifs Hinv.
  - simpl. rewrite Nat.add_0_r. by exists active_ifs.
  - replace (i + length (l :: rest)) with (i + 1 + length rest) by (simpl; lia).
    cbn [analyze_loop].
    destruct Hinv as (Hnd & Hlt & Hp & Hinj).
    (* the state is handed on unchanged *)
    assert (Hsame : claims_ok (i + 1) pairs active_ifs).
    { split; [done|]. split.
      - eapply Forall_impl; [exact Hlt|]. simpl. intros. lia.
      - split; [|done]. intros k p j H1 H2 H3.
        destruct (Hp k p j H1 H2 H3) as (? & ? & ?). repeat split; [lia|lia|done]. }
    (* a context for the line [i] is added *)
    assert (Hpush : forall ps ctxs b e ind,
              claims_ok (i + 1) ps ctxs ->
              Forall (fun c => line c < i) ctxs ->
              claims_ok (i + 1) ps (ctxs ++ [IfCtx i ind e b])).
    { intros ps ctxs b e ind (Hnd' & Hlt' & Hp' & Hinj') Hlti.
      split.
      { rewrite map_app. simpl. apply NoDup_app. split; [done|]. split.
        - intros x Hx Hx'. apply list_elem_of_In in Hx'. simpl in Hx'.
          destruct Hx' as [<-|[]].
          apply list_elem_of_In, in_map_iff in Hx as (c & Hc & Hin).
          rewrite Forall_forall in Hlti. apply list_elem_of_In, Hlti in Hin. lia.
        - apply NoDup_singleton. }
      split; [apply Forall_app; split; [done|]; constructor; [simpl; lia|done]|].
      split; [|done]. intros k p j H1 H2 H3.
      destruct (Hp' k p j H1 H2 H3) as (Hk & Hj & Hm).
      repeat split; [done..|]. apply Forall_app. split; [done|].
      constructor; [|done]. simpl. intros ->. lia. }
    (* the line [i] is an else without an if *)
    assert (Hmiss : claims_ok (i + 1) (<[i := PairInfo false None]> pairs) active_ifs).
    { destruct Hsame as (H1 & H2 & H3 & H4). split; [done|]. split; [done|]. split.
      - intros k p j Hk. destruct (decide (i = k)) as [<-|Hne].
        + rewrite lookup_insert_eq in Hk. by injection Hk as <-.
        + rewrite lookup_insert_ne in Hk by done. by apply H3.
      - intros k k' p p' j Hk Hk'.
        destruct (decide (i = k)) as [<-|Hne].
        { rewrite lookup_insert_eq in Hk. by injection Hk as <-. }
        destruct (decide (i = k')) as [<-|Hne'].
        { rewrite lookup_insert_eq in Hk'. by injection Hk' as <-. }
        rewrite lookup_insert_ne in Hk, Hk' by done. by apply H4. }
    (* the line [i] claims the context at position [k0] *)
    assert (Hclaim : forall k0,
              _find_matching_if_for_else active_ifs (length (_get_indent l)) i = Some k0 ->
              claims_ok (i + 1) (<[i := PairInfo true (line_of active_ifs k0)]> pairs)
                (mark_has_else active_ifs k0)
              /\ Forall (fun c => line c < i) (mark_has_else active_ifs k0)).
    { intros k0 Hk0. apply find_matching_from_spec in Hk0 as (c & _ & Hc & Hcan).
      rewrite Nat.sub_0_r in Hc.
      assert (Hfree : has_else c = false).
      { unfold else_can_claim in Hcan. apply andb_true_iff in Hcan as [_ Hcan].
        by apply negb_true_iff in Hcan. }
      assert (Hline : line_of active_ifs k0 = Some (line c)).
      { unfold line_of. by rewrite Hc. }
      assert (Hcin : c ∈ active_ifs) by (by eapply list_elem_of_lookup_2).
      assert (Hci : line c < i).
      { rewrite Forall_forall in Hlt. by apply Hlt. }
      rewrite Hline.
      destruct Hsame as (H1 & H2 & H3 & H4). split.
      2: { apply mark_has_else_Forall; [done|done]. }
      split; [by rewrite mark_has_else_lines|].
      split; [by apply mark_has_else_Forall|]. split.
      - intros k p j Hk. destruct (decide (i = k)) as [<-|Hne].
        + rewrite lookup_insert_eq in Hk. injection Hk as <-. simpl.
          intros _ [= <-]. split; [lia|]. split; [done|].
          by apply mark_has_else_marked.
        + rewrite lookup_insert_ne in Hk by done. intros Hm Hj.
          destruct (H3 k p j Hk Hm Hj) as (? & ? & ?). repeat split; [done..|].
          apply mark_has_else_Forall; [|done]. by intros.
      - assert (Hnew : forall k p, pairs !! k = Some p -> has_matching_if p = true ->
                  if_line p = Some (line c) -> False).
        { intros k p Hk Hm Hj. destruct (Hp k p _ Hk Hm Hj) as (_ & _ & Hf).
          rewrite Forall_forall in Hf. specialize (Hf c Hcin eq_refl). congruence. }
        intros k k' p p' j Hk Hk'.
        destruct (decide (i = k)) as [<-|Hne];
          destruct (decide (i = k')) as [<-|Hne']; [done|..].
        + rewrite lookup_insert_eq in Hk. rewrite lookup_insert_ne in Hk' by done.
          injection Hk as <-. simpl. intros _ Hm' [= <-] Hj'.
          destruct (Hnew k' p' Hk' Hm' Hj').
        + rewrite lookup_insert_eq in Hk'. rewrite lookup_insert_ne in Hk by done.
          injection Hk' as <-. simpl. intros Hm _ Hj [= <-].
          destruct (Hnew k p Hk Hm Hj).
        + rewrite lookup_insert_ne in Hk, Hk' by done. by apply H4. }
    destruct (is_empty (strip l) || startswith (strip l) (Str "//")); [by apply IH|].
    destruct (_is_if_statement (strip l)).
    { apply IH. by apply Hpush. }
    destruct (_is_else_if_statement (strip l)).
    { destruct (_find_matching_if_for_else _ _ _) as [k0|] eqn:Hk0.
      - destruct (Hclaim k0 eq_refl). apply IH. by apply Hpush.
      - by apply IH. }
    destruct (_is_else_statement (strip l)).
    { destruct (_find_matching_if_for_else _ _ _) as [k0|] eqn:Hk0.
      - destruct (Hclaim k0 eq_refl). by apply IH.
      - by apply IH. }
    apply IH. destruct Hsame as (H1 & H2 & H3 & H4).
    split; [by apply filter_NoDup_lines|]. split.
    { apply Forall_forall. intros c Hc. apply list_elem_of_filter in Hc as [_ Hc].
      rewrite Forall_forall in H2. by apply H2. }
    split; [|done]. intros k p j Hk Hm Hj.
    destruct (H3 k p j Hk Hm Hj) as (? & ? & Hf). repeat split; [done..|].
    apply Forall_forall. intros c Hc. apply list_elem_of_filter in Hc as [_ Hc].
    rewrite Forall_forall in Hf. by apply Hf.
Qed.

(** X24.  No [if] is claimed twice, and a claimed [if] comes before the line
    that claims it: two different lines that the pairing marks as matched
    have different [if_line]s, each smaller than the line's own index. *)
Theorem pairing_claims_once (rtl_lines : list str) (k k' j : nat) :
  _analyze_if_else_pairing rtl_lines !! k = Some (PairInfo true (Some j)) ->
  _analyze_if_else_pairing rtl_lines !! k' = Some (PairInfo true (Some j)) ->
  k = k' /\ j < k.
Proof.
  intros Hk Hk'.
  destruct (analyze_loop_claims rtl_lines rtl_lines 0 ∅ []) as (ctxs & _ & _ & Hp & Hinj).
  { split; [constructor|]. split; [constructor|]. split; [|done].
    intros ? ? ? H. by rewrite lookup_empty in H. }
  split.
  - exact (Hinj k k' _ _ j Hk Hk' eq_refl eq_refl eq_refl eq_refl).
  - by destruct (Hp k _ j Hk eq_refl eq_refl) as (_ & ? & _).
Qed.

Lemma pairing_claims_once_witness :
  _analyze_if_else_pairing
    [Line "if (a)"; Line "  x <= 1;"; Line "else"; Line "  x <= 0;"] !! 2
  = Some (PairInfo true (Some 0))
  /\ 2 = 2 /\ 0 < 2.
Proof.
  split; [by vm_compute|].
  apply (pairing_claims_once
           [Line "if (a)"; Line "  x <= 1;"; Line "else"; Line "  x <= 0;"] 2 2 0);
    by vm_compute.
Defined.

End IfElseClaims.

(* ===================================================================== *)
(** * Lone operators and orphan parts *)
(* ===================================================================== *)

Section LoneOperators.

Import Re ReLang SyntaxErrorPatcher Quiet.

(** A trimmed text has no whitespace at its start. *)
Lemma strip_no_leading (l a b : str) :
  strip l = a ++ b -> Forall (fun c => Char.is_space c = true) a -> a = [].
Proof.
  unfold strip. intros H Ha.
  destruct (rstrip_spec (lstrip l)) as (ws & Hl & _).
  destruct a as [|x a]; [done|]. exfalso.
  rewrite H in Hl. simpl in Hl. unfold lstrip in Hl.
  apply drop_while_head in Hl. inversion Ha; subst. congruence.
Qed.

Lemma attempt_eol (r : regex) must p pv (s : str) (st : mstate) :
  attempt (Cat r Eol) must p pv s = Some st ->
  exists w tail, s = w ++ tail /\ lang r w /\ at_eol tail = true.
Proof.
  unfold attempt. simpl. intros H.
  apply rmatch_sound in H as (w & st' & L & [S1 S2] & H). simpl in *.
  destruct (at_eol (rest st')) eqn:Ee; [|done].
  by exists w, (rest st').
Qed.

(** The words of "^\s*[ops]\s*": one of the characters, with whitespace
    around it. *)
Lemma lone_match (ops : string) (l : str) :
  matches (lone ops) (strip l) = true ->
  exists c, strip l = [c] /\ existsb (Char.eqb c) (Str ops) = true.
Proof.
  unfold matches, match_.
  destruct (attempt (lone ops) false 0 None (strip l)) as [st|] eqn:E; [|done].
  intros _.
  change (attempt (lone ops) false 0 None (strip l))
    with (attempt (Cat (Seq [Bol; Star CSpace; One (COneOf (Str ops)); Star CSpace]) Eol)
            false 0 None (strip l)) in E.
  apply attempt_eol in E as (w & tail & Hs & L & Ht).
  simpl in L.
  repeat match goal with
  | H : lang (Cat _ _) _ |- _ => inversion H; subst; clear H
  | H : lang (One _) _ |- _ => inversion H; subst; clear H
  | H : lang (Star _) _ |- _ => inversion H; subst; clear H
  | H : lang Bol _ |- _ => inversion H; subst; clear H
  end.
  simpl in Hs.
  match goal with
  | H1 : Forall _ ?ws1, H2 : Forall _ ?ws2, Hc : mem (COneOf _) ?c = true |- _ =>
      rename ws1 into a; rename ws2 into b; rename c into x
  end.
  rewrite <- app_assoc in Hs. simpl in Hs.
  match type of Hs with
  | strip l = ?u ++ _ =>
      assert (u = []) as -> by (by eapply strip_no_leading)
  end.
  simpl in Hs.
  match type of Hs with
  | strip l = ?x :: ?v ++ tail =>
      assert (v ++ tail = []) as Hv
  end.
  { eapply (strip_no_trailing l [_]); [exact Hs|].
    apply Forall_app. split; [done|]. by apply at_eol_spaces. }
  rewrite Hv in Hs. by eexists.
Qed.

Lemma orphan_operator_single (l : str) :
  _is_obvious_orphan_operator (strip l) = true -> single_stray_operator (strip l) = true.
Proof.
  unfold _is_obvious_orphan_operator.
  destruct (is_empty (strip l)); [done|].
  unfold orphan_patterns. cbn [existsb]. rewrite orb_false_r.
  assert (Hin : forall (ops : string) c,
            existsb (Char.eqb c) (Str ops) = true ->
            (forall x, In x (Str ops) -> is_stray_operator x = true) ->
            is_stray_operator c = true).
  { intros ops c H Hall. apply existsb_exists in H as (x & Hx & He).
    unfold Char.eqb in He. apply Ascii.eqb_eq in He. subst x. by apply Hall. }
  assert (Hone : forall ops : string,
            (forall x, In x (Str ops) -> is_stray_operator x = true) ->
            matches (lone ops) (strip l) = true ->
            single_stray_operator (strip l) = true).
  { intros ops Hall H. apply lone_match in H as (c & -> & Hc). simpl.
    by apply (Hin ops). }
  intros H.
  repeat match type of H with
  | (_ || _) = true => apply orb_true_iff in H as [H|H]
  end;
    (eapply Hone; [|exact H]);
    intros x Hx; simpl in Hx;
    repeat (destruct Hx as [<-|Hx]; [reflexivity|]); destruct Hx.
Qed.

(** X25.  The cleanup takes a line for a lone operator exactly when its trimmed
    text is one single character among the sixteen stray operators. *)
Theorem orphan_operator_exact (l : str) :
  is_orphan_line l = single_stray_operator (strip l).
Proof.
  unfold is_orphan_line.
  destruct (_is_obvious_orphan_operator (strip l)) eqn:E.
  - symmetry. by apply orphan_operator_single.
  - destruct (single_stray_operator (strip l)) eqn:S; [|done].
    unfold single_stray_operator in S.
    destruct (strip l) as [|c [|c' t]] eqn:Es; try done.
    apply single_operator_is_orphan in S. congruence.
Qed.

(** X26.  Whatever the passes before it did, the pipeline ends with the
    cleanup: it returns on every input, and no line of what it returns is
    a lone operator. *)
Theorem pipeline_output_clean (self : SyntaxErrorPatcher.t) (rtl_lines : list str) :
  exists out self',
    fix_all_syntax_errors self rtl_lines = Some (out, self')
    /\ no_orphan_line out = true.
Proof.
  unfold fix_all_syntax_errors.
  destruct (fix_assign_statements_total (assign_patcher self) rtl_lines)
    as [[l1 p1] ->]. simpl.
  destruct (fix_case_statements_total (case_patcher self) l1) as [[l2 p2] ->]. simpl.
  destruct (IfElsePatcher.fix_if_else_statements _ l2) as [l3 p3].
  destruct (AlwaysBlockPatcher.fix_always_blocks _ l3) as [l4 p4].
  destruct (fix_generate_blocks_total (generate_patcher self) l4) as [[l5 p5] ->].
  simpl. eexists _, _. split; [done|].
  unfold no_orphan_line, _conservative_cleanup. apply forallb_forall.
  intros x Hx.
  pose proof (cleanup_loop_no_orphan l5 [] ltac:(constructor)) as H.
  rewrite Forall_forall in H. apply list_elem_of_In, H in Hx.
  unfold is_orphan_line. by rewrite Hx.
Qed.

End LoneOperators.

Section OrphanParts.

Import Re ReLang AssignStatementPatcher.

(** X23.  A line the Assign pass takes for an orphan ternary part can always be
    merged: whatever the line before it is, [_can_merge_with_previous]
    answers yes. *)
Theorem orphan_part_always_merges (prev_line line : str) :
  _is_orphan_ternary_part (strip line) = true ->
  _can_merge_with_previous prev_line line = true.
Proof.
  intros H.
  assert (Hstart : startswith_any (strip line)
            [Str "?"; Str ":"; Str "&"; Str "|"; Str "^"; Str "+"; Str "-"] = true).
  { unfold _is_orphan_ternary_part, ternary_patterns in H. cbn [existsb] in H.
    rewrite orb_false_r in H.
    assert (Hone : forall x : ascii,
              matches (Seq [Bol; Star CSpace; One (CChar x); Star CSpace]) (strip line) = true ->
              startswith (strip line) [x] = true).
    { intros x Hm. unfold matches, match_ in Hm.
      destruct (attempt _ false 0 None (strip line)) as [st|] eqn:E; [|done].
      apply attempt_sound in E as (w & L & Hs & _).
      simpl in L.
      repeat match goal with
      | H : lang (Cat _ _) _ |- _ => inversion H; subst; clear H
      | H : lang (One _) _ |- _ => inversion H; subst; clear H
      | H : lang (Star _) _ |- _ => inversion H; subst; clear H
      | H : lang Bol _ |- _ => inversion H; subst; clear H
      | H : mem (CChar _) _ = true |- _ =>
          simpl in H; unfold Char.eqb in H; apply Ascii.eqb_eq in H; subst
      end.
      simpl in Hs. rewrite <- !app_assoc in Hs.
      match type of Hs with
      | strip line = ?u ++ _ =>
          assert (u = []) as -> by (by eapply strip_no_leading)
      end.
      simpl in Hs. rewrite Hs. simpl. unfold Char.eqb. rewrite Ascii.eqb_refl.
      by destruct (_ ++ _). }
    unfold startswith_any. cbn [existsb].
    repeat match type of H with
    | (_ || _) = true => apply orb_true_iff in H as [H|H]
    end.
    - assert (Hx : startswith (strip line) (Str "?") = true) by exact (Hone "?"%char H).
      rewrite Hx. by rewrite ?orb_true_r.
    - assert (Hx : startswith (strip line) (Str ":") = true) by exact (Hone ":"%char H).
      rewrite Hx. by rewrite ?orb_true_r.
    - assert (Hx : startswith (strip line) (Str "|") = true) by exact (Hone "|"%char H).
      rewrite Hx. by rewrite ?orb_true_r.
    - assert (Hx : startswith (strip line) (Str "&") = true) by exact (Hone "&"%char H).
      rewrite Hx. by rewrite ?orb_true_r.
    - assert (Hx : startswith (strip line) (Str "^") = true) by exact (Hone "^"%char H).
      rewrite Hx. by rewrite ?orb_true_r. }
  unfold _can_merge_with_previous. rewrite Hstart. by rewrite orb_true_r.
Qed.

Lemma orphan_part_always_merges_witness :
  _is_orphan_ternary_part (strip (Line "  ? a : b;")) = true
  /\ _can_merge_with_previous (Line "endmodule") (Line "  ? a : b;") = true.
Proof.
  split; [reflexivity|].
  apply (orphan_part_always_merges (Line "endmodule") (Line "  ? a : b;")).
  reflexivity.
Defined.

End OrphanParts.

(* ===================================================================== *)
(** * The count of the Generate pass *)
(* ===================================================================== *)

Section GenerateCounts.

Import GenerateBlockPatcher Grouping.







End GenerateCounts.

(* ===================================================================== *)
(** * The rewrite of the If-Else pass *)
(* ===================================================================== *)

Section IfElseRewrite.

Import Re ReLang IfElsePatcher IfElsePolicy Summaries Promotion.

(** Take a word of the else-if pattern apart along the pattern. *)
Ltac opening_inv :=
  repeat match goal with
  | H : lang (Cat _ _) _ |- _ => inversion H; subst; clear H
  | H : lang (One _) _ |- _ => inversion H; subst; clear H
  | H : lang (Star _) _ |- _ => inversion H; subst; clear H
  | H : lang WordB _ |- _ => inversion H; subst; clear H
  | H : mem (CChar _) _ = true |- _ =>
      simpl in H; unfold Char.eqb in H; apply Ascii.eqb_eq in H; subst
  end.

Lemma lang_else_if_opening (w : str) :
  lang else_if_pattern w -> else_if_opening w.
Proof.
  intros L. vm_compute in L. opening_inv.
  match goal with
  | |- context [([?c] ++ ?sp) ++ _ ++ ?sp' ++ _] =>
      exists (c :: sp), sp'; split; [|split; [done|split; [by constructor|done]]]
  end.
  simpl. by rewrite <- ?app_assoc.
Qed.

Lemma opening_head (w : str) :
  else_if_opening w ->
  exists w', w = "e"%char :: w' /\ last_char (Some "e"%char) w' = Some "("%char.
Proof.
  intros (sp & sp' & -> & _). eexists. split; [reflexivity|].
  unfold last_char. simpl. rewrite !fold_left_app. simpl. by rewrite fold_left_app.
Qed.

(** A match of the else-if pattern spans an else-if opening, and starts
    where no word character comes before. *)
Lemma attempt_else_if_sound (p : nat) (pv : option ascii) (s : str) (st : mstate) :
  attempt else_if_pattern false p pv s = Some st ->
  is_word_opt pv = false
  /\ exists w, else_if_opening w /\ s = w ++ rest st /\ pos st = p + length w.
Proof.
  intros H.
  destruct (attempt_sound _ _ _ _ _ _ H) as (w & L & Hs & Hp & _).
  apply lang_else_if_opening in L.
  split; [|by exists w].
  destruct (opening_head w L) as (w' & -> & _).
  unfold attempt in H.
  change else_if_pattern
    with (Cat WordB (Seq [Lit "else"; Plus CSpace; Lit "if"; Star CSpace; Lit "("]))
    in H.
  cbn [rmatch] in H.
  destruct (at_boundary (MState p pv s [])) eqn:Hb; [|done].
  unfold at_boundary in Hb. rewrite Hs in Hb. simpl in Hb.
  by destruct (is_word_opt pv).
Qed.

(** At an else-if opening that no word character precedes, the pattern
    matches, and the match is the opening. *)
Lemma attempt_else_if_complete (p : nat) (pv : option ascii) (w rest : str) :
  is_word_opt pv = false -> else_if_opening w ->
  exists st,
    attempt else_if_pattern false p pv (w ++ rest) = Some st
    /\ Re.rest st = rest /\ pos st = p + length w.
Proof.
  intros Hpv (sp & sp' & -> & Hne & Hsp & Hsp').
  destruct sp as [|c sp]; [done|]. inversion Hsp as [|? ? Hc Hsp0]; subst.
  unfold attempt. simpl. unfold at_boundary. simpl. rewrite Hpv. simpl.
  rewrite Hc.
  rewrite <- !app_assoc.
  assert (Hin : forall q pv',
            star_greedy CSpace
              (rmatch (Lit "(") (fun st => Some st)) q pv' (sp' ++ Str "(" ++ rest) []
            = Some (MState (S (q + length sp')) (Some "("%char) rest [])).
  { intros q pv'. by rewrite (star_greedy_run CSpace _ _ _ sp'). }
  rewrite (star_greedy_run CSpace _ _ _ sp); simpl; rewrite <- ?app_assoc;
    [|done|done|].
  - change (star_greedy CSpace _ ?q ?pv' (sp' ++ ["("%char] ++ rest) [])
      with (star_greedy CSpace (rmatch (Lit "(") (fun st => Some st)) q pv'
              (sp' ++ Str "(" ++ rest) []).
    rewrite Hin. eexists. split; [reflexivity|]. simpl. split; [done|].
    rewrite !length_app. simpl. rewrite length_app. simpl. lia.
  - change (star_greedy CSpace _ ?q ?pv' (sp' ++ ["("%char] ++ rest) [])
      with (star_greedy CSpace (rmatch (Lit "(") (fun st => Some st)) q pv'
              (sp' ++ Str "(" ++ rest) []).
    by rewrite Hin.
Qed.

(** The substitution of the If-Else pass replaces the else-if openings
    from left to right and keeps the rest. *)
Lemma sub_from_promoted : forall s p pv skip,
  promoted (last_char pv (take skip s)) (drop skip s)
    (sub_from else_if_pattern (Str "if (") p pv skip s).
Proof.
  induction s as [|c0 t IH]; intros p pv skip.
  - destruct skip as [|k]; cbn [sub_from take drop]; [|constructor].
    destruct (attempt else_if_pattern false p pv []) as [st|] eqn:E; [|constructor].
    apply attempt_else_if_sound in E as (_ & w & Hw & Hs & _).
    apply opening_head in Hw as (w' & -> & _). done.
  - destruct skip as [|k]; cbn [sub_from take drop].
    2: { exact (IH (S p) (Some c0) k). }
    change (last_char pv []) with pv.
    destruct (attempt else_if_pattern false p pv (c0 :: t)) as [st|] eqn:E.
    2: { apply pr_keep; [|exact (IH (S p) (Some c0) 0)].
         intros (Hpv & w & rest & Hw & Hs).
         destruct (attempt_else_if_complete p pv w rest Hpv Hw) as (st & Hst & _).
         rewrite <- Hs in Hst. congruence. }
    apply attempt_else_if_sound in E as (Hpv & w & Hw & Hs & Hp).
    destruct (opening_head w Hw) as (w' & -> & Hlast).
    injection Hs as -> ->.
    replace (pos st - p) with (S (length w')) by (simpl in Hp; lia).
    apply (pr_opening pv ("e"%char :: w') (rest st)); [done..|].
    specialize (IH (S p) (Some "e"%char) (length w')).
    by rewrite take_app_length, drop_app_length, Hlast in IH.
Qed.

Lemma convert_else_if_to_if_promoted (line : str) :
  promoted None line (_convert_else_if_to_if line).
Proof. exact (sub_from_promoted line 0 None 0). Qed.

Lemma space_not_word (c : ascii) : Char.is_space c = true -> Char.is_word c = false.
Proof. destruct c as [[] [] [] [] [] [] [] []]; by vm_compute. Qed.

(** Whitespace in front of the text is passed as it is. *)
Lemma sub_from_spaces (ws : str) : forall p pv s,
  spaces ws ->
  sub_from else_if_pattern (Str "if (") p pv 0 (ws ++ s)
  = ws ++ sub_from else_if_pattern (Str "if (") (p + length ws) (last_char pv ws) 0 s.
Proof.
  induction ws as [|c ws IH]; intros p pv s Hws.
  - simpl. by rewrite Nat.add_0_r.
  - inversion Hws as [|? ? Hc Hws']; subst.
    change ((c :: ws) ++ s) with (c :: (ws ++ s)). cbn [sub_from].
    destruct (attempt else_if_pattern false p pv (c :: ws ++ s)) as [st|] eqn:E.
    { apply attempt_else_if_sound in E as (_ & w & Hw & Hs & _).
      apply opening_head in Hw as (w' & -> & _). injection Hs as -> _.
      by vm_compute in Hc. }
    rewrite IH by done. simpl. do 3 f_equal. lia.
Qed.

Lemma last_char_spaces (ws : str) :
  spaces ws -> is_word_opt (last_char None ws) = false.
Proof.
  intros H. destruct (decide (ws = [])) as [->|Hne]; [done|].
  destruct (exists_last Hne) as (ws' & c & ->).
  unfold last_char. rewrite fold_left_app. simpl.
  apply Forall_app in H as [_ H]. inversion H; subst. by apply space_not_word.
Qed.

(** A line that starts, after its indentation, with an else-if opening
    comes out with "if (" in its place. *)
Lemma convert_else_if_to_if_head (ws w rest : str) :
  spaces ws -> else_if_opening w ->
  exists rest',
    _convert_else_if_to_if (ws ++ w ++ rest) = ws ++ Str "if (" ++ rest'
    /\ promoted (Some "("%char) rest rest'.
Proof.
  intros Hws Hw. unfold _convert_else_if_to_if, sub.
  rewrite sub_from_spaces by done.
  pose proof (sub_from_promoted (w ++ rest) (0 + length ws) (last_char None ws) 0)
    as Hp.
  destruct (attempt_else_if_complete (0 + length ws) (last_char None ws) w rest
              (last_char_spaces ws Hws) Hw) as (st & Hst & Hrest & Hpos).
  destruct (opening_head w Hw) as (w' & -> & Hlast).
  change (("e"%char :: w') ++ rest) with ("e"%char :: (w' ++ rest)) in *.
  cbn [sub_from] in *. rewrite Hst in *.
  replace (pos st - (0 + length ws)) with (S (length w')) in * by (simpl in Hpos; lia).
  eexists. split; [reflexivity|].
  pose proof (sub_from_promoted (w' ++ rest) (S (0 + length ws)) (Some "e"%char)
                (length w')) as Hq.
  by rewrite take_app_length, drop_app_length, Hlast in Hq.
Qed.

(** The pairing analysis records else and else-if lines only. *)
Lemma analyze_loop_records (rtl_lines : list str) : forall rest i pairs active_ifs,
  drop i rtl_lines = rest ->
  map_Forall (fun k _ => exists l, rtl_lines !! k = Some l /\ is_else_like l = true) pairs ->
  map_Forall (fun k _ => exists l, rtl_lines !! k = Some l /\ is_else_like l = true)
    (analyze_loop rtl_lines rest i pairs active_ifs).
Proof.
  intros rest. induction rest as [|l rest IH]; intros i pairs active_ifs Hd Hp;
    cbn [analyze_loop]; [done|].
  assert (Hl : rtl_lines !! i = Some l).
  { rewrite <- (Nat.add_0_r i), <- lookup_drop, Hd. done. }
  assert (Hd' : drop (i + 1) rtl_lines = rest).
  { rewrite <- drop_drop, Hd. done. }
  destruct (is_empty (strip l) || startswith (strip l) (Str "//")); [by apply IH|].
  destruct (_is_if_statement (strip l)); [by apply IH|].
  destruct (_is_else_if_statement (strip l)) eqn:Helif.
  { assert (He : is_else_like l = true).
    { unfold is_else_like. rewrite Helif. apply orb_true_r. }
    destruct (_find_matching_if_for_else _ _ _);
      (apply IH; [done|]); apply map_Forall_insert_2; eauto. }
  destruct (_is_else_statement (strip l)) eqn:Hel.
  { assert (He : is_else_like l = true).
    { unfold is_else_like. by rewrite Hel. }
    destruct (_find_matching_if_for_else _ _ _);
      (apply IH; [done|]); apply map_Forall_insert_2; eauto. }
  by apply IH.
Qed.

Lemma pairing_records (rtl_lines : list str) (i : nat) (p : pair_info) (l : str) :
  _analyze_if_else_pairing rtl_lines !! i = Some p ->
  rtl_lines !! i = Some l ->
  is_else_like l = true.
Proof.
  intros Hp Hl.
  pose proof (analyze_loop_records rtl_lines rtl_lines 0 ∅ [] eq_refl
                (map_Forall_empty _)) as H.
  destruct (H i p Hp) as (l' & Hl' & He). congruence.
Qed.

Lemma analyze_loop_keeps (rtl_lines : list str) (k : nat) :
  forall rest i pairs active_ifs,
    is_Some (pairs !! k) ->
    is_Some (analyze_loop rtl_lines rest i pairs active_ifs !! k).
Proof.
  intros rest. induction rest as [|l rest IH]; intros i pairs active_ifs Hk;
    cbn [analyze_loop]; [done|].
  assert (Hins : forall p, is_Some (<[i := p]> pairs !! k)).
  { intros p. destruct (decide (i = k)) as [->|Hne].
    - rewrite lookup_insert_eq. by eexists.
    - by rewrite lookup_insert_ne. }
  repeat case_match; apply IH; auto.
Qed.

(** The pairing analysis records every else and else-if line that is no
    comment and that it does not take for an if. *)
Lemma analyze_loop_covers (rtl_lines : list str) (k : nat) (l : str) :
  rtl_lines !! k = Some l ->
  is_else_like l = true ->
  startswith (strip l) (Str "//") = false ->
  _is_if_statement (strip l) = false ->
  forall rest i pairs active_ifs,
    drop i rtl_lines = rest -> i <= k ->
    is_Some (analyze_loop rtl_lines rest i pairs active_ifs !! k).
Proof.
  intros Hl He Hc Hif rest.
  induction rest as [|l0 rest IH]; intros i pairs active_ifs Hd Hik.
  { apply lookup_lt_Some in Hl.
    apply (f_equal length) in Hd. rewrite length_drop in Hd. simpl in Hd. lia. }
  assert (Hl0 : rtl_lines !! i = Some l0).
  { rewrite <- (Nat.add_0_r i), <- lookup_drop, Hd. done. }
  assert (Hd' : drop (i + 1) rtl_lines = rest).
  { rewrite <- drop_drop, Hd. done. }
  destruct (decide (i = k)) as [->|Hne].
  2: { cbn [analyze_loop]. repeat case_match; apply IH; (done || lia). }
  assert (l0 = l) as -> by congruence.
  cbn [analyze_loop]. rewrite Hc, Hif.
  assert (Hne : is_empty (strip l) = false).
  { unfold is_else_like in He. by destruct (strip l). }
  rewrite Hne. cbn [orb].
  unfold is_else_like in He.
  destruct (_is_else_if_statement (strip l)).
  { destruct (_find_matching_if_for_else _ _ _);
      apply analyze_loop_keeps; rewrite lookup_insert_eq; by eexists. }
  rewrite orb_false_r in He. rewrite He.
  destruct (_find_matching_if_for_else _ _ _);
    apply analyze_loop_keeps; rewrite lookup_insert_eq; by eexists.
Qed.

(** A line that closes a block and goes on with an [else if] is taken
    for an [if] by the analysis, which leaves no record of it. *)
Example end_else_if_not_recorded :
  let rtl_lines :=
    [Line "if (a) begin"; Line "  x <= 1;"; Line "end else if (b) begin";
     Line "  x <= 2;"; Line "end"] in
  _is_if_statement (strip (Line "end else if (b) begin")) = true
  /\ _analyze_if_else_pairing rtl_lines !! 2 = None.
Proof. by vm_compute. Qed.

(** C4, counterexample.  An unpaired bare [else] is dropped alone: the
    statement that follows it is still in the output.  And an unpaired
    [else if] line that has an [else] in front comes out as an [else if]
    line, no standalone [if]. *)
Lemma dangling_else_outcomes :
  (let rtl_lines := [Line "else"; Line "  y <= 1;"] in
   _analyze_if_else_pairing rtl_lines !! 0 = Some (PairInfo false None)
   /\ unpaired_bare_else (_analyze_if_else_pairing rtl_lines) 0 (Line "else") = true
   /\ (fix_if_else_statements new rtl_lines).1 = [Line "  y <= 1;"])
  /\ (let rtl_lines := [Line "else else if (x)"] in
      _analyze_if_else_pairing rtl_lines !! 0 = Some (PairInfo false None)
      /\ (fix_if_else_statements new rtl_lines).1 = [Line "else if (x)"]
      /\ _is_else_if_statement (strip (Line "else if (x)")) = true
      /\ _is_if_statement (strip (Line "else if (x)")) = false).
Proof. vm_compute. repeat split. Qed.

(** C4, as amended.  The If-Else pass returns on every input, and its
    output is made line by line, in the order of the input.  A line that
    is neither an [else] nor an [else if] line is kept, and so is a line
    the pairing analysis records as paired.  An [else if] line the
    analysis records as unpaired is rewritten by textual replacement:
    from left to right every else-if opening, that is else, whitespace,
    if, whitespace or none and an opening parenthesis, with no word
    character before it, gives way to "if (" and every other character is
    kept; a line that starts with such an opening after its indentation
    comes out with "if (" after the same indentation.  A bare [else] line
    the analysis records as unpaired is dropped, that line only: the
    lines after it are treated like any other line. *)
Theorem if_else_rewrite_policy (self : t) (rtl_lines : list str) :
  exists chunks,
    (fix_if_else_statements self rtl_lines).1 = concat chunks
    /\ length chunks = length rtl_lines
    /\ forall i l chunk,
         rtl_lines !! i = Some l -> chunks !! i = Some chunk ->
         (is_else_like l = false -> chunk = [l])
         /\ (is_else_like l = true ->
             startswith (strip l) (Str "//") = false ->
             _is_if_statement (strip l) = false ->
             is_Some (_analyze_if_else_pairing rtl_lines !! i))
         /\ forall p,
              _analyze_if_else_pairing rtl_lines !! i = Some p ->
              (has_matching_if p = true -> chunk = [l])
              /\ (has_matching_if p = false ->
                  _is_else_if_statement (strip l) = true ->
                  exists out,
                    chunk = [out]
                    /\ promoted None l out
                    /\ forall ws w rest,
                         l = ws ++ w ++ rest -> spaces ws -> else_if_opening w ->
                         exists rest', out = ws ++ Str "if (" ++ rest')
              /\ (has_matching_if p = false ->
                  _is_else_if_statement (strip l) = false ->
                  _is_else_statement (strip l) = true /\ chunk = []).
Proof.
  exists (imap (emitted_for (_analyze_if_else_pairing rtl_lines)) rtl_lines).
  split.
  { unfold fix_if_else_statements. rewrite rewrite_loop_spec. simpl.
    f_equal. }
  split; [apply length_imap|].
  intros i l chunk Hl Hchunk.
  rewrite list_lookup_imap, Hl in Hchunk. injection Hchunk as <-.
  unfold emitted_for, unpaired_else_if, unpaired_bare_else, is_paired.
  split; [by intros ->|]. split.
  { intros He Hc Hif.
    apply (analyze_loop_covers rtl_lines i l Hl He Hc Hif rtl_lines 0 ∅ []);
      [done|lia]. }
  intros p Hp. rewrite Hp.
  pose proof (pairing_records rtl_lines i p l Hp Hl) as He.
  rewrite He. split; [by intros ->|]. split.
  - intros -> ->. cbn [negb andb].
    exists (_convert_else_if_to_if l). split; [done|].
    split; [apply convert_else_if_to_if_promoted|].
    intros ws w rest -> Hws Hw.
    destruct (convert_else_if_to_if_head ws w rest Hws Hw) as (rest' & -> & _).
    by exists rest'.
  - intros -> Hn. rewrite Hn. cbn [negb andb]. split; [|done].
    unfold is_else_like in He. rewrite Hn in He. by rewrite orb_false_r in He.
Qed.

(** The theorem at the dangling [else if] of the second scenario. *)
Lemma if_else_rewrite_policy_witness :
  exists rest',
    (fix_if_else_statements new [Line "else if (x)"; Line "  y <= 1;"]).1
    = [Str "if (" ++ rest'; Line "  y <= 1;"].
Proof.
  destruct (if_else_rewrite_policy new [Line "else if (x)"; Line "  y <= 1;"])
    as (chunks & -> & Hlen & Hline).
  destruct chunks as [|c0 [|c1 [|c2 chunks]]]; try discriminate Hlen.
  destruct (Hline 0 (Line "else if (x)") c0 eq_refl eq_refl) as (_ & _ & H0).
  destruct (H0 (PairInfo false None) ltac:(by vm_compute)) as (_ & H0' & _).
  destruct (H0' eq_refl ltac:(by vm_compute)) as (out & -> & _ & Hhead).
  destruct (Hhead [] (Str "else if (") (Line "x)") eq_refl ltac:(constructor))
    as (rest' & ->).
  { exists [" "%char], [" "%char].
    split; [reflexivity|split; [done|split; by repeat constructor]]. }
  destruct (Hline 1 (Line "  y <= 1;") c1 eq_refl eq_refl) as [H1 _].
  rewrite (H1 ltac:(by vm_compute)).
  by exists rest'.
Defined.

End IfElseRewrite.
